(** * catalogue-redis: the read-through cache in front of the catalogue service

    A shallow embedding of the cache layer of the catalogue service
    (key derivation, the Redis-backed [catalogueCache], the [CacheMetrics]
    recorder, the [CachedService] coordinator and the [CacheWarmer]) together
    with the properties checked against it.

    Conventions.
    - A Go [string] is a sequence of bytes: Rocq's [string].
    - A Go [int], [int64] or [time.Duration] is a [Z]; arithmetic that the
      code performs on stored counters wraps around at 64 bits ([wrap64]).
    - A Go slice is a [slice]: either the nil slice or a list of elements.
    - A Go [error] is an [option err]; [None] is [nil].
    - Stateful code is written in a small state monad [M St A]. *)

From stdpp Require Import gmap strings list.
From Stdlib Require Import ZArith Lia Ascii.

Open Scope Z_scope.

(** ** Go data *)

Inductive slice (T : Type) : Type :=
| nil_slice
| Slice (l : list T).
Arguments nil_slice {T}.
Arguments Slice {T} l.

Definition elems {T} (s : slice T) : list T :=
  match s with
  | nil_slice => []
  | Slice l => l
  end.

(** [len(s)] *)
Definition len {T} (s : slice T) : Z := Z.of_nat (length (elems s)).

Inductive err : Type :=
| redis_Nil
| NumError (func num why : string)
| errorString (msg : string).

Definition error := option err.

Definition int64_min : Z := - 2 ^ 63.
Definition int64_max : Z := 2 ^ 63 - 1.

Definition is_int64 (z : Z) : Prop := int64_min <= z <= int64_max.
Definition is_int64b (z : Z) : bool := (int64_min <=? z) && (z <=? int64_max).

(** Two's complement wrap-around of 64-bit arithmetic. *)
Definition wrap64 (z : Z) : Z := (z + 2 ^ 63) mod 2 ^ 64 - 2 ^ 63.
Arguments wrap64 : simpl never.

(** ** The parts of the Go library the cache uses *)

Module strings.

(** [strings.Join(elems, sep)] *)
Fixpoint Join (elems : list string) (sep : string) : string :=
  match elems with
  | [] => ""
  | a :: rest =>
      match rest with
      | [] => a
      | _ :: _ => a +:+ sep +:+ Join rest sep
      end
  end.

(** Whether the byte [c] occurs in [s] ([strings.IndexByte(s, c) >= 0]). *)
Fixpoint ContainsByte (s : string) (c : ascii) : bool :=
  match s with
  | EmptyString => false
  | String a rest => Ascii.eqb a c || ContainsByte rest c
  end.

End strings.

Module strconv.

Definition digit_char (d : Z) : ascii := ascii_of_nat (48 + Z.to_nat d).

Definition digit_val (c : ascii) : option Z :=
  let d := Z.of_nat (nat_of_ascii c) - 48 in
  if (0 <=? d) && (d <=? 9) then Some d else None.

Arguments digit_char : simpl never.
Arguments digit_val : simpl never.

(** The digits of [u], most significant first, in front of [acc]. *)
Fixpoint formatBits (fuel : nat) (u : Z) (acc : string) : string :=
  let acc' := String (digit_char (u mod 10)) acc in
  match fuel with
  | O => acc'
  | S fuel' => if u <? 10 then acc' else formatBits fuel' (u / 10) acc'
  end.

(** [strconv.FormatInt(i, 10)], which is also what the [%d] verb and the
    Redis client print for an [int]. *)
Definition FormatInt (i : Z) : string :=
  if i <? 0
  then String "-" (formatBits (Z.to_nat (Z.log2 (- i))) (- i) "")
  else formatBits (Z.to_nat (Z.log2 i)) i "".

Definition Itoa (i : Z) : string := FormatInt i.

Fixpoint parse_digits (s : string) (acc : Z) : option Z :=
  match s with
  | EmptyString => Some acc
  | String c rest =>
      match digit_val c with
      | Some d => parse_digits rest (acc * 10 + d)
      | None => None
      end
  end.

(** An optional sign followed by at least one decimal digit: the fast path
    of [Atoi]. *)
Definition parse_int (s : string) : option Z :=
  match s with
  | EmptyString => None
  | String c rest =>
      let body := if (c =? "-")%char || (c =? "+")%char then rest else s in
      match body with
      | EmptyString => None
      | String _ _ =>
          match parse_digits body 0 with
          | Some u => Some (if (c =? "-")%char then - u else u)
          | None => None
          end
      end
  end.

(** The two errors of the number parsers. *)
Inductive num_error : Type :=
| ErrSyntax
| ErrRange.

Definition num_error_text (e : num_error) : string :=
  match e with
  | ErrSyntax => "invalid syntax"
  | ErrRange => "value out of range"
  end.

Definition maxUint64 : Z := 2 ^ 64 - 1.

(** The loop of [ParseUint(s, 10, 64)] over the bytes of [s], from the
    value [n] read so far. *)
Fixpoint ParseUint_loop (s : string) (n : Z) : Z * option num_error :=
  match s with
  | EmptyString => (n, None)
  | String c rest =>
      match digit_val c with
      | None => (0, Some ErrSyntax)
      | Some d =>
          if maxUint64 / 10 + 1 <=? n then (maxUint64, Some ErrRange)
          else if maxUint64 <? n * 10 + d then (maxUint64, Some ErrRange)
          else ParseUint_loop rest (n * 10 + d)
      end
  end.

(** [strconv.ParseUint(s, 10, 64)] *)
Definition ParseUint (s : string) : Z * option num_error :=
  match s with
  | EmptyString => (0, Some ErrSyntax)
  | String _ _ => ParseUint_loop s 0
  end.

(** [strconv.ParseInt(s, 10, 0)] on a platform whose [int] has 64 bits. *)
Definition ParseInt (s : string) : Z * option num_error :=
  match s with
  | EmptyString => (0, Some ErrSyntax)
  | String c rest =>
      let neg := (c =? "-")%char in
      let body := if (c =? "+")%char || (c =? "-")%char then rest else s in
      match ParseUint body with
      | (_, Some ErrSyntax) => (0, Some ErrSyntax)
      | (un, _) =>
          let cutoff := 2 ^ 63 in
          if negb neg && (cutoff <=? un) then (cutoff - 1, Some ErrRange)
          else if neg && (cutoff <? un) then (- cutoff, Some ErrRange)
          else (if neg then - un else un, None)
      end
  end.

(** [strconv.Atoi(s)] on a platform whose [int] has 64 bits: a fast path
    for the strings of fewer than 19 bytes, [ParseInt] for the others. *)
Definition Atoi (s : string) : Z * error :=
  let sLen := Z.of_nat (String.length s) in
  if (0 <? sLen) && (sLen <? 19) then
    match parse_int s with
    | None => (0, Some (NumError "Atoi" s (num_error_text ErrSyntax)))
    | Some n => (n, None)
    end
  else
    match ParseInt s with
    | (i64, Some e) => (i64, Some (NumError "Atoi" s (num_error_text e)))
    | (i64, None) => (i64, None)
    end.

End strconv.

Module fmt.

Inductive arg : Type :=
| AString (s : string)
| AInt (i : Z).

Definition bad_verb (v : ascii) (a : arg) : string :=
  match a with
  | AString s => "%!" +:+ String v ("(string=" +:+ s +:+ ")")
  | AInt i => "%!" +:+ String v ("(int=" +:+ strconv.FormatInt i +:+ ")")
  end.

(** One operand printed under verb [v]; only the verbs [%s], [%d] and [%v]
    without flags are covered. *)
Definition print_verb (v : ascii) (a : arg) : string :=
  match a with
  | AString s =>
      if (v =? "s")%char || (v =? "v")%char then s else bad_verb v a
  | AInt i =>
      if (v =? "d")%char || (v =? "v")%char then strconv.FormatInt i
      else bad_verb v a
  end.

Definition type_value (a : arg) : string :=
  match a with
  | AString s => "string=" +:+ s
  | AInt i => "int=" +:+ strconv.FormatInt i
  end.

Definition extra (a : list arg) : string :=
  match a with
  | [] => ""
  | _ :: _ => "%!(EXTRA " +:+ strings.Join (map type_value a) ", " +:+ ")"
  end.

(** [fmt.Sprintf(format, a...)] *)
Fixpoint Sprintf (format : string) (a : list arg) : string :=
  match format with
  | EmptyString => extra a
  | String c rest =>
      if (c =? "%")%char then
        match rest with
        | EmptyString => "%!(NOVERB)" +:+ extra a
        | String v rest' =>
            if (v =? "%")%char then String "%" (Sprintf rest' a)
            else
              match a with
              | [] => "%!" +:+ String v ("(MISSING)" +:+ Sprintf rest' [])
              | x :: a' => print_verb v x +:+ Sprintf rest' a'
              end
        end
      else String c (Sprintf rest a)
  end.

End fmt.

(** ** Key derivation (the cache key generators of [catalogueCache]) *)

Definition productListKey (tags : slice string) (order : string)
    (pageNum pageSize : Z) : string :=
  let tagsStr := strings.Join (elems tags) "," in
  let tagsStr := if String.eqb tagsStr "" then "all" else tagsStr in
  fmt.Sprintf "catalogue:products:%s:order:%s:page:%d:size:%d"
    [fmt.AString tagsStr; fmt.AString order; fmt.AInt pageNum; fmt.AInt pageSize].

Definition productKey (id : string) : string :=
  fmt.Sprintf "catalogue:product:%s" [fmt.AString id].

Definition countKey (tags : slice string) : string :=
  let tagsStr := strings.Join (elems tags) "," in
  let tagsStr := if String.eqb tagsStr "" then "all" else tagsStr in
  fmt.Sprintf "catalogue:count:%s" [fmt.AString tagsStr].

Definition tagsKey : string := "catalogue:tags:all".


(** ** A small state monad for the stateful code *)

Definition M (St A : Type) : Type := St -> A * St.

Definition ret {St A} (a : A) : M St A := fun s => (a, s).

Definition bind {St A B} (m : M St A) (k : A -> M St B) : M St B :=
  fun s => let (a, s') := m s in k a s'.

Definition modify {St} (f : St -> St) : M St unit := fun s => (tt, f s).

Notation "x <- m ;; k" := (bind m (fun x => k))
  (at level 100, m at level 99, k at level 200, only parsing).
#[warnings="-notation-incompatible-prefix"]
Notation "' pat <- m ;; k" := (bind m (fun pat => k))
  (at level 100, pat pattern, m at level 99, k at level 200, only parsing).
Notation "m ;; k" := (bind m (fun _ => k))
  (at level 100, k at level 200, only parsing).

(** ** Structured log records ([logger.Log(key, value, ...)]) *)

Inductive logval : Type :=
| LString (s : string)
| LInt (i : Z)
| LError (e : err)
| LStrings (l : slice string).

Definition LogEntry : Type := list (string * logval).

(** [d.Milliseconds()] of a [time.Duration] counted in nanoseconds. *)
Definition Milliseconds (d : Z) : Z := Z.quot d 1000000.

Definition Second : Z := 1000000000.
Definition Minute : Z := 60 * Second.

(** ** The metrics recorder ([CacheMetrics]) *)

Record CacheMetrics : Type := {
  totalRequests : Z;
  cacheHits : Z;
  cacheMisses : Z;
  cacheErrors : Z;
  totalResponseTime : Z;
  cacheResponseTime : Z;
  dbResponseTime : Z;
  listRequests : Z;
  getRequests : Z;
  countRequests : Z;
  tagsRequests : Z
}.

Definition NewCacheMetrics : CacheMetrics :=
  {| totalRequests := 0; cacheHits := 0; cacheMisses := 0; cacheErrors := 0;
     totalResponseTime := 0; cacheResponseTime := 0; dbResponseTime := 0;
     listRequests := 0; getRequests := 0; countRequests := 0; tagsRequests := 0 |}.

Definition incrementOperationCounter (operation : string) (m : CacheMetrics)
    : CacheMetrics :=
  let incr (on : string) (v : Z) : Z :=
    if String.eqb operation on then wrap64 (v + 1) else v in
  {| totalRequests := totalRequests m;
     cacheHits := cacheHits m;
     cacheMisses := cacheMisses m;
     cacheErrors := cacheErrors m;
     totalResponseTime := totalResponseTime m;
     cacheResponseTime := cacheResponseTime m;
     dbResponseTime := dbResponseTime m;
     listRequests := incr "List" (listRequests m);
     getRequests := incr "Get" (getRequests m);
     countRequests := incr "Count" (countRequests m);
     tagsRequests := incr "Tags" (tagsRequests m) |}.

Definition RecordCacheHit (operation : string) (duration : Z) (m : CacheMetrics)
    : CacheMetrics :=
  incrementOperationCounter operation
    {| totalRequests := wrap64 (totalRequests m + 1);
       cacheHits := wrap64 (cacheHits m + 1);
       cacheMisses := cacheMisses m;
       cacheErrors := cacheErrors m;
       totalResponseTime := wrap64 (totalResponseTime m + duration);
       cacheResponseTime := wrap64 (cacheResponseTime m + duration);
       dbResponseTime := dbResponseTime m;
       listRequests := listRequests m;
       getRequests := getRequests m;
       countRequests := countRequests m;
       tagsRequests := tagsRequests m |}.

Definition RecordCacheMiss (operation : string) (duration : Z) (m : CacheMetrics)
    : CacheMetrics :=
  incrementOperationCounter operation
    {| totalRequests := wrap64 (totalRequests m + 1);
       cacheHits := cacheHits m;
       cacheMisses := wrap64 (cacheMisses m + 1);
       cacheErrors := cacheErrors m;
       totalResponseTime := wrap64 (totalResponseTime m + duration);
       cacheResponseTime := cacheResponseTime m;
       dbResponseTime := wrap64 (dbResponseTime m + duration);
       listRequests := listRequests m;
       getRequests := getRequests m;
       countRequests := countRequests m;
       tagsRequests := tagsRequests m |}.

Definition RecordCacheError (operation : string) (duration : Z) (m : CacheMetrics)
    : CacheMetrics :=
  incrementOperationCounter operation
    {| totalRequests := wrap64 (totalRequests m + 1);
       cacheHits := cacheHits m;
       cacheMisses := cacheMisses m;
       cacheErrors := wrap64 (cacheErrors m + 1);
       totalResponseTime := wrap64 (totalResponseTime m + duration);
       cacheResponseTime := cacheResponseTime m;
       dbResponseTime := wrap64 (dbResponseTime m + duration);
       listRequests := listRequests m;
       getRequests := getRequests m;
       countRequests := countRequests m;
       tagsRequests := tagsRequests m |}.

(** The [float64] arithmetic of [GetMetrics]: the conversion from [int64],
    division and multiplication are taken as given. *)
Class Float64 : Type := {
  float64 : Type;
  float64_of_int : Z -> float64;
  float64_div : float64 -> float64 -> float64;
  float64_mul : float64 -> float64 -> float64
}.

Section Snapshot.

Context `{Float64}.

Record MetricsSnapshot : Type := {
  TotalRequests : Z;
  CacheHits : Z;
  CacheMisses : Z;
  CacheErrors : Z;
  HitRatio : float64;
  AvgResponseTime : Z;
  AvgCacheResponseTime : Z;
  AvgDbResponseTime : Z;
  ListRequests : Z;
  GetRequests : Z;
  CountRequests : Z;
  TagsRequests : Z
}.

Definition GetMetrics (m : CacheMetrics) : MetricsSnapshot :=
  let hitRatio :=
    if totalRequests m >? 0
    then float64_mul
           (float64_div (float64_of_int (cacheHits m))
                        (float64_of_int (totalRequests m)))
           (float64_of_int 100)
    else float64_of_int 0 in
  let avgResponseTime :=
    if totalRequests m >? 0
    then Z.quot (totalResponseTime m) (totalRequests m) else 0 in
  let avgCacheResponseTime :=
    if cacheHits m >? 0
    then Z.quot (cacheResponseTime m) (cacheHits m) else 0 in
  let dbRequests := wrap64 (cacheMisses m + cacheErrors m) in
  let avgDbResponseTime :=
    if dbRequests >? 0
    then Z.quot (dbResponseTime m) dbRequests else 0 in
  {| TotalRequests := totalRequests m;
     CacheHits := cacheHits m;
     CacheMisses := cacheMisses m;
     CacheErrors := cacheErrors m;
     HitRatio := hitRatio;
     AvgResponseTime := avgResponseTime;
     AvgCacheResponseTime := avgCacheResponseTime;
     AvgDbResponseTime := avgDbResponseTime;
     ListRequests := listRequests m;
     GetRequests := getRequests m;
     CountRequests := countRequests m;
     TagsRequests := tagsRequests m |}.

End Snapshot.

(** A recorded call, for stating properties of sequences of calls. *)
Inductive record_call : Type :=
| Hit (operation : string) (duration : Z)
| Miss (operation : string) (duration : Z)
| Error (operation : string) (duration : Z).

Definition record (m : CacheMetrics) (c : record_call) : CacheMetrics :=
  match c with
  | Hit op d => RecordCacheHit op d m
  | Miss op d => RecordCacheMiss op d m
  | Error op d => RecordCacheError op d m
  end.

Definition record_all (calls : list record_call) : CacheMetrics :=
  fold_left record calls NewCacheMetrics.

(** ** [encoding/json], as far as the cache relies on it *)

Inductive result (T : Type) : Type :=
| Ok (v : T)
| Fail (e : err).
Arguments Ok {T} v.
Arguments Fail {T} e.

(** [Marshal v] is [json.Marshal(v)]; [Unmarshal data] is the value left in a
    zero-initialised variable [v] by [json.Unmarshal(data, &v)], or its
    error. *)
Class JSON (T : Type) : Type := {
  Marshal : T -> result string;
  Unmarshal : string -> result T
}.

(** ** The Redis client

    The server's keyspace is a finite map. Whether the [n]-th command sent
    through the client fails (connection refused, timeout, ...) is decided by
    [faults]; a failed command leaves the keyspace as it was. Expiry of keys
    is the server's business and is not modelled: [SET] only records the
    expiration it was given. *)

Inductive command : Type :=
| GET (key : string)
| SET (key value : string) (expiration : Z)
| DEL (key : string).

Record redisClient : Type := {
  keyspace : gmap string string;
  faults : nat -> option err;
  sent : list command
}.

Definition send (c : command) (r : redisClient) : redisClient :=
  {| keyspace := keyspace r; faults := faults r; sent := c :: sent r |}.

Definition served (c : command) (ks : gmap string string) (r : redisClient)
    : redisClient :=
  {| keyspace := ks; faults := faults r; sent := c :: sent r |}.

(** The value argument of a command, as the client encodes it. *)
Inductive redis_arg : Type :=
| ArgBytes (b : string)
| ArgInt (i : Z).

Definition appendArg (v : redis_arg) : string :=
  match v with
  | ArgBytes b => b
  | ArgInt i => strconv.FormatInt i
  end.

Module redis.

(** [client.Get(ctx, key).Result()] *)
Definition Get (key : string) : M redisClient (string * error) :=
  fun r =>
    match faults r (length (sent r)) with
    | Some e => (("", Some e), send (GET key) r)
    | None =>
        match keyspace r !! key with
        | Some v => ((v, None), send (GET key) r)
        | None => (("", Some redis_Nil), send (GET key) r)
        end
    end.

(** [client.Set(ctx, key, value, expiration).Err()] *)
Definition Set_ (key : string) (value : redis_arg) (expiration : Z)
    : M redisClient error :=
  fun r =>
    let c := SET key (appendArg value) expiration in
    match faults r (length (sent r)) with
    | Some e => (Some e, send c r)
    | None => (None, served c (<[key := appendArg value]> (keyspace r)) r)
    end.

(** [client.Del(ctx, key).Err()] *)
Definition Del (key : string) : M redisClient error :=
  fun r =>
    match faults r (length (sent r)) with
    | Some e => (Some e, send (DEL key) r)
    | None => (None, served (DEL key) (delete key (keyspace r)) r)
    end.

End redis.

(** ** The cache interface ([CatalogueCache]) and the catalogue [Service]

    The element type [Sock] of the catalogue is declared outside the cache
    layer; it is a parameter here, with its zero value [Sock{}] and the two
    fields the cache layer reads. Invalidation and health checks are not
    part of the read path and are left out. *)

Class SockType : Type := {
  Sock : Type;
  Sock_zero : Sock;
  ID : Sock -> string;
  Name : Sock -> string
}.

Class CatalogueCache `{SockType} (C : Type) : Type := {
  GetProducts : slice string -> string -> Z -> Z -> M C (slice Sock * bool * error);
  SetProducts : slice string -> string -> Z -> Z -> slice Sock -> M C error;
  GetProduct : string -> M C (Sock * bool * error);
  SetProduct : string -> Sock -> M C error;
  GetCount : slice string -> M C (Z * bool * error);
  SetCount : slice string -> Z -> M C error;
  GetTags : M C (slice string * bool * error);
  SetTags : slice string -> M C error
}.

Class Service `{SockType} (S : Type) : Type := {
  List : slice string -> string -> Z -> Z -> M S (slice Sock * error);
  Count : slice string -> M S (Z * error);
  Get : string -> M S (Sock * error);
  Tags : M S (slice string * error)
}.

(** ** The Redis-backed cache ([catalogueCache]) *)

Record catalogueCache : Type := {
  client : redisClient;
  logger : list LogEntry;
  ttl : Z
}.

(** [NewCatalogueCache], given the client it dials. *)
Definition NewCatalogueCache (rdb : redisClient) : catalogueCache :=
  {| client := rdb; logger := []; ttl := 30 * Minute |}.

Module cache.

Definition Log (e : LogEntry) : M catalogueCache unit :=
  modify (fun c => {| client := client c; logger := e :: logger c; ttl := ttl c |}).

(** Runs a client command on the cache's connection. *)
Definition on_client {A} (m : M redisClient A) : M catalogueCache A :=
  fun c =>
    let (a, r) := m (client c) in
    (a, {| client := r; logger := logger c; ttl := ttl c |}).

Definition get_ttl : M catalogueCache Z := fun c => (ttl c, c).

Section Operations.

Context `{SockType}.
Context {json_products : JSON (slice Sock)}.
Context {json_product : JSON Sock}.
Context {json_tags : JSON (slice string)}.

(** *** Product list operations *)

Definition GetProducts (tags : slice string) (order : string)
    (pageNum pageSize : Z) : M catalogueCache (slice Sock * bool * error) :=
  let key := productListKey tags order pageNum pageSize in
  '(val, err) <- on_client (redis.Get key) ;;
  match err with
  | Some redis_Nil =>
      Log [("cache", LString "miss"); ("key", LString key);
           ("operation", LString "GetProducts")] ;;
      ret (nil_slice, false, None)
  | Some e =>
      Log [("cache", LString "error"); ("operation", LString "GetProducts");
           ("key", LString key); ("error", LError e)] ;;
      ret (nil_slice, false, Some e)
  | None =>
      match Unmarshal (T := slice Sock) val with
      | Fail e =>
          Log [("cache", LString "unmarshal_error");
               ("operation", LString "GetProducts");
               ("key", LString key); ("error", LError e)] ;;
          (* Delete corrupted cache entry *)
          on_client (redis.Del key) ;;
          ret (nil_slice, false, None)
      | Ok products =>
          Log [("cache", LString "hit"); ("key", LString key);
               ("operation", LString "GetProducts");
               ("count", LInt (len products))] ;;
          ret (products, true, None)
      end
  end.

Definition SetProducts (tags : slice string) (order : string)
    (pageNum pageSize : Z) (products : slice Sock) : M catalogueCache error :=
  let key := productListKey tags order pageNum pageSize in
  match Marshal products with
  | Fail e =>
      Log [("cache", LString "marshal_error");
           ("operation", LString "SetProducts");
           ("key", LString key); ("error", LError e)] ;;
      ret (Some e)
  | Ok data =>
      ttl <- get_ttl ;;
      err <- on_client (redis.Set_ key (ArgBytes data) ttl) ;;
      match err with
      | Some e =>
          Log [("cache", LString "error"); ("operation", LString "SetProducts");
               ("key", LString key); ("error", LError e)] ;;
          ret (Some e)
      | None =>
          Log [("cache", LString "set"); ("key", LString key);
               ("operation", LString "SetProducts");
               ("count", LInt (len products)); ("ttl", LInt ttl)] ;;
          ret None
      end
  end.

(** *** Individual product operations *)

Definition GetProduct (id : string) : M catalogueCache (Sock * bool * error) :=
  let key := productKey id in
  '(val, err) <- on_client (redis.Get key) ;;
  match err with
  | Some redis_Nil =>
      Log [("cache", LString "miss"); ("key", LString key);
           ("operation", LString "GetProduct")] ;;
      ret (Sock_zero, false, None)
  | Some e =>
      Log [("cache", LString "error"); ("operation", LString "GetProduct");
           ("key", LString key); ("error", LError e)] ;;
      ret (Sock_zero, false, Some e)
  | None =>
      match Unmarshal (T := Sock) val with
      | Fail e =>
          Log [("cache", LString "unmarshal_error");
               ("operation", LString "GetProduct");
               ("key", LString key); ("error", LError e)] ;;
          (* Delete corrupted cache entry *)
          on_client (redis.Del key) ;;
          ret (Sock_zero, false, None)
      | Ok product =>
          Log [("cache", LString "hit"); ("key", LString key);
               ("operation", LString "GetProduct");
               ("product_id", LString id)] ;;
          ret (product, true, None)
      end
  end.

Definition SetProduct (id : string) (product : Sock) : M catalogueCache error :=
  let key := productKey id in
  match Marshal product with
  | Fail e =>
      Log [("cache", LString "marshal_error");
           ("operation", LString "SetProduct");
           ("key", LString key); ("error", LError e)] ;;
      ret (Some e)
  | Ok data =>
      ttl <- get_ttl ;;
      err <- on_client (redis.Set_ key (ArgBytes data) ttl) ;;
      match err with
      | Some e =>
          Log [("cache", LString "error"); ("operation", LString "SetProduct");
               ("key", LString key); ("error", LError e)] ;;
          ret (Some e)
      | None =>
          Log [("cache", LString "set"); ("key", LString key);
               ("operation", LString "SetProduct");
               ("product_id", LString id); ("ttl", LInt ttl)] ;;
          ret None
      end
  end.

(** *** Count operations *)

Definition GetCount (tags : slice string) : M catalogueCache (Z * bool * error) :=
  let key := countKey tags in
  '(val, err) <- on_client (redis.Get key) ;;
  match err with
  | Some redis_Nil =>
      Log [("cache", LString "miss"); ("key", LString key);
           ("operation", LString "GetCount")] ;;
      ret (0, false, None)
  | Some e =>
      Log [("cache", LString "error"); ("operation", LString "GetCount");
           ("key", LString key); ("error", LError e)] ;;
      ret (0, false, Some e)
  | None =>
      let '(count, err) := strconv.Atoi val in
      match err with
      | Some e =>
          Log [("cache", LString "parse_error");
               ("operation", LString "GetCount");
               ("key", LString key); ("error", LError e)] ;;
          (* Delete corrupted cache entry *)
          on_client (redis.Del key) ;;
          ret (0, false, None)
      | None =>
          Log [("cache", LString "hit"); ("key", LString key);
               ("operation", LString "GetCount"); ("count", LInt count)] ;;
          ret (count, true, None)
      end
  end.

Definition SetCount (tags : slice string) (count : Z) : M catalogueCache error :=
  let key := countKey tags in
  ttl <- get_ttl ;;
  err <- on_client (redis.Set_ key (ArgInt count) ttl) ;;
  match err with
  | Some e =>
      Log [("cache", LString "error"); ("operation", LString "SetCount");
           ("key", LString key); ("error", LError e)] ;;
      ret (Some e)
  | None =>
      Log [("cache", LString "set"); ("key", LString key);
           ("operation", LString "SetCount");
           ("count", LInt count); ("ttl", LInt ttl)] ;;
      ret None
  end.

(** *** Tags operations *)

Definition GetTags : M catalogueCache (slice string * bool * error) :=
  let key := tagsKey in
  '(val, err) <- on_client (redis.Get key) ;;
  match err with
  | Some redis_Nil =>
      Log [("cache", LString "miss"); ("key", LString key);
           ("operation", LString "GetTags")] ;;
      ret (nil_slice, false, None)
  | Some e =>
      Log [("cache", LString "error"); ("operation", LString "GetTags");
           ("key", LString key); ("error", LError e)] ;;
      ret (nil_slice, false, Some e)
  | None =>
      match Unmarshal (T := slice string) val with
      | Fail e =>
          Log [("cache", LString "unmarshal_error");
               ("operation", LString "GetTags");
               ("key", LString key); ("error", LError e)] ;;
          (* Delete corrupted cache entry *)
          on_client (redis.Del key) ;;
          ret (nil_slice, false, None)
      | Ok tags =>
          Log [("cache", LString "hit"); ("key", LString key);
               ("operation", LString "GetTags"); ("count", LInt (len tags))] ;;
          ret (tags, true, None)
      end
  end.

Definition SetTags (tags : slice string) : M catalogueCache error :=
  let key := tagsKey in
  match Marshal tags with
  | Fail e =>
      Log [("cache", LString "marshal_error");
           ("operation", LString "SetTags");
           ("key", LString key); ("error", LError e)] ;;
      ret (Some e)
  | Ok data =>
      ttl <- get_ttl ;;
      err <- on_client (redis.Set_ key (ArgBytes data) ttl) ;;
      match err with
      | Some e =>
          Log [("cache", LString "error"); ("operation", LString "SetTags");
               ("key", LString key); ("error", LError e)] ;;
          ret (Some e)
      | None =>
          Log [("cache", LString "set"); ("key", LString key);
               ("operation", LString "SetTags");
               ("count", LInt (len tags)); ("ttl", LInt ttl)] ;;
          ret None
      end
  end.

(** [catalogueCache] implements [CatalogueCache]. *)
#[global] Instance catalogueCache_CatalogueCache : CatalogueCache catalogueCache := {
  GetProducts := GetProducts;
  SetProducts := SetProducts;
  GetProduct := GetProduct;
  SetProduct := SetProduct;
  GetCount := GetCount;
  SetCount := SetCount;
  GetTags := GetTags;
  SetTags := SetTags
}.

End Operations.

End cache.

(** ** The process: cache, base service, metrics, logger and goroutines

    [main] builds one base service, one cache and one logger and hands them
    to both the [CachedService] and the [CacheWarmer]; [World] is that
    shared state. The clock is an oracle: the [n]-th reading taken by
    [time.Now()] or [time.Since] is [w_clock n]. Goroutines that were started
    and have not run yet are kept in [w_go]; [w_calls] is the history (most
    recent first) of the calls made into the cache and into the base
    service. *)

Section Process.

Context `{SockType}.

Inductive goroutine : Type :=
| go_SetProducts (tags : slice string) (order : string) (pageNum pageSize : Z)
    (socks : slice Sock)
| go_SetCount (tags : slice string) (count : Z)
| go_SetProduct (id : string) (sock : Sock)
| go_SetTags (tags : slice string)
| go_warmTags
| go_warmProductListings
| go_warmIndividualProducts
| go_WarmCache.

Inductive call : Type :=
| cache_GetProducts (tags : slice string) (order : string) (pageNum pageSize : Z)
| cache_SetProducts (tags : slice string) (order : string) (pageNum pageSize : Z)
    (products : slice Sock)
| cache_GetProduct (id : string)
| cache_SetProduct (id : string) (product : Sock)
| cache_GetCount (tags : slice string)
| cache_SetCount (tags : slice string) (count : Z)
| cache_GetTags
| cache_SetTags (tags : slice string)
| next_List (tags : slice string) (order : string) (pageNum pageSize : Z)
| next_Count (tags : slice string)
| next_Get (id : string)
| next_Tags.

Definition is_cache_Set (c : call) : bool :=
  match c with
  | cache_SetProducts _ _ _ _ _ | cache_SetProduct _ _
  | cache_SetCount _ _ | cache_SetTags _ => true
  | _ => false
  end.

Definition is_next (c : call) : bool :=
  match c with
  | next_List _ _ _ _ | next_Count _ | next_Get _ | next_Tags => true
  | _ => false
  end.

Context {C S : Type}.

Record World : Type := {
  w_clock : nat -> Z;
  w_ticks : nat;
  w_metrics : CacheMetrics;
  w_cache : C;
  w_next : S;
  w_logger : list LogEntry;
  w_go : list goroutine;
  w_calls : list call
}.

(** [time.Now()] *)
Definition time_Now : M World Z :=
  fun w =>
    (w_clock w (w_ticks w),
     {| w_clock := w_clock w; w_ticks := Datatypes.S (w_ticks w);
        w_metrics := w_metrics w; w_cache := w_cache w; w_next := w_next w;
        w_logger := w_logger w; w_go := w_go w; w_calls := w_calls w |}).

(** [time.Since(start)] *)
Definition time_Since (start : Z) : M World Z :=
  now <- time_Now ;; ret (now - start).

Definition Log (e : LogEntry) : M World unit :=
  modify (fun w =>
    {| w_clock := w_clock w; w_ticks := w_ticks w;
       w_metrics := w_metrics w; w_cache := w_cache w; w_next := w_next w;
       w_logger := e :: w_logger w; w_go := w_go w; w_calls := w_calls w |}).

(** A method of the metrics recorder. *)
Definition on_metrics (f : CacheMetrics -> CacheMetrics) : M World unit :=
  modify (fun w =>
    {| w_clock := w_clock w; w_ticks := w_ticks w;
       w_metrics := f (w_metrics w); w_cache := w_cache w; w_next := w_next w;
       w_logger := w_logger w; w_go := w_go w; w_calls := w_calls w |}).

(** A method of the cache, noted in the call history. *)
Definition on_cache {A} (c : call) (m : M C A) : M World A :=
  fun w =>
    let (a, c') := m (w_cache w) in
    (a, {| w_clock := w_clock w; w_ticks := w_ticks w;
           w_metrics := w_metrics w; w_cache := c'; w_next := w_next w;
           w_logger := w_logger w; w_go := w_go w; w_calls := c :: w_calls w |}).

(** A method of the base service, noted in the call history. *)
Definition on_next {A} (c : call) (m : M S A) : M World A :=
  fun w =>
    let (a, s') := m (w_next w) in
    (a, {| w_clock := w_clock w; w_ticks := w_ticks w;
           w_metrics := w_metrics w; w_cache := w_cache w; w_next := s';
           w_logger := w_logger w; w_go := w_go w; w_calls := c :: w_calls w |}).

(** The [go] statement. *)
Definition go (g : goroutine) : M World unit :=
  modify (fun w =>
    {| w_clock := w_clock w; w_ticks := w_ticks w;
       w_metrics := w_metrics w; w_cache := w_cache w; w_next := w_next w;
       w_logger := w_logger w; w_go := w_go w ++ [g]; w_calls := w_calls w |}).

(** [for _, x := range l { body(x) }] *)
Fixpoint for_each {St A} (l : list A) (body : A -> M St unit) : M St unit :=
  match l with
  | [] => ret tt
  | x :: rest => body x ;; for_each rest body
  end.

End Process.

Arguments World {_} C S.

(** ** The coordinator ([CachedService]) *)

Module CachedService.

Section Methods.

Context `{SockType} {C S : Type} `{!CatalogueCache C} `{!Service S}.

Abbreviation World := (World C S).

Definition List (tags : slice string) (order : string) (pageNum pageSize : Z)
    : M World (slice Sock * error) :=
  start <- time_Now ;;
  (* Try to get from cache first *)
  '(socks, found, err) <-
    on_cache (cache_GetProducts tags order pageNum pageSize)
             (GetProducts tags order pageNum pageSize) ;;
  let database : M World (slice Sock * error) :=
    (* Cache miss - get from database *)
    Log [("cache_hit", LString "false"); ("operation", LString "List");
         ("source", LString "database")] ;;
    '(socks, err) <-
      on_next (next_List tags order pageNum pageSize)
              (List tags order pageNum pageSize) ;;
    duration <- time_Since start ;;
    match err with
    | Some e =>
        on_metrics (RecordCacheMiss "List" duration) ;;
        Log [("operation", LString "List"); ("error", LError e);
             ("duration_ms", LInt (Milliseconds duration))] ;;
        ret (socks, err)
    | None =>
        on_metrics (RecordCacheMiss "List" duration) ;;
        (* Cache the result (fire-and-forget) *)
        go (go_SetProducts tags order pageNum pageSize socks) ;;
        Log [("operation", LString "List"); ("source", LString "database");
             ("cached", LString "true"); ("count", LInt (len socks));
             ("duration_ms", LInt (Milliseconds duration))] ;;
        ret (socks, None)
    end in
  match err with
  | Some e =>
      Log [("cache_error", LError e); ("operation", LString "List");
           ("fallback", LString "database")] ;;
      since <- time_Since start ;;
      on_metrics (RecordCacheError "List" since) ;;
      (* On cache error, fall back to database *)
      database
  | None =>
      if found then
        duration <- time_Since start ;;
        on_metrics (RecordCacheHit "List" duration) ;;
        Log [("cache_hit", LString "true"); ("operation", LString "List");
             ("tags", LStrings tags); ("order", LString order);
             ("pageNum", LInt pageNum); ("pageSize", LInt pageSize);
             ("count", LInt (len socks));
             ("duration_ms", LInt (Milliseconds duration))] ;;
        ret (socks, None)
      else database
  end.

Definition Count (tags : slice string) : M World (Z * error) :=
  start <- time_Now ;;
  (* Try to get from cache first *)
  '(count, found, err) <- on_cache (cache_GetCount tags) (GetCount tags) ;;
  let database : M World (Z * error) :=
    (* Cache miss - get from database *)
    Log [("cache_hit", LString "false"); ("operation", LString "Count");
         ("source", LString "database")] ;;
    '(count, err) <- on_next (next_Count tags) (Count tags) ;;
    duration <- time_Since start ;;
    match err with
    | Some e =>
        on_metrics (RecordCacheMiss "Count" duration) ;;
        Log [("operation", LString "Count"); ("error", LError e);
             ("duration_ms", LInt (Milliseconds duration))] ;;
        ret (count, err)
    | None =>
        on_metrics (RecordCacheMiss "Count" duration) ;;
        (* Cache the result (fire-and-forget) *)
        go (go_SetCount tags count) ;;
        Log [("operation", LString "Count"); ("source", LString "database");
             ("cached", LString "true"); ("count", LInt count);
             ("duration_ms", LInt (Milliseconds duration))] ;;
        ret (count, None)
    end in
  match err with
  | Some e =>
      Log [("cache_error", LError e); ("operation", LString "Count");
           ("fallback", LString "database")] ;;
      since <- time_Since start ;;
      on_metrics (RecordCacheError "Count" since) ;;
      (* On cache error, fall back to database *)
      database
  | None =>
      if found then
        duration <- time_Since start ;;
        on_metrics (RecordCacheHit "Count" duration) ;;
        Log [("cache_hit", LString "true"); ("operation", LString "Count");
             ("tags", LStrings tags); ("count", LInt count);
             ("duration_ms", LInt (Milliseconds duration))] ;;
        ret (count, None)
      else database
  end.

Definition Get (id : string) : M World (Sock * error) :=
  start <- time_Now ;;
  (* Try to get from cache first *)
  '(sock, found, err) <- on_cache (cache_GetProduct id) (GetProduct id) ;;
  let database : M World (Sock * error) :=
    (* Cache miss - get from database *)
    Log [("cache_hit", LString "false"); ("operation", LString "Get");
         ("id", LString id); ("source", LString "database")] ;;
    '(sock, err) <- on_next (next_Get id) (Get id) ;;
    duration <- time_Since start ;;
    match err with
    | Some e =>
        on_metrics (RecordCacheMiss "Get" duration) ;;
        Log [("operation", LString "Get"); ("id", LString id);
             ("error", LError e);
             ("duration_ms", LInt (Milliseconds duration))] ;;
        ret (sock, err)
    | None =>
        on_metrics (RecordCacheMiss "Get" duration) ;;
        (* Cache the result (fire-and-forget) *)
        go (go_SetProduct id sock) ;;
        Log [("operation", LString "Get"); ("id", LString id);
             ("source", LString "database"); ("cached", LString "true");
             ("product_name", LString (Name sock));
             ("duration_ms", LInt (Milliseconds duration))] ;;
        ret (sock, None)
    end in
  match err with
  | Some e =>
      Log [("cache_error", LError e); ("operation", LString "Get");
           ("id", LString id); ("fallback", LString "database")] ;;
      since <- time_Since start ;;
      on_metrics (RecordCacheError "Get" since) ;;
      (* On cache error, fall back to database *)
      database
  | None =>
      if found then
        duration <- time_Since start ;;
        on_metrics (RecordCacheHit "Get" duration) ;;
        Log [("cache_hit", LString "true"); ("operation", LString "Get");
             ("id", LString id); ("product_name", LString (Name sock));
             ("duration_ms", LInt (Milliseconds duration))] ;;
        ret (sock, None)
      else database
  end.

Definition Tags : M World (slice string * error) :=
  start <- time_Now ;;
  (* Try to get from cache first *)
  '(tags, found, err) <- on_cache cache_GetTags GetTags ;;
  let database : M World (slice string * error) :=
    (* Cache miss - get from database *)
    Log [("cache_hit", LString "false"); ("operation", LString "Tags");
         ("source", LString "database")] ;;
    '(tags, err) <- on_next next_Tags Tags ;;
    duration <- time_Since start ;;
    match err with
    | Some e =>
        on_metrics (RecordCacheMiss "Tags" duration) ;;
        Log [("operation", LString "Tags"); ("error", LError e);
             ("duration_ms", LInt (Milliseconds duration))] ;;
        ret (tags, err)
    | None =>
        on_metrics (RecordCacheMiss "Tags" duration) ;;
        (* Cache the result (fire-and-forget) *)
        go (go_SetTags tags) ;;
        Log [("operation", LString "Tags"); ("source", LString "database");
             ("cached", LString "true"); ("count", LInt (len tags));
             ("duration_ms", LInt (Milliseconds duration))] ;;
        ret (tags, None)
    end in
  match err with
  | Some e =>
      Log [("cache_error", LError e); ("operation", LString "Tags");
           ("fallback", LString "database")] ;;
      since <- time_Since start ;;
      on_metrics (RecordCacheError "Tags" since) ;;
      (* On cache error, fall back to database *)
      database
  | None =>
      if found then
        duration <- time_Since start ;;
        on_metrics (RecordCacheHit "Tags" duration) ;;
        Log [("cache_hit", LString "true"); ("operation", LString "Tags");
             ("count", LInt (len tags));
             ("duration_ms", LInt (Milliseconds duration))] ;;
        ret (tags, None)
      else database
  end.

(** The bodies of the goroutines that write a result back to the cache. *)
Definition write_back (g : goroutine) : M World unit :=
  match g with
  | go_SetProducts tags order pageNum pageSize socks =>
      cacheErr <- on_cache (cache_SetProducts tags order pageNum pageSize socks)
                           (SetProducts tags order pageNum pageSize socks) ;;
      match cacheErr with
      | Some e => Log [("cache_set_error", LError e); ("operation", LString "List")]
      | None => ret tt
      end
  | go_SetCount tags count =>
      cacheErr <- on_cache (cache_SetCount tags count) (SetCount tags count) ;;
      match cacheErr with
      | Some e => Log [("cache_set_error", LError e); ("operation", LString "Count")]
      | None => ret tt
      end
  | go_SetProduct id sock =>
      cacheErr <- on_cache (cache_SetProduct id sock) (SetProduct id sock) ;;
      match cacheErr with
      | Some e => Log [("cache_set_error", LError e); ("operation", LString "Get");
                       ("id", LString id)]
      | None => ret tt
      end
  | go_SetTags tags =>
      cacheErr <- on_cache (cache_SetTags tags) (SetTags tags) ;;
      match cacheErr with
      | Some e => Log [("cache_set_error", LError e); ("operation", LString "Tags")]
      | None => ret tt
      end
  | _ => ret tt
  end.

End Methods.

End CachedService.

(** ** The cache warmer ([CacheWarmer]) *)

Module CacheWarmer.

(** An entry of the table of listings to warm. *)
Record listing : Type := {
  l_tags : slice string;
  l_order : string;
  l_pageNum : Z;
  l_pageSize : Z
}.

(** Common listing patterns to warm *)
Definition listings : list listing :=
  [ {| l_tags := Slice []; l_order := ""; l_pageNum := 1; l_pageSize := 6 |};
    {| l_tags := Slice []; l_order := ""; l_pageNum := 1; l_pageSize := 12 |};
    {| l_tags := Slice []; l_order := "price"; l_pageNum := 1; l_pageSize := 6 |};
    {| l_tags := Slice []; l_order := "name"; l_pageNum := 1; l_pageSize := 6 |};
    {| l_tags := Slice ["brown"]; l_order := ""; l_pageNum := 1; l_pageSize := 6 |};
    {| l_tags := Slice ["blue"]; l_order := ""; l_pageNum := 1; l_pageSize := 6 |};
    {| l_tags := Slice ["geek"]; l_order := ""; l_pageNum := 1; l_pageSize := 6 |} ].

Section Methods.

Context `{SockType} {C S : Type} `{!CatalogueCache C} `{!Service S}.

Abbreviation World := (World C S).

Definition warmTags : M World unit :=
  start <- time_Now ;;
  '(tags, err) <- on_next next_Tags Tags ;;
  match err with
  | Some e =>
      Log [("cache_warming", LString "tags_error"); ("error", LError e)]
  | None =>
      err <- on_cache (cache_SetTags tags) (SetTags tags) ;;
      match err with
      | Some e =>
          Log [("cache_warming", LString "tags_cache_error"); ("error", LError e)]
      | None =>
          since <- time_Since start ;;
          Log [("cache_warming", LString "tags_completed");
               ("count", LInt (len tags));
               ("duration_ms", LInt (Milliseconds since))]
      end
  end.

(** The function literal that [warmProductListings] calls on each entry
    of [listings]; its [return]s leave the literal, not the loop. *)
Definition warmListing (l : listing) : M World unit :=
  listStart <- time_Now ;;
  '(products, err) <-
    on_next (next_List (l_tags l) (l_order l) (l_pageNum l) (l_pageSize l))
            (List (l_tags l) (l_order l) (l_pageNum l) (l_pageSize l)) ;;
  match err with
  | Some e =>
      Log [("cache_warming", LString "listing_error"); ("error", LError e);
           ("tags", LStrings (l_tags l))]
  | None =>
      err <-
        on_cache (cache_SetProducts (l_tags l) (l_order l) (l_pageNum l)
                    (l_pageSize l) products)
                 (SetProducts (l_tags l) (l_order l) (l_pageNum l)
                    (l_pageSize l) products) ;;
      match err with
      | Some e =>
          Log [("cache_warming", LString "listing_cache_error");
               ("error", LError e); ("tags", LStrings (l_tags l))]
      | None =>
          (* Also warm the count for this filter *)
          '(count, err) <- on_next (next_Count (l_tags l)) (Count (l_tags l)) ;;
          match err with
          | None =>
              on_cache (cache_SetCount (l_tags l) count)
                       (SetCount (l_tags l) count) ;;
              ret tt
          | Some _ => ret tt
          end ;;
          since <- time_Since listStart ;;
          Log [("cache_warming", LString "listing_completed");
               ("tags", LStrings (l_tags l)); ("order", LString (l_order l));
               ("pageNum", LInt (l_pageNum l)); ("pageSize", LInt (l_pageSize l));
               ("count", LInt (len products));
               ("duration_ms", LInt (Milliseconds since))]
      end
  end.

Definition warmProductListings : M World unit :=
  start <- time_Now ;;
  for_each listings warmListing ;;
  since <- time_Since start ;;
  Log [("cache_warming", LString "listings_completed");
       ("duration_ms", LInt (Milliseconds since))].

(** The body of the loop of [warmIndividualProducts]; the result is the
    new value of [warmed]. *)
Definition warmProduct (product : Sock) (warmed : Z) : M World Z :=
  (* Get full product details to ensure proper caching *)
  '(fullProduct, err) <- on_next (next_Get (ID product)) (Get (ID product)) ;;
  match err with
  | Some e =>
      Log [("cache_warming", LString "product_error"); ("error", LError e);
           ("id", LString (ID product))] ;;
      ret warmed
  | None =>
      err <- on_cache (cache_SetProduct (ID product) fullProduct)
                      (SetProduct (ID product) fullProduct) ;;
      match err with
      | Some e =>
          Log [("cache_warming", LString "product_cache_error");
               ("error", LError e); ("id", LString (ID product))] ;;
          ret warmed
      | None => ret (wrap64 (warmed + 1))
      end
  end.

Fixpoint warmProducts (products : list Sock) (warmed : Z) : M World Z :=
  match products with
  | [] => ret warmed
  | product :: rest =>
      warmed' <- warmProduct product warmed ;;
      warmProducts rest warmed'
  end.

Definition warmIndividualProducts : M World unit :=
  start <- time_Now ;;
  (* Get first page of products to warm individual product cache *)
  '(products, err) <-
    on_next (next_List (Slice []) "" 1 10) (List (Slice []) "" 1 10) ;;
  match err with
  | Some e =>
      Log [("cache_warming", LString "products_list_error"); ("error", LError e)]
  | None =>
      warmed <- warmProducts (elems products) 0 ;;
      since <- time_Since start ;;
      Log [("cache_warming", LString "products_completed");
           ("warmed", LInt warmed); ("total", LInt (len products));
           ("duration_ms", LInt (Milliseconds since))]
  end.

(** [WarmCache] pre-populates the cache with commonly accessed data *)
Definition WarmCache : M World unit :=
  start <- time_Now ;;
  Log [("cache_warming", LString "started")] ;;
  (* Warm tags cache *)
  go go_warmTags ;;
  (* Warm popular product listings *)
  go go_warmProductListings ;;
  (* Warm individual products (first page of all products) *)
  go go_warmIndividualProducts ;;
  since <- time_Since start ;;
  Log [("cache_warming", LString "initiated");
       ("duration_ms", LInt (Milliseconds since))].

(** [WarmCacheAsync] starts cache warming in the background *)
Definition WarmCacheAsync : M World unit := go go_WarmCache.

End Methods.

End CacheWarmer.

(** ** Running goroutines

    A goroutine runs to completion once it is picked; [run_nth n] picks the
    [n]-th pending one. *)

Section Scheduler.

Context `{SockType} {C S : Type} `{!CatalogueCache C} `{!Service S}.

Definition run_goroutine (g : goroutine) : M (World C S) unit :=
  match g with
  | go_warmTags => CacheWarmer.warmTags
  | go_warmProductListings => CacheWarmer.warmProductListings
  | go_warmIndividualProducts => CacheWarmer.warmIndividualProducts
  | go_WarmCache => CacheWarmer.WarmCache
  | _ => CachedService.write_back g
  end.

Definition take_goroutine (n : nat) : M (World C S) (option goroutine) :=
  fun w =>
    (w_go w !! n,
     {| w_clock := w_clock w; w_ticks := w_ticks w;
        w_metrics := w_metrics w; w_cache := w_cache w; w_next := w_next w;
        w_logger := w_logger w; w_go := take n (w_go w) ++ drop (Datatypes.S n) (w_go w);
        w_calls := w_calls w |}).

Definition run_nth (n : nat) : M (World C S) unit :=
  g <- take_goroutine n ;;
  match g with
  | Some g => run_goroutine g
  | None => ret tt
  end.

(** Runs the pending goroutines picked by [schedule], one after the other. *)
Definition run_schedule (schedule : list nat) : M (World C S) unit :=
  for_each schedule run_nth.

End Scheduler.

(** ** [encoding/json] on [[]string]

    The encoding that [json.Marshal] produces for a slice of strings and the
    decoding that [json.Unmarshal] performs into a nil [[]string]. Strings
    are coerced to valid UTF-8 on the way out: each byte that does not start
    a well-formed UTF-8 sequence is written as the escape of U+FFFD. (Which escape is
    chosen for the control characters differs between Go releases; every
    choice decodes to the same byte. The one below is that of Go 1.21, the
    release named in go.mod.) *)

Definition byte_val (c : ascii) : Z := Z.of_N (N_of_ascii c).
Definition byte_of (z : Z) : ascii := ascii_of_N (Z.to_N z).

Fixpoint drop_bytes (n : nat) (s : string) : string :=
  match n, s with
  | O, _ => s
  | Datatypes.S n', String _ rest => drop_bytes n' rest
  | Datatypes.S _, EmptyString => EmptyString
  end.

Fixpoint take_bytes (n : nat) (s : string) : string :=
  match n, s with
  | O, _ => EmptyString
  | Datatypes.S n', String c rest => String c (take_bytes n' rest)
  | Datatypes.S _, EmptyString => EmptyString
  end.

Module utf8.

Definition RuneError : Z := 65533.
Definition MaxRune : Z := 1114111.

Definition between (lo x hi : Z) : bool := (lo <=? x) && (x <=? hi).

(** [utf8.DecodeRuneInString(s)]: the rune that [s] starts with and its
    width in bytes; [(RuneError, 1)] when [s] starts with an invalid
    sequence. *)
Definition DecodeRune (s : string) : Z * nat :=
  match s with
  | EmptyString => (RuneError, 0%nat)
  | String c0 r0 =>
      let b0 := byte_val c0 in
      if b0 <? 128 then (b0, 1%nat)
      else if between 194 b0 223 then
        match r0 with
        | String c1 _ =>
            let b1 := byte_val c1 in
            if between 128 b1 191
            then ((b0 mod 32) * 64 + b1 mod 64, 2%nat)
            else (RuneError, 1%nat)
        | _ => (RuneError, 1%nat)
        end
      else if between 224 b0 239 then
        match r0 with
        | String c1 (String c2 _) =>
            let b1 := byte_val c1 in
            let b2 := byte_val c2 in
            let lo := if b0 =? 224 then 160 else 128 in
            let hi := if b0 =? 237 then 159 else 191 in
            if between lo b1 hi && between 128 b2 191
            then ((b0 mod 16) * 4096 + (b1 mod 64) * 64 + b2 mod 64, 3%nat)
            else (RuneError, 1%nat)
        | _ => (RuneError, 1%nat)
        end
      else if between 240 b0 244 then
        match r0 with
        | String c1 (String c2 (String c3 _)) =>
            let b1 := byte_val c1 in
            let b2 := byte_val c2 in
            let b3 := byte_val c3 in
            let lo := if b0 =? 240 then 144 else 128 in
            let hi := if b0 =? 244 then 143 else 191 in
            if between lo b1 hi && between 128 b2 191 && between 128 b3 191
            then ((b0 mod 8) * 262144 + (b1 mod 64) * 4096
                  + (b2 mod 64) * 64 + b3 mod 64, 4%nat)
            else (RuneError, 1%nat)
        | _ => (RuneError, 1%nat)
        end
      else (RuneError, 1%nat)
  end.

Definition encode3 (r : Z) : string :=
  String (byte_of (224 + r / 4096))
    (String (byte_of (128 + (r / 64) mod 64))
       (String (byte_of (128 + r mod 64)) EmptyString)).

(** The bytes that [utf8.EncodeRune] writes for [r]. *)
Definition EncodeRune (r : Z) : string :=
  if between 0 r 127 then String (byte_of r) EmptyString
  else if between 0 r 2047 then
    String (byte_of (192 + r / 64))
      (String (byte_of (128 + r mod 64)) EmptyString)
  else if (r <? 0) || (MaxRune <? r) || between 55296 r 57343
  then encode3 RuneError
  else if r <=? 65535 then encode3 r
  else
    String (byte_of (240 + r / 262144))
      (String (byte_of (128 + (r / 4096) mod 64))
         (String (byte_of (128 + (r / 64) mod 64))
            (String (byte_of (128 + r mod 64)) EmptyString))).

(** [utf8.ValidString(s)] *)
Fixpoint ValidString_fuel (fuel : nat) (s : string) : bool :=
  match fuel with
  | O => true
  | Datatypes.S fuel' =>
      match s with
      | EmptyString => true
      | String _ _ =>
          let '(r, size) := DecodeRune s in
          if (r =? RuneError) && (size =? 1)%nat then false
          else ValidString_fuel fuel' (drop_bytes size s)
      end
  end.

Definition ValidString (s : string) : bool :=
  ValidString_fuel (String.length s) s.

End utf8.

Module utf16.

Definition IsSurrogate (r : Z) : bool := (55296 <=? r) && (r <? 57344).

(** [utf16.DecodeRune(r1, r2)] *)
Definition DecodeRune (r1 r2 : Z) : Z :=
  if (55296 <=? r1) && (r1 <? 56320) && (56320 <=? r2) && (r2 <? 57344)
  then (r1 - 55296) * 1024 + (r2 - 56320) + 65536
  else utf8.RuneError.

End utf16.

Module json.

Definition hex (n : Z) : ascii :=
  if n <? 10 then byte_of (48 + n) else byte_of (87 + n).

Definition hexval (c : ascii) : option Z :=
  let b := byte_val c in
  if utf8.between 48 b 57 then Some (b - 48)
  else if utf8.between 97 b 102 then Some (b - 87)
  else if utf8.between 65 b 70 then Some (b - 55)
  else None.

(** The bytes below 128 that are written without an escape when HTML
    escaping is on, as it is in [json.Marshal]. *)
Definition htmlSafe (b : Z) : bool :=
  (32 <=? b) && negb (b =? 34) && negb (b =? 92)
  && negb (b =? 60) && negb (b =? 62) && negb (b =? 38).

Definition escape (b : Z) : string :=
  if (b =? 92) || (b =? 34) then String "\" (String (byte_of b) EmptyString)
  else if b =? 10 then "\n"
  else if b =? 13 then "\r"
  else if b =? 9 then "\t"
  else "\u00" +:+ String (hex (b / 16)) (String (hex (b mod 16)) EmptyString).

(** The escape of U+FFFD, written for a byte that is not valid UTF-8. *)
Definition replacement : string := "\u" +:+ "fffd".

(** What the encoder writes between the quotes for [s]. *)
Fixpoint appendString (fuel : nat) (s : string) : string :=
  match fuel with
  | O => EmptyString
  | Datatypes.S fuel' =>
      match s with
      | EmptyString => EmptyString
      | String c rest =>
          let b := byte_val c in
          if b <? 128 then
            if htmlSafe b then String c (appendString fuel' rest)
            else escape b +:+ appendString fuel' rest
          else
            let '(r, size) := utf8.DecodeRune s in
            if (r =? utf8.RuneError) && (size =? 1)%nat
            then replacement +:+ appendString fuel' rest
            else if (r =? 8232) || (r =? 8233)
            then "\u202" +:+ String (hex (r mod 16)) (appendString fuel' (drop_bytes size s))
            else take_bytes size s +:+ appendString fuel' (drop_bytes size s)
      end
  end.

Definition quote : ascii := ascii_of_nat 34.

Definition encodeString (s : string) : string :=
  String quote (appendString (String.length s) s +:+ String quote EmptyString).

Definition Marshal_strings (v : slice string) : result string :=
  match v with
  | nil_slice => Ok "null"
  | Slice l => Ok ("[" +:+ strings.Join (map encodeString l) "," +:+ "]")
  end.

Definition is_space (c : ascii) : bool :=
  let b := byte_val c in (b =? 32) || (b =? 9) || (b =? 13) || (b =? 10).

Fixpoint skip_space (s : string) : string :=
  match s with
  | EmptyString => EmptyString
  | String c rest => if is_space c then skip_space rest else s
  end.

(** Four hexadecimal digits. *)
Definition getu4 (s : string) : option (Z * string) :=
  match s with
  | String a (String b (String c (String d rest))) =>
      match hexval a, hexval b, hexval c, hexval d with
      | Some a, Some b, Some c, Some d =>
          Some (((a * 16 + b) * 16 + c) * 16 + d, rest)
      | _, _, _, _ => None
      end
  | _ => None
  end.

Definition simple_escape (e : ascii) : option ascii :=
  let b := byte_val e in
  if (b =? 34) || (b =? 92) || (b =? 47) then Some e
  else if b =? 98 then Some (byte_of 8)
  else if b =? 102 then Some (byte_of 12)
  else if b =? 110 then Some (byte_of 10)
  else if b =? 114 then Some (byte_of 13)
  else if b =? 116 then Some (byte_of 9)
  else None.

Definition emit (out : string) (r : option (string * string))
    : option (string * string) :=
  match r with
  | Some (s, after) => Some (out +:+ s, after)
  | None => None
  end.

(** Decodes a string literal whose opening quote has been read: the
    decoded string and the input after the closing quote. *)
Fixpoint unquote (fuel : nat) (s : string) : option (string * string) :=
  match fuel with
  | O => None
  | Datatypes.S fuel' =>
      match s with
      | EmptyString => None
      | String c rest =>
          let b := byte_val c in
          if b =? 34 then Some (EmptyString, rest)
          else if b =? 92 then
            match rest with
            | EmptyString => None
            | String e rest' =>
                if byte_val e =? 117 then
                  match getu4 rest' with
                  | None => None
                  | Some (rr, rest'') =>
                      if utf16.IsSurrogate rr then
                        let second :=
                          match rest'' with
                          | String c1 (String c2 r2) =>
                              if (byte_val c1 =? 92) && (byte_val c2 =? 117)
                              then getu4 r2 else None
                          | _ => None
                          end in
                        match second with
                        | Some (rr1, rest3) =>
                            let dec := utf16.DecodeRune rr rr1 in
                            if dec =? utf8.RuneError
                            then emit (utf8.EncodeRune utf8.RuneError)
                                      (unquote fuel' rest'')
                            else emit (utf8.EncodeRune dec) (unquote fuel' rest3)
                        | None =>
                            emit (utf8.EncodeRune utf8.RuneError)
                                 (unquote fuel' rest'')
                        end
                      else emit (utf8.EncodeRune rr) (unquote fuel' rest'')
                  end
                else
                  match simple_escape e with
                  | Some x => emit (String x EmptyString) (unquote fuel' rest')
                  | None => None
                  end
            end
          else if b <? 32 then None
          else if b <? 128 then emit (String c EmptyString) (unquote fuel' rest)
          else
            let '(rr, size) := utf8.DecodeRune s in
            emit (utf8.EncodeRune rr) (unquote fuel' (drop_bytes size s))
      end
  end.

(** An element of the array: a string literal, or [null], which leaves
    the element at its zero value. *)
Definition parse_elem (s : string) : option (string * string) :=
  match s with
  | String c r =>
      if byte_val c =? 34 then unquote (Datatypes.S (String.length r)) r
      else
        match s with
        | String "n" (String "u" (String "l" (String "l" r'))) =>
            Some (EmptyString, r')
        | _ => None
        end
  | EmptyString => None
  end.

(** The elements of an array from the first one on, up to the closing
    bracket. *)
Fixpoint parse_elems (fuel : nat) (s : string) : option (list string * string) :=
  match fuel with
  | O => None
  | Datatypes.S fuel' =>
      match parse_elem s with
      | None => None
      | Some (x, r) =>
          match skip_space r with
          | String c r' =>
              if byte_val c =? 44 then
                match parse_elems fuel' (skip_space r') with
                | Some (xs, after) => Some (x :: xs, after)
                | None => None
                end
              else if byte_val c =? 93 then Some ([x], r')
              else None
          | EmptyString => None
          end
      end
  end.

Definition bad_input : err :=
  errorString "json: cannot unmarshal input into Go value of type []string".

Definition at_end (s : string) (v : slice string) : result (slice string) :=
  match skip_space s with
  | EmptyString => Ok v
  | String _ _ => Fail bad_input
  end.

Definition Unmarshal_strings (data : string) : result (slice string) :=
  match skip_space data with
  | String "n" (String "u" (String "l" (String "l" r))) => at_end r nil_slice
  | String "[" r =>
      match skip_space r with
      | String "]" r' => at_end r' (Slice [])
      | r1 =>
          match parse_elems (Datatypes.S (String.length r1)) r1 with
          | Some (xs, after) => at_end after (Slice xs)
          | None => Fail bad_input
          end
      end
  | _ => Fail bad_input
  end.

#[global] Instance strings_JSON : JSON (slice string) := {
  Marshal := Marshal_strings;
  Unmarshal := Unmarshal_strings
}.

End json.

(** The tags lists that [encoding/json] represents as they are: every
    string is valid UTF-8. *)
Definition valid_tags (tags : slice string) : Prop :=
  Forall (fun s => utf8.ValidString s = true) (elems tags).

(** ** Vocabulary of the statements below *)

(** The tags part of a list or count key. *)
Definition tags_or_all (tags : slice string) : string :=
  match strings.Join (elems tags) "," with
  | EmptyString => "all"
  | String c s => String c s
  end.

(** Tags that the key derivation keeps apart: no tag holds the separator
    [,], and the list is neither [[""]] nor [["all"]], which are written like
    the empty list. *)
Definition no_comma (t : string) : Prop := strings.ContainsByte t "," = false.

Definition plain_tags (tags : slice string) : Prop :=
  Forall no_comma (elems tags)
  /\ elems tags <> [""] /\ elems tags <> ["all"].

(** A sort order that does not hold the field separator [:]. *)
Definition plain_order (order : string) : Prop :=
  strings.ContainsByte order ":" = false.

(** Counting and summing over a sequence of recorded calls. *)
Definition is_hit (c : record_call) : bool :=
  match c with Hit _ _ => true | _ => false end.

Definition is_miss (c : record_call) : bool :=
  match c with Miss _ _ => true | _ => false end.

Definition is_error (c : record_call) : bool :=
  match c with Error _ _ => true | _ => false end.

Definition duration_of (c : record_call) : Z :=
  match c with Hit _ d | Miss _ d | Error _ d => d end.

Definition operation_of (c : record_call) : string :=
  match c with Hit op _ | Miss op _ | Error op _ => op end.

Fixpoint count_calls (p : record_call -> bool) (calls : list record_call) : Z :=
  match calls with
  | [] => 0
  | c :: rest => (if p c then 1 else 0) + count_calls p rest
  end.

Fixpoint sum_durations (p : record_call -> bool) (calls : list record_call) : Z :=
  match calls with
  | [] => 0
  | c :: rest => (if p c then duration_of c else 0) + sum_durations p rest
  end.

(** The free model of the [float64] operations: an expression records how
    it was computed. *)
Inductive float_expr : Type :=
| FInt (i : Z)
| FDiv (x y : float_expr)
| FMul (x y : float_expr).

Definition float_expr_Float64 : Float64 :=
  {| float64 := float_expr; float64_of_int := FInt;
     float64_div := FDiv; float64_mul := FMul |}.

Definition example_calls : list record_call :=
  [Hit "List" 2000000; Miss "Get" 40000000; Error "Tags" 55000000;
   Hit "List" 1000000; Hit "Count" 3000000].

(** The four read operations of the coordinator, as one family. *)
Inductive read : Type :=
| ReadList (tags : slice string) (order : string) (pageNum pageSize : Z)
| ReadCount (tags : slice string)
| ReadGet (id : string)
| ReadTags.

Definition read_name (r : read) : string :=
  match r with
  | ReadList _ _ _ _ => "List"
  | ReadCount _ => "Count"
  | ReadGet _ => "Get"
  | ReadTags => "Tags"
  end.

(** The cache key that a read looks up. *)
Definition read_key (r : read) : string :=
  match r with
  | ReadList tags order pageNum pageSize => productListKey tags order pageNum pageSize
  | ReadCount tags => countKey tags
  | ReadGet id => productKey id
  | ReadTags => tagsKey
  end.

Section Reads.

Context `{SockType} {C S : Type} `{!CatalogueCache C} `{!Service S}.

Definition value_of (r : read) : Type :=
  match r with
  | ReadList _ _ _ _ => slice Sock
  | ReadCount _ => Z
  | ReadGet _ => Sock
  | ReadTags => slice string
  end.

(** The coordinator's method for [r]. *)
Definition read_through (r : read) : M (World C S) (value_of r * error) :=
  match r with
  | ReadList tags order pageNum pageSize =>
      CachedService.List tags order pageNum pageSize
  | ReadCount tags => CachedService.Count tags
  | ReadGet id => CachedService.Get id
  | ReadTags => CachedService.Tags
  end.

(** The cache's Get method for [r]. *)
Definition cache_lookup (r : read) : M C (value_of r * bool * error) :=
  match r with
  | ReadList tags order pageNum pageSize => GetProducts tags order pageNum pageSize
  | ReadCount tags => GetCount tags
  | ReadGet id => GetProduct id
  | ReadTags => GetTags
  end.

(** The method of the authoritative service for [r]. *)
Definition authoritative (r : read) : M S (value_of r * error) :=
  match r with
  | ReadList tags order pageNum pageSize => List tags order pageNum pageSize
  | ReadCount tags => Count tags
  | ReadGet id => Get id
  | ReadTags => Tags
  end.

Definition lookup_call (r : read) : call :=
  match r with
  | ReadList tags order pageNum pageSize => cache_GetProducts tags order pageNum pageSize
  | ReadCount tags => cache_GetCount tags
  | ReadGet id => cache_GetProduct id
  | ReadTags => cache_GetTags
  end.

Definition authoritative_call (r : read) : call :=
  match r with
  | ReadList tags order pageNum pageSize => next_List tags order pageNum pageSize
  | ReadCount tags => next_Count tags
  | ReadGet id => next_Get id
  | ReadTags => next_Tags
  end.

(** The goroutine that writes the value [v] read by [r] back to the cache. *)
Definition write_back_of (r : read) : value_of r -> goroutine :=
  match r with
  | ReadList tags order pageNum pageSize => go_SetProducts tags order pageNum pageSize
  | ReadCount tags => go_SetCount tags
  | ReadGet id => go_SetProduct id
  | ReadTags => go_SetTags
  end.

(** The cache's Set method for [r]. *)
Definition cache_store (r : read) : value_of r -> M C error :=
  match r with
  | ReadList tags order pageNum pageSize => SetProducts tags order pageNum pageSize
  | ReadCount tags => SetCount tags
  | ReadGet id => SetProduct id
  | ReadTags => SetTags
  end.

(** The per-operation counter that a read is counted in. *)
Definition operation_counter (r : read) (m : CacheMetrics) : Z :=
  match r with
  | ReadList _ _ _ _ => listRequests m
  | ReadCount _ => countRequests m
  | ReadGet _ => getRequests m
  | ReadTags => tagsRequests m
  end.

(** The elapsed time measured by the [n]-th clock reading of a request that
    started at [w]. *)
Definition elapsed (w : World C S) (n : nat) : Z :=
  w_clock w (n + w_ticks w)%nat - w_clock w (w_ticks w).

End Reads.

(** A counter that can be incremented [n] times without wrapping around. *)
Definition room_for (n : Z) (counter : Z) : Prop :=
  int64_min <= counter /\ counter + n <= int64_max.

(** The encodings of the Redis-backed cache: what its Set methods store for
    a value and what its Get methods make of the stored bytes. *)
Section Codec.

Context `{SockType}.
Context {json_products : JSON (slice Sock)}.
Context {json_product : JSON Sock}.
Context {json_tags : JSON (slice string)}.

Definition encode (r : read) : value_of r -> result string :=
  match r with
  | ReadList _ _ _ _ => fun v => Marshal v
  | ReadCount _ => fun v => Ok (appendArg (ArgInt v))
  | ReadGet _ => fun v => Marshal v
  | ReadTags => fun v => Marshal v
  end.

Definition decode (r : read) : string -> result (value_of r) :=
  match r with
  | ReadList _ _ _ _ => fun data => Unmarshal data
  | ReadCount _ => fun data =>
      match strconv.Atoi data with
      | (count, None) => Ok count
      | (_, Some e) => Fail e
      end
  | ReadGet _ => fun data => Unmarshal data
  | ReadTags => fun data => Unmarshal data
  end.

(** What a Get method of the cache returns on a miss. *)
Definition zero_value (r : read) : value_of r :=
  match r with
  | ReadList _ _ _ _ => nil_slice
  | ReadCount _ => 0
  | ReadGet _ => Sock_zero
  | ReadTags => nil_slice
  end.

End Codec.

(** Whether the next command sent through the client will be served. *)
Definition next_served (r : redisClient) : Prop :=
  faults r (length (sent r)) = None.

(** ** Fixtures of the examples *)

(** Modelled from the spec: the Catalogue Item, whose declaration ([Sock])
    lies outside the cache layer: an identifier, a display name and tags. *)
Record item : Type := {
  item_id : string;
  item_name : string;
  item_tags : list string
}.

#[global] Instance item_SockType : SockType := {
  Sock := item;
  Sock_zero := {| item_id := ""; item_name := ""; item_tags := [] |};
  ID := item_id;
  Name := item_name
}.

(** A stand-in for the JSON encoding of an item: the array of its
    identifier, its name and its tags. *)
Definition encode_item (i : item) : result string :=
  json.Marshal_strings (Slice (item_id i :: item_name i :: item_tags i)).

Definition decode_item (data : string) : result item :=
  match json.Unmarshal_strings data with
  | Ok (Slice (id :: name :: tags)) =>
      Ok {| item_id := id; item_name := name; item_tags := tags |}
  | Ok _ => Fail json.bad_input
  | Fail e => Fail e
  end.

#[global] Instance item_JSON : JSON item := {
  Marshal := encode_item;
  Unmarshal := decode_item
}.

Fixpoint encode_items (l : list item) : result (list string) :=
  match l with
  | [] => Ok []
  | i :: rest =>
      match encode_item i, encode_items rest with
      | Ok s, Ok ss => Ok (s :: ss)
      | Fail e, _ => Fail e
      | _, Fail e => Fail e
      end
  end.

Fixpoint decode_items (l : list string) : result (list item) :=
  match l with
  | [] => Ok []
  | s :: rest =>
      match decode_item s, decode_items rest with
      | Ok i, Ok rest' => Ok (i :: rest')
      | Fail e, _ => Fail e
      | _, Fail e => Fail e
      end
  end.

(** ... and of a list of items: the array of the encoded items. *)
#[global] Instance items_JSON : JSON (slice item) := {
  Marshal v :=
    match v with
    | nil_slice => Ok "null"
    | Slice l =>
        match encode_items l with
        | Ok ss => json.Marshal_strings (Slice ss)
        | Fail e => Fail e
        end
    end;
  Unmarshal data :=
    match json.Unmarshal_strings data with
    | Ok nil_slice => Ok nil_slice
    | Ok (Slice ss) =>
        match decode_items ss with
        | Ok l => Ok (Slice l)
        | Fail e => Fail e
        end
    | Fail e => Fail e
    end
}.

(** A stub of the catalogue service: it serves a fixed list of items and of
    tags, and its [n]-th call fails when [stub_faults n] says so. *)
Record stub : Type := {
  stub_items : list item;
  stub_tags : list string;
  stub_faults : nat -> option err;
  stub_calls : nat
}.

Definition stub_call {A} (zero : A) (answer : stub -> A * error) : M stub (A * error) :=
  fun s =>
    let s' := {| stub_items := stub_items s; stub_tags := stub_tags s;
                 stub_faults := stub_faults s;
                 stub_calls := Datatypes.S (stub_calls s) |} in
    match stub_faults s (stub_calls s) with
    | Some e => ((zero, Some e), s')
    | None => (answer s, s')
    end.

Definition ErrNotFound : err := errorString "not found".

#[global] Instance stub_Service : Service stub := {
  List tags order pageNum pageSize :=
    stub_call nil_slice
      (fun s => (Slice (take (Z.to_nat pageSize) (stub_items s)), None));
  Count tags :=
    stub_call 0 (fun s => (Z.of_nat (length (stub_items s)), None));
  Get id :=
    stub_call Sock_zero
      (fun s =>
         match find (fun i => String.eqb (item_id i) id) (stub_items s) with
         | Some i => (i, None)
         | None => (Sock_zero, Some ErrNotFound)
         end);
  Tags := stub_call nil_slice (fun s => (Slice (stub_tags s), None))
}.

Definition example_items : list item :=
  [ {| item_id := "a0a4f044"; item_name := "Nerd leg"; item_tags := ["blue"; "skin"] |};
    {| item_id := "808a2de1"; item_name := "Crossed"; item_tags := ["blue"; "red"] |};
    {| item_id := "510a0d7e"; item_name := "SuperSport XL"; item_tags := ["sport"] |} ].

Definition example_stub (faults : nat -> option err) : stub :=
  {| stub_items := example_items; stub_tags := ["blue"; "red"; "skin"; "sport"];
     stub_faults := faults; stub_calls := 0 |}.

Definition healthy : nat -> option err := fun _ => None.

Definition refused : err := errorString "dial tcp: connection refused".

Definition down : nat -> option err := fun _ => Some refused.

Definition example_redis (ks : gmap string string) (faults : nat -> option err)
    : redisClient :=
  {| keyspace := ks; faults := faults; sent := [] |}.

Definition example_world {C S : Type} (c : C) (s : S) : World C S :=
  {| w_clock := fun n => 1000000 * Z.of_nat n; w_ticks := 0;
     w_metrics := NewCacheMetrics; w_cache := c; w_next := s;
     w_logger := []; w_go := []; w_calls := [] |}.

(** The cache is unreachable and the service is healthy. *)
Definition world_cache_down : World catalogueCache stub :=
  example_world (NewCatalogueCache (example_redis ∅ down)) (example_stub healthy).

(** The cache is unreachable and the service fails too. *)
Definition world_all_down : World catalogueCache stub :=
  example_world (NewCatalogueCache (example_redis ∅ down)) (example_stub down).

(** The cache is empty and healthy. *)
Definition world_cold : World catalogueCache stub :=
  example_world (NewCatalogueCache (example_redis ∅ healthy)) (example_stub healthy).

(** A tag that is not valid UTF-8: the single byte 255. *)
Definition invalid_tag : string := String (ascii_of_nat 255) EmptyString.

Definition cold_cache : catalogueCache :=
  NewCatalogueCache (example_redis ∅ healthy).

Definition stored_tags : string :=
  match json.Marshal_strings (Slice ["blue"; "red"]) with
  | Ok data => data
  | Fail _ => ""
  end.

(** The tags are cached; the entry of the unfiltered count is corrupted. *)
Definition world_warm : World catalogueCache stub :=
  example_world
    (NewCatalogueCache
       (example_redis
          (<[tagsKey := stored_tags]> (<[countKey nil_slice := "forty-two"]> ∅))
          healthy))
    (example_stub healthy).

(** Calls of the warmer into the authoritative service. *)
Definition is_next_List `{SockType} (c : call) : bool :=
  match c with next_List _ _ _ _ => true | _ => false end.

Definition is_next_Get `{SockType} (c : call) : bool :=
  match c with next_Get _ => true | _ => false end.

(** The fetch of a listing of the warming table. *)
Definition listing_fetch `{SockType} (l : CacheWarmer.listing) : call :=
  next_List (CacheWarmer.l_tags l) (CacheWarmer.l_order l)
    (CacheWarmer.l_pageNum l) (CacheWarmer.l_pageSize l).

(** The calls among [new], oldest first, that satisfy [p]. *)
Definition in_order `{SockType} (p : call -> bool) (new : list call) : list call :=
  List.filter p (rev new).

(** The service fails on its first call only. *)
Definition first_fails : nat -> option err :=
  fun n => match n with O => Some refused | Datatypes.S _ => None end.

(** The service fails on its second call only. *)
Definition second_fails : nat -> option err :=
  fun n => match n with Datatypes.S O => Some refused | _ => None end.

(** [emits p m xs]: from any world, the calls that running [m] adds to the
    history are, for those that satisfy [p] and oldest first, the calls
    [xs]. *)
Definition emits `{SockType} {C S A : Type} (p : call -> bool)
    (m : M (World C S) A) (xs : list call) : Prop :=
  forall w : World C S,
    exists new, w_calls (snd (m w)) = new ++ w_calls w /\ in_order p new = xs.

(** The cache is empty and healthy; the first call of the service fails. *)
Definition world_first_fails : World catalogueCache stub :=
  example_world cold_cache (example_stub first_fails).

(** The cache is empty and healthy; the second call of the service fails. *)
Definition world_second_fails : World catalogueCache stub :=
  example_world cold_cache (example_stub second_fails).

Definition brown_listing : CacheWarmer.listing :=
  {| CacheWarmer.l_tags := Slice ["brown"]; CacheWarmer.l_order := "";
     CacheWarmer.l_pageNum := 1; CacheWarmer.l_pageSize := 6 |}.

(** ** Cache invalidation ([catalogueCache.InvalidateProduct]) *)

Module invalidation.

Definition InvalidateProduct (id : string) : M catalogueCache error :=
  let key := productKey id in
  err <- cache.on_client (redis.Del key) ;;
  match err with
  | Some e =>
      cache.Log [("cache", LString "error"); ("operation", LString "InvalidateProduct");
                 ("key", LString key); ("error", LError e)] ;;
      ret (Some e)
  | None =>
      cache.Log [("cache", LString "invalidate"); ("key", LString key);
                 ("operation", LString "InvalidateProduct");
                 ("product_id", LString id)] ;;
      ret None
  end.

End invalidation.

(** ** The metrics middleware ([metricsMiddleware])

    It wraps a service, any implementation of the [Service] interface, and
    logs how long each call took; the deferred function runs after the
    wrapped call has returned. The wrapped service is given by its four read
    methods, as actions of the process; the source means the middleware to
    go around the [CachedService]. *)

Record WorldService `{SockType} (C S : Type) : Type := {
  ws_List : slice string -> string -> Z -> Z -> M (World C S) (slice Sock * error);
  ws_Count : slice string -> M (World C S) (Z * error);
  ws_Get : string -> M (World C S) (Sock * error);
  ws_Tags : M (World C S) (slice string * error)
}.

Arguments ws_List {_ C S}.
Arguments ws_Count {_ C S}.
Arguments ws_Get {_ C S}.
Arguments ws_Tags {_ C S}.

Module metricsMiddleware.

Section Methods.

Context `{SockType} {C S : Type}.

Variable next : WorldService C S.

Definition List (tags : slice string) (order : string) (pageNum pageSize : Z)
    : M (World C S) (slice Sock * error) :=
  start <- time_Now ;;
  r <- ws_List next tags order pageNum pageSize ;;
  duration <- time_Since start ;;
  Log [("operation", LString "List");
       ("total_duration_ms", LInt (Milliseconds duration))] ;;
  ret r.

Definition Count (tags : slice string) : M (World C S) (Z * error) :=
  start <- time_Now ;;
  r <- ws_Count next tags ;;
  duration <- time_Since start ;;
  Log [("operation", LString "Count");
       ("total_duration_ms", LInt (Milliseconds duration))] ;;
  ret r.

Definition Get (id : string) : M (World C S) (Sock * error) :=
  start <- time_Now ;;
  r <- ws_Get next id ;;
  duration <- time_Since start ;;
  Log [("operation", LString "Get");
       ("total_duration_ms", LInt (Milliseconds duration))] ;;
  ret r.

Definition Tags : M (World C S) (slice string * error) :=
  start <- time_Now ;;
  r <- ws_Tags next ;;
  duration <- time_Since start ;;
  Log [("operation", LString "Tags");
       ("total_duration_ms", LInt (Milliseconds duration))] ;;
  ret r.

End Methods.

End metricsMiddleware.

(** The [CachedService] as the service that the middleware wraps. *)
Definition cached_service `{SockType} {C S : Type} `{!CatalogueCache C}
    `{!Service S} : WorldService C S :=
  {| ws_List := CachedService.List; ws_Count := CachedService.Count;
     ws_Get := CachedService.Get; ws_Tags := CachedService.Tags |}.

(** ** Further vocabulary *)

Definition is_cache_Get `{SockType} (c : call) : bool :=
  match c with
  | cache_GetProducts _ _ _ _ | cache_GetProduct _
  | cache_GetCount _ | cache_GetTags => true
  | _ => false
  end.

(** The call of the cache's Set method that stores [v] for [r]. *)
Definition store_call `{SockType} (r : read) : value_of r -> call :=
  match r with
  | ReadList tags order pageNum pageSize =>
      cache_SetProducts tags order pageNum pageSize
  | ReadCount tags => cache_SetCount tags
  | ReadGet id => cache_SetProduct id
  | ReadTags => cache_SetTags
  end.

(** What a write-back goroutine logs when its Set method failed with [e]. *)
Definition write_back_failure (r : read) (e : err) : LogEntry :=
  match r with
  | ReadGet id =>
      [("cache_set_error", LError e); ("operation", LString (read_name r));
       ("id", LString id)]
  | _ => [("cache_set_error", LError e); ("operation", LString (read_name r))]
  end.

(** The method of a wrapped service for [r]. *)
Definition wrapped_read `{SockType} {C S : Type} (next : WorldService C S)
    (r : read) : M (World C S) (value_of r * error) :=
  match r with
  | ReadList tags order pageNum pageSize =>
      ws_List next tags order pageNum pageSize
  | ReadCount tags => ws_Count next tags
  | ReadGet id => ws_Get next id
  | ReadTags => ws_Tags next
  end.

(** The middleware's method for [r]. *)
Definition logged_read `{SockType} {C S : Type} (next : WorldService C S)
    (r : read) : M (World C S) (value_of r * error) :=
  match r with
  | ReadList tags order pageNum pageSize =>
      metricsMiddleware.List next tags order pageNum pageSize
  | ReadCount tags => metricsMiddleware.Count next tags
  | ReadGet id => metricsMiddleware.Get next id
  | ReadTags => metricsMiddleware.Tags next
  end.

(** Whether a command is a [SET]. *)
Definition is_SET (c : command) : bool :=
  match c with SET _ _ _ => true | _ => false end.

(** The number of recorded calls made under the operation name [name]. *)
Definition count_operation (name : string) (calls : list record_call) : Z :=
  count_calls (fun c => String.eqb (operation_of c) name) calls.

(** Whether a recorded call names one of the four operations that have a
    counter of their own. *)
Definition known_operation (c : record_call) : bool :=
  String.eqb (operation_of c) "List" || String.eqb (operation_of c) "Get"
  || String.eqb (operation_of c) "Count" || String.eqb (operation_of c) "Tags".

(** [keeps f m]: running [m] leaves the component [f] of the world as it
    was. *)
Definition keeps {C S A B : Type} `{SockType} (f : World C S -> B)
    (m : M (World C S) A) : Prop :=
  forall w : World C S, f (snd (m w)) = f w.

(** A world around the Redis-backed cache in which every command is
    served. *)
Definition always_served (c : catalogueCache) : Prop :=
  forall n : nat, faults (client c) n = None.

(** The letter that follows [catalogue:] in the key of a read. *)
Definition read_key_letter (r : read) : ascii :=
  match r with
  | ReadList _ _ _ _ => "p"
  | ReadCount _ => "c"
  | ReadGet _ => "p"
  | ReadTags => "t"
  end%char.

(** ** Sequences of cache operations *)

Section CacheOps.

Context `{SockType}.
Context {json_products : JSON (slice Sock)}.
Context {json_product : JSON Sock}.
Context {json_tags : JSON (slice string)}.

(** A call of a method of the Redis-backed cache. *)
Inductive cache_op : Type :=
| op_lookup (r : read)
| op_store (r : read) (v : value_of r)
| op_invalidate (id : string).

Definition run_op (o : cache_op) : M catalogueCache unit :=
  match o with
  | op_lookup r => cache_lookup r ;; ret tt
  | op_store r v => cache_store r v ;; ret tt
  | op_invalidate id => invalidation.InvalidateProduct id ;; ret tt
  end.

Definition run_ops (ops : list cache_op) : M catalogueCache unit :=
  for_each ops run_op.

End CacheOps.

(** A key of the [catalogue:] namespace. *)
Definition namespaced (key : string) : Prop :=
  exists rest, key = "catalogue:" +:+ rest.

(** What the command sequence of the cache may hold: a [SET] is on a key of
    the namespace and carries the expiration [t]. *)
Definition good_command (t : Z) (cmd : command) : Prop :=
  match cmd with
  | SET key _ expiration => expiration = t /\ namespaced key
  | _ => True
  end.

(** The invariant of the Redis-backed cache: the stored keys are in the
    namespace, and so are the keys of the [SET]s that were sent, each with
    the expiration of the cache. *)
Definition cache_invariant (c : catalogueCache) : Prop :=
  (forall key val, keyspace (client c) !! key = Some val -> namespaced key)
  /\ Forall (good_command (ttl c)) (sent (client c)).

(** * Properties *)

(** ** Worked examples *)

Example productListKey_first_page :
  productListKey (Slice []) "" 1 6 = "catalogue:products:all:order::page:1:size:6".
Proof. vm_compute. reflexivity. Qed.

Example productListKey_filtered :
  productListKey (Slice ["brown"; "blue"]) "price" 2 12
  = "catalogue:products:brown,blue:order:price:page:2:size:12".
Proof. vm_compute. reflexivity. Qed.

Example countKey_nil : countKey nil_slice = "catalogue:count:all".
Proof. vm_compute. reflexivity. Qed.

Example Atoi_examples :
  strconv.Atoi "-42" = (-42, None) /\ strconv.Atoi "+7" = (7, None)
  /\ strconv.Atoi "007" = (7, None)
  /\ strconv.Atoi "9223372036854775808"
     = (9223372036854775807,
        Some (NumError "Atoi" "9223372036854775808" "value out of range"))
  /\ strconv.Atoi "-9223372036854775809"
     = (-9223372036854775808,
        Some (NumError "Atoi" "-9223372036854775809" "value out of range"))
  /\ strconv.Atoi "99999999999999999999x"
     = (9223372036854775807,
        Some (NumError "Atoi" "99999999999999999999x" "value out of range"))
  /\ strconv.Atoi "9223372036854775808x"
     = (0, Some (NumError "Atoi" "9223372036854775808x" "invalid syntax"))
  /\ strconv.Atoi "-9223372036854775808" = (-9223372036854775808, None)
  /\ strconv.Atoi "" = (0, Some (NumError "Atoi" "" "invalid syntax"))
  /\ strconv.Atoi "-" = (0, Some (NumError "Atoi" "-" "invalid syntax"))
  /\ strconv.Atoi "1 " = (0, Some (NumError "Atoi" "1 " "invalid syntax")).
Proof. vm_compute. repeat split. Qed.

Example FormatInt_examples :
  strconv.FormatInt 0 = "0"
  /\ strconv.FormatInt (-9223372036854775808) = "-9223372036854775808"
  /\ strconv.FormatInt 1024 = "1024" /\ strconv.FormatInt 9 = "9"
  /\ strconv.FormatInt 10 = "10".
Proof. vm_compute. repeat split. Qed.

(** ** Strings *)

Section StringFacts.

Lemma append_nil_l (s : string) : "" +:+ s = s.
Proof. reflexivity. Qed.

Lemma append_cons (c : ascii) (s t : string) :
  String c s +:+ t = String c (s +:+ t).
Proof. reflexivity. Qed.

Lemma append_nil_r (s : string) : s +:+ "" = s.
Proof.
  induction s as [|c s IH]; [reflexivity|].
  rewrite append_cons. f_equal. exact IH.
Qed.

Lemma append_assoc (a b c : string) : (a +:+ b) +:+ c = a +:+ (b +:+ c).
Proof.
  induction a as [|x a IH]; [reflexivity|].
  rewrite !append_cons. f_equal. exact IH.
Qed.

Lemma append_length (a b : string) :
  String.length (a +:+ b) = (String.length a + String.length b)%nat.
Proof.
  induction a as [|x a IH]; [reflexivity|].
  rewrite append_cons. simpl. f_equal. exact IH.
Qed.

(** Cancelling a common suffix. *)
Lemma append_inj_suffix (a a' b : string) : a +:+ b = a' +:+ b -> a = a'.
Proof.
  revert a'. induction a as [|x a IH]; intros [|x' a'] E.
  - reflexivity.
  - apply (f_equal String.length) in E.
    rewrite !append_length in E. simpl in E. lia.
  - apply (f_equal String.length) in E.
    rewrite !append_length in E. simpl in E. lia.
  - rewrite !append_cons in E. injection E as -> E. f_equal. now apply IH.
Qed.

Lemma ContainsByte_append (a b : string) (c : ascii) :
  strings.ContainsByte (a +:+ b) c
  = strings.ContainsByte a c || strings.ContainsByte b c.
Proof.
  induction a as [|x a IH]; [reflexivity|].
  rewrite append_cons. simpl. rewrite <- orb_assoc. f_equal. exact IH.
Qed.

Lemma ContainsByte_middle (a b : string) (c : ascii) :
  strings.ContainsByte (a +:+ String c b) c = true.
Proof.
  rewrite ContainsByte_append. simpl. rewrite Ascii.eqb_refl.
  simpl. apply orb_true_r.
Qed.

(** A string is cut in one way only at the last occurrence of a byte. *)
Lemma split_at_last (c : ascii) (a a' b b' : string) :
  strings.ContainsByte b c = false ->
  strings.ContainsByte b' c = false ->
  a +:+ String c b = a' +:+ String c b' ->
  a = a' /\ b = b'.
Proof.
  intros Hb Hb'. revert a'.
  induction a as [|x a IH]; intros [|x' a'] E;
    rewrite ?append_cons, ?append_nil_l in E.
  - injection E as E. auto.
  - injection E as <- E. subst b.
    rewrite ContainsByte_middle in Hb. discriminate.
  - injection E as -> E. subst b'.
    rewrite ContainsByte_middle in Hb'. discriminate.
  - injection E as -> E. destruct (IH _ E) as [-> ->]. auto.
Qed.

(** ... and at the first occurrence. *)
Lemma split_at_first (c : ascii) (a a' b b' : string) :
  strings.ContainsByte a c = false ->
  strings.ContainsByte a' c = false ->
  a +:+ String c b = a' +:+ String c b' ->
  a = a' /\ b = b'.
Proof.
  revert a'. induction a as [|x a IH]; intros [|x' a'] Ha Ha' E;
    rewrite ?append_cons, ?append_nil_l in E; simpl in Ha, Ha'.
  - injection E as E. auto.
  - injection E as <- E. rewrite Ascii.eqb_refl in Ha'. discriminate.
  - injection E as -> E. rewrite Ascii.eqb_refl in Ha. discriminate.
  - injection E as -> E.
    apply orb_false_iff in Ha as [_ Ha]. apply orb_false_iff in Ha' as [_ Ha'].
    destruct (IH _ Ha Ha' E) as [-> ->]. auto.
Qed.

End StringFacts.

(** ** Decimal integers *)

Section StrconvFacts.

Import strconv.

Lemma digit_val_char (d : Z) : 0 <= d < 10 -> digit_val (digit_char d) = Some d.
Proof.
  intros Hd.
  assert (d = 0 \/ d = 1 \/ d = 2 \/ d = 3 \/ d = 4 \/ d = 5 \/ d = 6 \/ d = 7
          \/ d = 8 \/ d = 9) as Hc by lia.
  repeat (destruct Hc as [-> | Hc]; [reflexivity|]). now subst.
Qed.

Lemma digit_char_not (c : ascii) (d : Z) :
  digit_val c = None -> 0 <= d < 10 -> Ascii.eqb (digit_char d) c = false.
Proof.
  intros Hc Hd. destruct (Ascii.eqb_spec (digit_char d) c) as [<-|]; [|reflexivity].
  rewrite digit_val_char in Hc by exact Hd. discriminate.
Qed.

Lemma formatBits_0 (u : Z) (acc : string) :
  formatBits 0 u acc = String (digit_char (u mod 10)) acc.
Proof. reflexivity. Qed.

Lemma formatBits_S (fuel : nat) (u : Z) (acc : string) :
  formatBits (Datatypes.S fuel) u acc
  = if u <? 10 then String (digit_char (u mod 10)) acc
    else formatBits fuel (u / 10) (String (digit_char (u mod 10)) acc).
Proof. reflexivity. Qed.

Lemma parse_digits_cons (c : ascii) (rest : string) (acc : Z) :
  parse_digits (String c rest) acc
  = match digit_val c with
    | Some d => parse_digits rest (acc * 10 + d)
    | None => None
    end.
Proof. reflexivity. Qed.

Lemma parse_digits_one (u : Z) (acc : string) (a : Z) :
  0 <= u < 10 ->
  parse_digits (String (digit_char (u mod 10)) acc) a
  = parse_digits acc (a * 10 ^ 1 + u).
Proof.
  intros Hu. rewrite parse_digits_cons, Z.pow_1_r.
  rewrite Z.mod_small by lia. rewrite digit_val_char by lia. reflexivity.
Qed.

(** With enough fuel, the digits written for [u] read back as [u]. *)
Lemma parse_digits_formatBits (fuel : nat) :
  forall (u : Z) (acc : string),
    0 <= u < 10 ^ (Z.of_nat fuel + 1) ->
    exists n, 0 <= n /\
      forall a, parse_digits (formatBits fuel u acc) a
                = parse_digits acc (a * 10 ^ n + u).
Proof.
  induction fuel as [|fuel IH]; intros u acc Hu.
  - exists 1. split; [lia|]. intros a. rewrite formatBits_0.
    apply parse_digits_one. change (Z.of_nat 0 + 1) with 1 in Hu.
    rewrite Z.pow_1_r in Hu. exact Hu.
  - rewrite formatBits_S. destruct (u <? 10) eqn:E.
    + apply Z.ltb_lt in E. exists 1. split; [lia|]. intros a.
      apply parse_digits_one. lia.
    + apply Z.ltb_ge in E.
      destruct (IH (u / 10) (String (digit_char (u mod 10)) acc)) as (n & Hn & IHn).
      { split; [apply Z.div_pos; lia|].
        apply Z.div_lt_upper_bound; [lia|].
        replace (Z.of_nat (Datatypes.S fuel) + 1)
          with (Z.succ (Z.of_nat fuel + 1)) in Hu by lia.
        rewrite Z.pow_succ_r in Hu by lia. lia. }
      exists (n + 1). split; [lia|]. intros a. rewrite IHn.
      rewrite parse_digits_cons.
      rewrite digit_val_char by (apply Z.mod_pos_bound; lia).
      f_equal. rewrite Z.pow_add_r by lia. rewrite Z.pow_1_r.
      pose proof (Z.div_mod u 10 ltac:(lia)). lia.
Qed.

(** [formatBits] writes at least one digit. *)
Lemma formatBits_head (fuel : nat) :
  forall (u : Z) (acc : string),
    exists c rest, formatBits fuel u acc = String c rest
                   /\ (exists d, digit_val c = Some d).
Proof.
  induction fuel as [|fuel IH]; intros u acc.
  - rewrite formatBits_0. eexists _, _. split; [reflexivity|].
    eexists. apply digit_val_char. apply Z.mod_pos_bound. lia.
  - rewrite formatBits_S. destruct (u <? 10).
    + eexists _, _. split; [reflexivity|].
      eexists. apply digit_val_char. apply Z.mod_pos_bound. lia.
    + apply IH.
Qed.

Lemma log2_fuel (u : Z) :
  0 <= u -> 0 <= u < 10 ^ (Z.of_nat (Z.to_nat (Z.log2 u)) + 1).
Proof.
  intros Hu. split; [exact Hu|].
  rewrite Z2Nat.id by apply Z.log2_nonneg.
  destruct (Z.eq_dec u 0) as [->|Hne]; [reflexivity|].
  pose proof (Z.log2_spec u ltac:(lia)) as [_ Hlt].
  eapply Z.lt_le_trans; [exact Hlt|].
  rewrite <- Z.add_1_r.
  apply Z.pow_le_mono_l. pose proof (Z.log2_nonneg u). lia.
Qed.

Lemma parse_int_digits (c : ascii) (rest : string) (d u : Z) :
  digit_val c = Some d ->
  parse_digits (String c rest) 0 = Some u ->
  parse_int (String c rest) = Some u.
Proof.
  intros Hd Hp. unfold parse_int.
  assert ((c =? "-")%char = false) as ->.
  { destruct (Ascii.eqb_spec c "-"%char) as [->|]; [discriminate Hd|reflexivity]. }
  assert ((c =? "+")%char = false) as ->.
  { destruct (Ascii.eqb_spec c "+"%char) as [->|]; [discriminate Hd|reflexivity]. }
  cbn [orb]. rewrite Hp. reflexivity.
Qed.

Lemma parse_int_minus (c : ascii) (rest : string) (u : Z) :
  parse_digits (String c rest) 0 = Some u ->
  parse_int (String "-" (String c rest)) = Some (- u).
Proof.
  intros Hp. unfold parse_int.
  change ("-" =? "-")%char with true. cbn [orb]. rewrite Hp. reflexivity.
Qed.

Theorem parse_int_FormatInt (i : Z) : parse_int (FormatInt i) = Some i.
Proof.
  unfold FormatInt. destruct (i <? 0) eqn:E.
  - apply Z.ltb_lt in E.
    set (fuel := Z.to_nat (Z.log2 (- i))).
    destruct (formatBits_head fuel (- i) "") as (c & rest & Hs & _).
    destruct (parse_digits_formatBits fuel (- i) "") as (n & _ & Hp).
    { apply log2_fuel. lia. }
    specialize (Hp 0). rewrite Hs in Hp |- *.
    rewrite (parse_int_minus c rest (0 * 10 ^ n + - i)) by exact Hp.
    f_equal; lia.
  - apply Z.ltb_ge in E.
    set (fuel := Z.to_nat (Z.log2 i)).
    destruct (formatBits_head fuel i "") as (c & rest & Hs & d & Hd).
    destruct (parse_digits_formatBits fuel i "") as (n & _ & Hp).
    { apply log2_fuel. lia. }
    specialize (Hp 0). rewrite Hs in Hp |- *.
    rewrite (parse_int_digits c rest d (0 * 10 ^ n + i)) by assumption.
    f_equal; lia.
Qed.

Theorem FormatInt_inj (i j : Z) : FormatInt i = FormatInt j -> i = j.
Proof.
  intros E. apply (f_equal parse_int) in E.
  rewrite !parse_int_FormatInt in E. congruence.
Qed.

Lemma digit_val_range (c : ascii) (d : Z) : digit_val c = Some d -> 0 <= d <= 9.
Proof.
  unfold digit_val.
  destruct (Z.leb_spec 0 (Z.of_nat (nat_of_ascii c) - 48));
    destruct (Z.leb_spec (Z.of_nat (nat_of_ascii c) - 48) 9);
    cbn [andb]; intros [= <-]; lia.
Qed.

Lemma parse_digits_le (s : string) :
  forall n u : Z, 0 <= n -> parse_digits s n = Some u -> n <= u.
Proof.
  induction s as [|c rest IH]; intros n u Hn Hp.
  - injection Hp as <-. lia.
  - rewrite parse_digits_cons in Hp. destruct (digit_val c) as [d|] eqn:Hd;
      [|discriminate Hp].
    apply digit_val_range in Hd.
    specialize (IH (n * 10 + d) u ltac:(lia) Hp). lia.
Qed.

(** [ParseUint] agrees with the plain reading of the digits on the numbers
    that fit 64 bits. *)
Lemma ParseUint_loop_digits (s : string) :
  forall n u : Z,
    0 <= n -> parse_digits s n = Some u -> u <= maxUint64 ->
    ParseUint_loop s n = (u, None).
Proof.
  assert (maxUint64 = 18446744073709551615) as Emax by reflexivity.
  induction s as [|c rest IH]; intros n u Hn Hp Hu.
  - injection Hp as <-. reflexivity.
  - rewrite parse_digits_cons in Hp. cbn [ParseUint_loop].
    destruct (digit_val c) as [d|] eqn:Hd; [|discriminate Hp].
    pose proof (digit_val_range _ _ Hd) as Hr.
    pose proof (parse_digits_le rest (n * 10 + d) u ltac:(lia) Hp) as Hle.
    rewrite Emax. change (18446744073709551615 / 10 + 1) with 1844674407370955162.
    destruct (Z.leb_spec 1844674407370955162 n); [lia|].
    destruct (Z.ltb_spec 18446744073709551615 (n * 10 + d)); [lia|].
    apply IH; [lia|exact Hp|lia].
Qed.

Lemma ParseInt_parse_int (s : string) (i : Z) :
  parse_int s = Some i -> is_int64 i -> ParseInt s = (i, None).
Proof.
  assert (int64_max = 9223372036854775807) as Emax by reflexivity.
  assert (int64_min = -9223372036854775808) as Emin by reflexivity.
  assert (maxUint64 = 18446744073709551615) as Eu by reflexivity.
  unfold parse_int, ParseInt, is_int64. destruct s as [|c rest]; [discriminate|].
  rewrite (orb_comm (c =? "+")%char).
  destruct ((c =? "-")%char || (c =? "+")%char) eqn:Es.
  - destruct rest as [|c1 rest1]; [discriminate|].
    destruct (parse_digits (String c1 rest1) 0) as [u|] eqn:Hp; [|discriminate].
    pose proof (parse_digits_le _ 0 u ltac:(lia) Hp) as Hu.
    intros [= <-] [Hlo Hhi]. unfold ParseUint.
    rewrite (ParseUint_loop_digits _ 0 u ltac:(lia) Hp)
      by (destruct (c =? "-")%char; lia).
    change (2 ^ 63) with 9223372036854775808.
    destruct (c =? "-")%char; cbn [negb andb].
    + destruct (Z.ltb_spec 9223372036854775808 u); [lia|reflexivity].
    + destruct (Z.leb_spec 9223372036854775808 u); [lia|reflexivity].
  - apply orb_false_elim in Es as [-> _].
    destruct (parse_digits (String c rest) 0) as [u|] eqn:Hp; [|discriminate].
    pose proof (parse_digits_le _ 0 u ltac:(lia) Hp) as Hu.
    intros [= <-] [Hlo Hhi]. unfold ParseUint.
    rewrite (ParseUint_loop_digits _ 0 u ltac:(lia) Hp) by lia.
    change (2 ^ 63) with 9223372036854775808. cbn [negb andb].
    destruct (Z.leb_spec 9223372036854775808 u); [lia|reflexivity].
Qed.

Theorem Atoi_FormatInt (i : Z) : is_int64 i -> Atoi (FormatInt i) = (i, None).
Proof.
  intros Hi. unfold Atoi.
  destruct ((0 <? Z.of_nat (String.length (FormatInt i)))
            && (Z.of_nat (String.length (FormatInt i)) <? 19)).
  - now rewrite parse_int_FormatInt.
  - now rewrite (ParseInt_parse_int _ i (parse_int_FormatInt i) Hi).
Qed.

Lemma ContainsByte_cons (a : ascii) (rest : string) (c : ascii) :
  strings.ContainsByte (String a rest) c
  = Ascii.eqb a c || strings.ContainsByte rest c.
Proof. reflexivity. Qed.

Lemma ContainsByte_formatBits (c : ascii) (fuel : nat) :
  digit_val c = None ->
  forall (u : Z) (acc : string),
    strings.ContainsByte (formatBits fuel u acc) c = strings.ContainsByte acc c.
Proof.
  intros Hc. induction fuel as [|fuel IH]; intros u acc.
  - rewrite formatBits_0, ContainsByte_cons.
    rewrite digit_char_not; auto. apply Z.mod_pos_bound. lia.
  - rewrite formatBits_S. destruct (u <? 10).
    + rewrite ContainsByte_cons.
      rewrite digit_char_not; auto. apply Z.mod_pos_bound. lia.
    + rewrite IH, ContainsByte_cons.
      rewrite digit_char_not; auto. apply Z.mod_pos_bound. lia.
Qed.

(** A printed integer holds digits and a sign only; no colon in particular. *)
Lemma ContainsByte_FormatInt_colon (i : Z) :
  strings.ContainsByte (FormatInt i) ":" = false.
Proof.
  unfold FormatInt. destruct (i <? 0).
  - rewrite ContainsByte_cons, ContainsByte_formatBits; reflexivity.
  - rewrite ContainsByte_formatBits; reflexivity.
Qed.

End StrconvFacts.

(** ** Key derivation *)

Section KeyFacts.

Lemma Join_cons2 (a b : string) (l : list string) (sep : string) :
  strings.Join (a :: b :: l) sep = a +:+ sep +:+ strings.Join (b :: l) sep.
Proof. reflexivity. Qed.

Lemma tagsStr_eq (tags : slice string) :
  (if String.eqb (strings.Join (elems tags) ",") "" then "all"
   else strings.Join (elems tags) ",") = tags_or_all tags.
Proof. unfold tags_or_all. now destruct (strings.Join (elems tags) ","). Qed.

Lemma productListKey_eq (tags : slice string) (order : string) (pageNum pageSize : Z) :
  productListKey tags order pageNum pageSize
  = "catalogue:products:" +:+ tags_or_all tags +:+ ":order:" +:+ order
    +:+ ":page:" +:+ strconv.FormatInt pageNum
    +:+ ":size:" +:+ strconv.FormatInt pageSize.
Proof.
  unfold productListKey. rewrite tagsStr_eq.
  cbn [fmt.Sprintf Ascii.eqb Bool.eqb fmt.print_verb orb fmt.extra].
  rewrite append_nil_r. reflexivity.
Qed.

Lemma countKey_eq (tags : slice string) :
  countKey tags = "catalogue:count:" +:+ tags_or_all tags.
Proof.
  unfold countKey. rewrite tagsStr_eq.
  cbn [fmt.Sprintf Ascii.eqb Bool.eqb fmt.print_verb orb fmt.extra].
  rewrite append_nil_r. reflexivity.
Qed.

Lemma productKey_eq (id : string) : productKey id = "catalogue:product:" +:+ id.
Proof.
  unfold productKey.
  cbn [fmt.Sprintf Ascii.eqb Bool.eqb fmt.print_verb orb fmt.extra].
  rewrite append_nil_r. reflexivity.
Qed.

Lemma ContainsByte_comma (a b : string) :
  strings.ContainsByte (a +:+ "," +:+ b) "," = true.
Proof. apply (ContainsByte_middle a b ","%char). Qed.

Lemma Join_one (a : string) (sep : string) : strings.Join [a] sep = a.
Proof. reflexivity. Qed.

Lemma Join_inj_cons (l : list string) :
  forall (a a' : string) (l' : list string),
    Forall no_comma (a :: l) -> Forall no_comma (a' :: l') ->
    strings.Join (a :: l) "," = strings.Join (a' :: l') "," ->
    a :: l = a' :: l'.
Proof.
  induction l as [|b l IH]; intros a a' [|b' l'] Hl Hl' E.
  - rewrite !Join_one in E. now subst.
  - rewrite Join_cons2, Join_one in E. subst a.
    apply Forall_inv in Hl. unfold no_comma in Hl.
    rewrite ContainsByte_comma in Hl. discriminate.
  - rewrite Join_cons2, Join_one in E. subst a'.
    apply Forall_inv in Hl'. unfold no_comma in Hl'.
    rewrite ContainsByte_comma in Hl'. discriminate.
  - rewrite !Join_cons2 in E.
    pose proof (Forall_inv Hl) as Ha. pose proof (Forall_inv Hl') as Ha'.
    apply Forall_inv_tail in Hl. apply Forall_inv_tail in Hl'.
    destruct (split_at_first ","%char a a' _ _ Ha Ha' E) as [-> E'].
    f_equal. now apply IH.
Qed.

Lemma Join_nonempty_cons (a b : string) (l : list string) :
  strings.Join (a :: b :: l) "," <> "".
Proof.
  rewrite Join_cons2. intros E. apply (f_equal String.length) in E.
  rewrite !append_length in E. cbn [String.length] in E. lia.
Qed.

Lemma Join_inj (l l' : list string) :
  Forall no_comma l -> Forall no_comma l' ->
  l <> [""] -> l' <> [""] ->
  strings.Join l "," = strings.Join l' "," -> l = l'.
Proof.
  intros Hl Hl' Hne Hne' E. destruct l as [|a l], l' as [|a' l'].
  - reflexivity.
  - destruct l' as [|b' l'].
    + rewrite Join_one in E. cbn [strings.Join] in E. now subst.
    + symmetry in E. now apply Join_nonempty_cons in E.
  - destruct l as [|b l].
    + rewrite Join_one in E. cbn [strings.Join] in E. now subst.
    + now apply Join_nonempty_cons in E.
  - now apply Join_inj_cons.
Qed.

Lemma Join_all (l : list string) :
  Forall no_comma l -> strings.Join l "," = "all" -> l = ["all"].
Proof.
  intros Hl E. destruct l as [|a [|b l]].
  - discriminate E.
  - rewrite Join_one in E. now subst.
  - rewrite Join_cons2 in E.
    apply (f_equal (fun s => strings.ContainsByte s ",")) in E.
    rewrite ContainsByte_comma in E. discriminate E.
Qed.

(** On plain tags, the tags part of a key determines the tags. *)
Lemma tags_or_all_inj (tags tags' : slice string) :
  plain_tags tags -> plain_tags tags' ->
  tags_or_all tags = tags_or_all tags' -> elems tags = elems tags'.
Proof.
  intros (Hc & He & Ha) (Hc' & He' & Ha') E. unfold tags_or_all in E.
  destruct (strings.Join (elems tags) ",") as [|c s] eqn:J;
    destruct (strings.Join (elems tags') ",") as [|c' s'] eqn:J'.
  - apply Join_inj; auto. congruence.
  - rewrite <- E in J'. apply Join_all in J'; auto. contradiction.
  - rewrite E in J. apply Join_all in J; auto. contradiction.
  - apply Join_inj; auto. congruence.
Qed.


(** The fields of a list key can be read back from the key when the sort
    order holds no colon. *)
Lemma productListKey_fields (t t' o o' : string) (n n' z z' : Z) :
  plain_order o -> plain_order o' ->
  "catalogue:products:" +:+ t +:+ ":order:" +:+ o
    +:+ ":page:" +:+ strconv.FormatInt n +:+ ":size:" +:+ strconv.FormatInt z
  = "catalogue:products:" +:+ t' +:+ ":order:" +:+ o'
    +:+ ":page:" +:+ strconv.FormatInt n' +:+ ":size:" +:+ strconv.FormatInt z' ->
  t = t' /\ o = o' /\ n = n' /\ z = z'.
Proof.
  intros Ho Ho' E. apply String.app_inj in E.
  (* the page size follows the last colon *)
  assert (forall a b c d : string,
    a +:+ ":order:" +:+ b +:+ ":page:" +:+ c +:+ ":size:" +:+ d
    = (a +:+ ":order:" +:+ b +:+ ":page:" +:+ c +:+ ":size") +:+ String ":" d) as R1.
  { intros. rewrite !append_assoc. reflexivity. }
  rewrite !R1 in E.
  apply split_at_last in E as [E Ez];
    [|apply ContainsByte_FormatInt_colon|apply ContainsByte_FormatInt_colon].
  apply FormatInt_inj in Ez.
  (* then the word "size", then the page number *)
  assert (forall a b c : string,
    a +:+ ":order:" +:+ b +:+ ":page:" +:+ c +:+ ":size"
    = (a +:+ ":order:" +:+ b +:+ ":page:" +:+ c) +:+ String ":" "size") as R2.
  { intros. rewrite !append_assoc. reflexivity. }
  rewrite !R2 in E. apply split_at_last in E as [E _]; [|reflexivity|reflexivity].
  assert (forall a b c : string,
    a +:+ ":order:" +:+ b +:+ ":page:" +:+ c
    = (a +:+ ":order:" +:+ b +:+ ":page") +:+ String ":" c) as R3.
  { intros. rewrite !append_assoc. reflexivity. }
  rewrite !R3 in E.
  apply split_at_last in E as [E En];
    [|apply ContainsByte_FormatInt_colon|apply ContainsByte_FormatInt_colon].
  apply FormatInt_inj in En.
  (* then the word "page", then the order *)
  assert (forall a b : string,
    a +:+ ":order:" +:+ b +:+ ":page"
    = (a +:+ ":order:" +:+ b) +:+ String ":" "page") as R4.
  { intros. rewrite !append_assoc. reflexivity. }
  rewrite !R4 in E. apply split_at_last in E as [E _]; [|reflexivity|reflexivity].
  assert (forall a b : string,
    a +:+ ":order:" +:+ b = (a +:+ ":order") +:+ String ":" b) as R5.
  { intros. rewrite !append_assoc. reflexivity. }
  rewrite !R5 in E. apply split_at_last in E as [E Eo]; [|exact Ho|exact Ho'].
  apply append_inj_suffix in E. auto.
Qed.

End KeyFacts.

(** C5. The list key of a Query Descriptor is the string
    [catalogue:products:<tags>:order:<order>:page:<pageNum>:size:<pageSize>],
    where [<tags>] is the tags joined by commas, or [all] when that is empty;
    and descriptors with the same fields, tags in the same order, get the same
    key. *)
Theorem productListKey_format_deterministic
    (tags tags' : slice string) (order order' : string)
    (pageNum pageNum' pageSize pageSize' : Z) :
  elems tags' = elems tags -> order' = order ->
  pageNum' = pageNum -> pageSize' = pageSize ->
  productListKey tags order pageNum pageSize
  = "catalogue:products:"
      +:+ (if decide (strings.Join (elems tags) "," = "") then "all"
           else strings.Join (elems tags) ",")
      +:+ ":order:" +:+ order
      +:+ ":page:" +:+ strconv.FormatInt pageNum
      +:+ ":size:" +:+ strconv.FormatInt pageSize
  /\ productListKey tags' order' pageNum' pageSize'
     = productListKey tags order pageNum pageSize.
Proof.
  intros Et -> -> ->. split.
  - rewrite productListKey_eq. do 2 f_equal. unfold tags_or_all.
    destruct (strings.Join (elems tags) ","); reflexivity.
  - unfold productListKey. now rewrite Et.
Qed.

Lemma productListKey_format_deterministic_witness :
  productListKey (Slice ["brown"; "blue"]) "price" 2 12
  = "catalogue:products:brown,blue:order:price:page:2:size:12"
  /\ productListKey (Slice ["brown"; "blue"]) "price" 2 12
     = productListKey (Slice ["brown"; "blue"]) "price" 2 12.
Proof.
  exact (productListKey_format_deterministic
           (Slice ["brown"; "blue"]) (Slice ["brown"; "blue"])
           "price" "price" 2 2 12 12 eq_refl eq_refl eq_refl eq_refl).
Defined.

(** C4, as stated, fails: the unfiltered descriptor and the descriptor
    filtered by the single tag [all] differ in their tags and have the same
    list key and the same count key. *)
Lemma keys_collide_on_tag_all :
  elems (Slice (T := string) []) <> elems (Slice ["all"])
  /\ productListKey (Slice []) "" 1 6 = productListKey (Slice ["all"]) "" 1 6
  /\ countKey (Slice []) = countKey (Slice ["all"]).
Proof. split; [discriminate | split; vm_compute; reflexivity]. Qed.

(** C4, amended. Among descriptors with plain tags and a plain order, two
    that differ in a field have different list keys; and two plain tags lists
    that differ have different count keys. *)
Theorem keys_injective_on_plain_descriptors
    (tags tags' : slice string) (order order' : string)
    (pageNum pageNum' pageSize pageSize' : Z) :
  plain_tags tags -> plain_tags tags' ->
  plain_order order -> plain_order order' ->
  (elems tags <> elems tags' \/ order <> order'
   \/ pageNum <> pageNum' \/ pageSize <> pageSize' ->
   productListKey tags order pageNum pageSize
   <> productListKey tags' order' pageNum' pageSize')
  /\ (elems tags <> elems tags' -> countKey tags <> countKey tags').
Proof.
  intros Ht Ht' Ho Ho'. split.
  - intros Hne E. rewrite !productListKey_eq in E.
    apply productListKey_fields in E as (Et & Eo & En & Ez); auto.
    apply tags_or_all_inj in Et; auto.
    destruct Hne as [N|[N|[N|N]]]; contradiction.
  - intros Hne E. rewrite !countKey_eq in E.
    apply String.app_inj in E. apply tags_or_all_inj in E; auto.
Qed.

Lemma keys_injective_on_plain_descriptors_witness :
  (elems (Slice ["brown"]) <> elems (Slice ["blue"]) \/ "" <> "price"
   \/ 1 <> 1 \/ 6 <> 12 ->
   productListKey (Slice ["brown"]) "" 1 6
   <> productListKey (Slice ["blue"]) "price" 1 12)
  /\ (elems (Slice ["brown"]) <> elems (Slice ["blue"]) ->
      countKey (Slice ["brown"]) <> countKey (Slice ["blue"])).
Proof.
  apply (keys_injective_on_plain_descriptors
           (Slice ["brown"]) (Slice ["blue"]) "" "price" 1 1 6 12).
  - split; [repeat constructor | split; discriminate].
  - split; [repeat constructor | split; discriminate].
  - reflexivity.
  - reflexivity.
Defined.
(** ** UTF-8 and the JSON encoding of strings *)

Section Utf8Facts.

Lemma byte_val_range (c : ascii) : 0 <= byte_val c < 256.
Proof.
  unfold byte_val. pose proof (N_ascii_bounded c) as Hb. lia.
Qed.

Lemma byte_of_val (c : ascii) : byte_of (byte_val c) = c.
Proof. unfold byte_of, byte_val. rewrite N2Z.id. apply ascii_N_embedding. Qed.

Lemma byte_of_eq (z : Z) (c : ascii) : z = byte_val c -> byte_of z = c.
Proof. intros ->. apply byte_of_val. Qed.

Lemma between_true (lo x hi : Z) : utf8.between lo x hi = true -> lo <= x <= hi.
Proof. unfold utf8.between. intros E. apply andb_true_iff in E as [A B]. lia. Qed.

Lemma between_false (lo x hi : Z) :
  utf8.between lo x hi = false -> x < lo \/ hi < x.
Proof.
  unfold utf8.between. intros E. apply andb_false_iff in E as [A|B]; lia.
Qed.

Lemma between_intro (lo x hi : Z) : lo <= x <= hi -> utf8.between lo x hi = true.
Proof. unfold utf8.between. intros [A B]. apply andb_true_iff. lia. Qed.

Lemma between_out (lo x hi : Z) : x < lo \/ hi < x -> utf8.between lo x hi = false.
Proof. unfold utf8.between. intros H. apply andb_false_iff. lia. Qed.

Lemma EncodeRune_2 (c0 c1 : ascii) :
  194 <= byte_val c0 <= 223 -> 128 <= byte_val c1 <= 191 ->
  utf8.EncodeRune ((byte_val c0 mod 32) * 64 + byte_val c1 mod 64)
  = String c0 (String c1 EmptyString).
Proof.
  intros H0 H1. set (b0 := byte_val c0) in *. set (b1 := byte_val c1) in *.
  set (r := (b0 mod 32) * 64 + b1 mod 64).
  assert (r = (b0 - 192) * 64 + (b1 - 128)) as Er
    by (subst r; Z.div_mod_to_equations; lia).
  unfold utf8.EncodeRune.
  rewrite (between_out 0 r 127) by lia.
  rewrite (between_intro 0 r 2047) by lia.
  f_equal; [|f_equal]; apply byte_of_eq; fold b0 b1;
    Z.div_mod_to_equations; lia.
Qed.

Lemma EncodeRune_3 (c0 c1 c2 : ascii) :
  224 <= byte_val c0 <= 239 ->
  (if byte_val c0 =? 224 then 160 else 128) <= byte_val c1
  <= (if byte_val c0 =? 237 then 159 else 191) ->
  128 <= byte_val c2 <= 191 ->
  utf8.EncodeRune ((byte_val c0 mod 16) * 4096 + (byte_val c1 mod 64) * 64
                   + byte_val c2 mod 64)
  = String c0 (String c1 (String c2 EmptyString)).
Proof.
  intros H0 H1 H2.
  set (b0 := byte_val c0) in *. set (b1 := byte_val c1) in *.
  set (b2 := byte_val c2) in *.
  set (r := (b0 mod 16) * 4096 + (b1 mod 64) * 64 + b2 mod 64).
  destruct (Z.eqb_spec b0 224) as [E224|N224];
    destruct (Z.eqb_spec b0 237) as [E237|N237]; try lia.
  all: assert (r = (b0 - 224) * 4096 + (b1 - 128) * 64 + (b2 - 128)) as Er
         by (subst r; Z.div_mod_to_equations; lia).
  all: unfold utf8.EncodeRune, utf8.MaxRune.
  all: rewrite (between_out 0 r 127) by lia.
  all: rewrite (between_out 0 r 2047) by lia.
  all: rewrite (between_out 55296 r 57343) by lia.
  all: destruct (Z.ltb_spec r 0); [lia|].
  all: destruct (Z.ltb_spec 1114111 r); [lia|].
  all: destruct (Z.leb_spec r 65535); [|lia].
  all: cbn [orb]; unfold utf8.encode3.
  all: f_equal; [|f_equal; [|f_equal]]; apply byte_of_eq; fold b0 b1 b2;
         Z.div_mod_to_equations; lia.
Qed.

Lemma EncodeRune_4 (c0 c1 c2 c3 : ascii) :
  240 <= byte_val c0 <= 244 ->
  (if byte_val c0 =? 240 then 144 else 128) <= byte_val c1
  <= (if byte_val c0 =? 244 then 143 else 191) ->
  128 <= byte_val c2 <= 191 ->
  128 <= byte_val c3 <= 191 ->
  utf8.EncodeRune ((byte_val c0 mod 8) * 262144 + (byte_val c1 mod 64) * 4096
                   + (byte_val c2 mod 64) * 64 + byte_val c3 mod 64)
  = String c0 (String c1 (String c2 (String c3 EmptyString))).
Proof.
  intros H0 H1 H2 H3.
  set (b0 := byte_val c0) in *. set (b1 := byte_val c1) in *.
  set (b2 := byte_val c2) in *. set (b3 := byte_val c3) in *.
  set (r := (b0 mod 8) * 262144 + (b1 mod 64) * 4096 + (b2 mod 64) * 64
            + b3 mod 64).
  destruct (Z.eqb_spec b0 240) as [E240|N240];
    destruct (Z.eqb_spec b0 244) as [E244|N244]; try lia.
  all: assert (r = (b0 - 240) * 262144 + (b1 - 128) * 4096 + (b2 - 128) * 64
                   + (b3 - 128)) as Er
         by (subst r; Z.div_mod_to_equations; lia).
  all: unfold utf8.EncodeRune, utf8.MaxRune.
  all: rewrite (between_out 0 r 127) by lia.
  all: rewrite (between_out 0 r 2047) by lia.
  all: rewrite (between_out 55296 r 57343) by lia.
  all: destruct (Z.ltb_spec r 0); [lia|].
  all: destruct (Z.ltb_spec 1114111 r); [lia|].
  all: destruct (Z.leb_spec r 65535); [lia|].
  all: cbn [orb].
  all: f_equal; [|f_equal; [|f_equal; [|f_equal]]]; apply byte_of_eq;
         fold b0 b1 b2 b3; Z.div_mod_to_equations; lia.
Qed.

End Utf8Facts.

Section DecodeFacts.

Ltac bad_rune :=
  let Hv := fresh in
  intros [= <- <-] Hv; vm_compute in Hv; discriminate Hv.

(** A well-formed sequence of more than one byte is read as a rune that is
    written back as the same bytes, whatever follows it. *)
Lemma DecodeRune_valid (c : ascii) (rest : string) (r : Z) (size : nat) :
  128 <= byte_val c ->
  utf8.DecodeRune (String c rest) = (r, size) ->
  (r =? utf8.RuneError) && (size =? 1)%nat = false ->
  exists p' : string,
    take_bytes size (String c rest) = String c p'
    /\ utf8.EncodeRune r = String c p'
    /\ String c rest = String c p' +:+ drop_bytes size (String c rest)
    /\ String.length (String c p') = size
    /\ (forall X, utf8.DecodeRune (String c p' +:+ X) = (r, size))
    /\ (forall X, drop_bytes size (String c p' +:+ X) = X).
Proof.
  intros Hb. unfold utf8.DecodeRune.
  destruct (Z.ltb_spec (byte_val c) 128) as [|_]; [lia|].
  destruct (utf8.between 194 (byte_val c) 223) eqn:E2.
  { destruct rest as [|c1 r1]; [bad_rune|].
    destruct (utf8.between 128 (byte_val c1) 191) eqn:E21; [|bad_rune].
    intros [= <- <-] _. exists (String c1 EmptyString).
    cbn [take_bytes drop_bytes String.length].
    rewrite ?append_cons, ?append_nil_l. repeat apply conj; try reflexivity.
    all: first
      [ apply EncodeRune_2; now apply between_true
      | intros X; rewrite ?append_cons, ?append_nil_l;
        destruct (Z.ltb_spec (byte_val c) 128) as [|_]; [lia|];
        now rewrite E2, E21
      | intros X; now rewrite ?append_cons, ?append_nil_l ]. }
  destruct (utf8.between 224 (byte_val c) 239) eqn:E3.
  { destruct rest as [|c1 [|c2 r2]]; [bad_rune|bad_rune|].
    destruct (utf8.between (if byte_val c =? 224 then 160 else 128)
                (byte_val c1) (if byte_val c =? 237 then 159 else 191)) eqn:E31;
      [|bad_rune].
    destruct (utf8.between 128 (byte_val c2) 191) eqn:E32; [|bad_rune].
    cbn [andb]. intros [= <- <-] _.
    exists (String c1 (String c2 EmptyString)).
    cbn [take_bytes drop_bytes String.length].
    rewrite ?append_cons, ?append_nil_l. repeat apply conj; try reflexivity.
    all: first
      [ apply EncodeRune_3; now apply between_true
      | intros X; rewrite ?append_cons, ?append_nil_l;
        destruct (Z.ltb_spec (byte_val c) 128) as [|_]; [lia|];
        now rewrite E2, E3, E31, E32
      | intros X; now rewrite ?append_cons, ?append_nil_l ]. }
  destruct (utf8.between 240 (byte_val c) 244) eqn:E4; [|bad_rune].
  destruct rest as [|c1 [|c2 [|c3 r3]]]; [bad_rune|bad_rune|bad_rune|].
  destruct (utf8.between (if byte_val c =? 240 then 144 else 128)
              (byte_val c1) (if byte_val c =? 244 then 143 else 191)) eqn:E41;
    [|bad_rune].
  destruct (utf8.between 128 (byte_val c2) 191) eqn:E42; [|bad_rune].
  destruct (utf8.between 128 (byte_val c3) 191) eqn:E43; [|bad_rune].
  cbn [andb]. intros [= <- <-] _.
  exists (String c1 (String c2 (String c3 EmptyString))).
  cbn [take_bytes drop_bytes String.length].
  rewrite ?append_cons, ?append_nil_l. repeat apply conj; try reflexivity.
  all: first
    [ apply EncodeRune_4; now apply between_true
    | intros X; rewrite ?append_cons, ?append_nil_l;
      destruct (Z.ltb_spec (byte_val c) 128) as [|_]; [lia|];
      now rewrite E2, E3, E4, E41, E42, E43
    | intros X; now rewrite ?append_cons, ?append_nil_l ].
Qed.

End DecodeFacts.

Section JsonStringFacts.

Lemma appendString_S (n : nat) (c : ascii) (rest : string) :
  json.appendString (Datatypes.S n) (String c rest)
  = if byte_val c <? 128 then
      if json.htmlSafe (byte_val c) then String c (json.appendString n rest)
      else json.escape (byte_val c) +:+ json.appendString n rest
    else
      let '(r, size) := utf8.DecodeRune (String c rest) in
      if (r =? utf8.RuneError) && (size =? 1)%nat
      then json.replacement +:+ json.appendString n rest
      else if (r =? 8232) || (r =? 8233)
      then "\u202" +:+ String (json.hex (r mod 16))
                         (json.appendString n (drop_bytes size (String c rest)))
      else take_bytes size (String c rest)
           +:+ json.appendString n (drop_bytes size (String c rest)).
Proof. reflexivity. Qed.

Lemma ValidString_fuel_S (n : nat) (c : ascii) (rest : string) :
  utf8.ValidString_fuel (Datatypes.S n) (String c rest)
  = let '(r, size) := utf8.DecodeRune (String c rest) in
    if (r =? utf8.RuneError) && (size =? 1)%nat then false
    else utf8.ValidString_fuel n (drop_bytes size (String c rest)).
Proof. reflexivity. Qed.

Lemma DecodeRune_ascii (c : ascii) (rest : string) :
  byte_val c < 128 -> utf8.DecodeRune (String c rest) = (byte_val c, 1%nat).
Proof.
  intros Hb. unfold utf8.DecodeRune.
  destruct (Z.ltb_spec (byte_val c) 128); [reflexivity|lia].
Qed.

(** The decoder undoes what the encoder writes for a byte below 128. *)
Lemma unquote_ascii (c : ascii) (f : nat) (tail : string) :
  (byte_val c <? 128) = true ->
  json.unquote (Datatypes.S f)
    ((if json.htmlSafe (byte_val c) then String c EmptyString
      else json.escape (byte_val c)) +:+ tail)
  = json.emit (String c EmptyString) (json.unquote f tail).
Proof.
  destruct c as [[] [] [] [] [] [] [] []]; intros Hb;
    try (vm_compute in Hb; discriminate Hb); reflexivity.
Qed.

Lemma ascii_piece_length (c : ascii) :
  (1 <= String.length (if json.htmlSafe (byte_val c) then String c EmptyString
                       else json.escape (byte_val c)))%nat.
Proof.
  destruct c as [[] [] [] [] [] [] [] []]; vm_compute; lia.
Qed.

(** The decoder reads a well-formed sequence of several bytes as it is. *)
Lemma unquote_rune (c : ascii) (p' : string) (r : Z) (size f : nat)
    (tail : string) :
  128 <= byte_val c ->
  (forall X, utf8.DecodeRune (String c p' +:+ X) = (r, size)) ->
  (forall X, drop_bytes size (String c p' +:+ X) = X) ->
  json.unquote (Datatypes.S f) (String c p' +:+ tail)
  = json.emit (utf8.EncodeRune r) (json.unquote f tail).
Proof.
  intros Hb Hd Hdrop. specialize (Hd tail). specialize (Hdrop tail).
  rewrite append_cons in *. cbn [json.unquote].
  destruct (Z.eqb_spec (byte_val c) 34); [lia|].
  destruct (Z.eqb_spec (byte_val c) 92); [lia|].
  destruct (Z.ltb_spec (byte_val c) 32); [lia|].
  destruct (Z.ltb_spec (byte_val c) 128); [lia|].
  rewrite Hd, Hdrop. reflexivity.
Qed.

(** The decoder reads the escapes of U+2028 and U+2029 as those runes. *)
Lemma unquote_line_separator (r : Z) (f : nat) (tail : string) :
  r = 8232 \/ r = 8233 ->
  json.unquote (Datatypes.S f)
    ("\u202" +:+ String (json.hex (r mod 16)) tail)
  = json.emit (utf8.EncodeRune r) (json.unquote f tail).
Proof. intros [-> | ->]; reflexivity. Qed.

Lemma emit_Some (out s after : string) :
  json.emit out (Some (s, after)) = Some (out +:+ s, after).
Proof. reflexivity. Qed.

(** Decoding what the encoder wrote for a valid string gives the string
    back. *)
Lemma unquote_appendString (n : nat) :
  forall s : string,
    (String.length s <= n)%nat ->
    utf8.ValidString_fuel n s = true ->
    forall (fuel : nat) (rest : string),
      (String.length (json.appendString n s) < fuel)%nat ->
      json.unquote fuel (json.appendString n s +:+ String json.quote rest)
      = Some (s, rest).
Proof.
  induction n as [|n IH]; intros s Hlen Hv fuel rest Hf.
  - destruct s as [|c s']; [|cbn [String.length] in Hlen; lia].
    destruct fuel as [|f]; [cbn in Hf; lia|]. reflexivity.
  - destruct s as [|c s'].
    { destruct fuel as [|f]; [cbn in Hf; lia|]. reflexivity. }
    cbn [String.length] in Hlen.
    rewrite ValidString_fuel_S in Hv. rewrite appendString_S in Hf |- *.
    destruct fuel as [|f]; [lia|].
    destruct (byte_val c <? 128) eqn:Eb.
    + (* a byte below 128 *)
      rewrite DecodeRune_ascii in Hv by now apply Z.ltb_lt.
      destruct ((byte_val c =? utf8.RuneError) && (1 =? 1)%nat);
        [discriminate Hv|].
      cbn [drop_bytes] in Hv.
      set (A := json.appendString n s') in *.
      assert ((if json.htmlSafe (byte_val c) then String c A
               else json.escape (byte_val c) +:+ A)
              = (if json.htmlSafe (byte_val c) then String c EmptyString
                 else json.escape (byte_val c)) +:+ A) as Ep.
      { destruct (json.htmlSafe (byte_val c)); reflexivity. }
      rewrite Ep in Hf |- *. rewrite append_assoc, unquote_ascii by exact Eb.
      rewrite append_length in Hf. pose proof (ascii_piece_length c) as Hp.
      subst A. rewrite IH; [reflexivity|lia|exact Hv|lia].
    + (* a sequence of several bytes *)
      apply Z.ltb_ge in Eb.
      destruct (utf8.DecodeRune (String c s')) as [r size] eqn:D.
      destruct ((r =? utf8.RuneError) && (size =? 1)%nat) eqn:Ebad;
        [discriminate Hv|].
      destruct (DecodeRune_valid c s' r size Eb D Ebad)
        as (p' & Etake & Eenc & Es & Hsize & Hdec & Hdrop).
      set (s1 := drop_bytes size (String c s')) in *.
      assert (String.length s1 <= n)%nat as Hlen1.
      { apply (f_equal String.length) in Es. rewrite append_length in Es.
        cbn [String.length] in Es, Hsize. lia. }
      set (A := json.appendString n s1) in *.
      destruct ((r =? 8232) || (r =? 8233)) eqn:Els.
      * assert (r = 8232 \/ r = 8233) as Hr.
        { apply orb_true_iff in Els as [E|E]; apply Z.eqb_eq in E; auto. }
        replace (("\u202" +:+ String (json.hex (r mod 16)) A)
                 +:+ String json.quote rest)
          with ("\u202" +:+ String (json.hex (r mod 16))
                              (A +:+ String json.quote rest))
          by (now rewrite append_assoc, append_cons).
        rewrite unquote_line_separator by exact Hr.
        rewrite append_length in Hf. cbn [String.length] in Hf.
        subst A. rewrite IH; [|exact Hlen1|exact Hv|lia].
        rewrite emit_Some, Eenc, <- Es. reflexivity.
      * rewrite Etake in Hf |- *. rewrite append_assoc.
        rewrite (unquote_rune c p' r size) by assumption.
        rewrite append_length in Hf. cbn [String.length] in Hf.
        subst A. rewrite IH; [|exact Hlen1|exact Hv|lia].
        rewrite emit_Some, Eenc, <- Es. reflexivity.
Qed.

End JsonStringFacts.

Section JsonArrayFacts.

Lemma parse_elem_encodeString (s rest : string) :
  utf8.ValidString s = true -> json.parse_elem (json.encodeString s +:+ rest) = Some (s, rest).
Proof.
  intros Hv. unfold json.encodeString.
  rewrite append_cons, append_assoc, append_cons, append_nil_l.
  unfold json.parse_elem.
  change (byte_val json.quote =? 34) with true. cbv iota.
  apply unquote_appendString.
  - lia.
  - exact Hv.
  - rewrite append_length. cbn [String.length]. lia.
Qed.

Lemma parse_elems_comma (f : nat) (s x X : string) :
  json.parse_elem s = Some (x, String "," X) ->
  json.parse_elems (Datatypes.S f) s
  = match json.parse_elems f (json.skip_space X) with
    | Some (xs, after) => Some (x :: xs, after)
    | None => None
    end.
Proof. intros E. cbn [json.parse_elems]. rewrite E. reflexivity. Qed.

Lemma parse_elems_close (f : nat) (s x after : string) :
  json.parse_elem s = Some (x, String "]" after) ->
  json.parse_elems (Datatypes.S f) s = Some ([x], after).
Proof. intros E. cbn [json.parse_elems]. rewrite E. reflexivity. Qed.

Lemma Join_encode_head (a : string) (l : list string) :
  exists t, strings.Join (map json.encodeString (a :: l)) ","
            = String json.quote t.
Proof.
  destruct l as [|b l]; cbn [map].
  - eexists. reflexivity.
  - rewrite Join_cons2. unfold json.encodeString at 1.
    rewrite append_cons. eexists. reflexivity.
Qed.

Lemma Join_encode_length (l : list string) :
  (length l <= String.length (strings.Join (map json.encodeString l) ","))%nat.
Proof.
  induction l as [|a l IH]; [cbn; lia|].
  destruct l as [|b l]; cbn [map] in *.
  - cbn [strings.Join length String.length json.encodeString]. lia.
  - rewrite Join_cons2, !append_length.
    cbn [length String.length json.encodeString] in *. lia.
Qed.

Lemma parse_elems_Join (l : list string) :
  forall (a : string) (fuel : nat) (after : string),
    Forall (fun s => utf8.ValidString s = true) (a :: l) ->
    (length (a :: l) <= fuel)%nat ->
    json.parse_elems fuel
      (strings.Join (map json.encodeString (a :: l)) "," +:+ String "]" after)
    = Some (a :: l, after).
Proof.
  induction l as [|b l IH]; intros a fuel after Hv Hf;
    (destruct fuel as [|f]; [cbn [length] in Hf; lia|]);
    inversion Hv as [|? ? Ha Hl]; subst.
  - apply parse_elems_close. cbn [map strings.Join].
    now apply parse_elem_encodeString.
  - cbn [map]. rewrite Join_cons2. fold (map json.encodeString (b :: l)).
    destruct (Join_encode_head b l) as (t & Et).
    rewrite (parse_elems_comma f _ a
               (strings.Join (map json.encodeString (b :: l)) ","
                +:+ String "]" after)).
    + rewrite Et, append_cons.
      change (json.skip_space (String json.quote (t +:+ String "]" after)))
        with (String json.quote (t +:+ String "]" after)).
      rewrite <- append_cons, <- Et.
      rewrite IH; [reflexivity|exact Hl|cbn [length] in *; lia].
    + rewrite !append_assoc. rewrite (append_cons "," "").
      rewrite append_nil_l. now apply parse_elem_encodeString.
Qed.

(** [json.Unmarshal] gives back the slice that [json.Marshal] encoded, nil
    or not, when its strings are valid UTF-8. *)
Lemma Unmarshal_Marshal_strings (tags : slice string) :
  valid_tags tags ->
  exists data,
    json.Marshal_strings tags = Ok data
    /\ json.Unmarshal_strings data = Ok tags.
Proof.
  unfold valid_tags. intros Hv. destruct tags as [|[|a l]]; cbn [elems] in Hv.
  - eexists. split; reflexivity.
  - eexists. split; reflexivity.
  - eexists. split; [reflexivity|].
    destruct (Join_encode_head a l) as (t & Et).
    pose proof (parse_elems_Join l a
                  (Datatypes.S (String.length
                     (strings.Join (map json.encodeString (a :: l)) ","
                      +:+ "]")))
                  EmptyString Hv) as P.
    pose proof (Join_encode_length (a :: l)) as L.
    rewrite append_length in P.
    specialize (P ltac:(cbn [String.length]; lia)).
    rewrite <- append_length in P.
    rewrite append_cons, append_nil_l.
    revert P. rewrite Et, append_cons. intros P.
    change (json.Unmarshal_strings (String "[" (String json.quote (t +:+ "]"))))
      with (match json.parse_elems
                    (Datatypes.S (String.length (String json.quote (t +:+ "]"))))
                    (String json.quote (t +:+ "]")) with
            | Some (xs, after) => json.at_end after (Slice xs)
            | None => Fail json.bad_input
            end).
    rewrite P. reflexivity.
Qed.

End JsonArrayFacts.
(** ** 64-bit wrap-around *)

Lemma wrap64_small (z : Z) : is_int64 z -> wrap64 z = z.
Proof.
  unfold is_int64, int64_min, int64_max, wrap64. intros Hz.
  rewrite Z.mod_small; lia.
Qed.

Lemma wrap64_add_l (a b : Z) : wrap64 (wrap64 a + b) = wrap64 (a + b).
Proof.
  unfold wrap64.
  replace ((a + 2 ^ 63) mod 2 ^ 64 - 2 ^ 63 + b + 2 ^ 63)
    with ((a + 2 ^ 63) mod 2 ^ 64 + b) by lia.
  rewrite Z.add_mod_idemp_l by lia. do 2 f_equal. lia.
Qed.

Lemma wrap64_is_int64 (z : Z) : is_int64 (wrap64 z).
Proof.
  unfold is_int64, int64_min, int64_max, wrap64.
  pose proof (Z.mod_pos_bound (z + 2 ^ 63) (2 ^ 64) ltac:(lia)). lia.
Qed.

(** ** The metrics recorder *)

Section MetricsFacts.

Lemma count_calls_nonneg (p : record_call -> bool) (calls : list record_call) :
  0 <= count_calls p calls.
Proof. induction calls as [|c calls IH]; cbn [count_calls]; [lia|]. destruct (p c); lia. Qed.

Lemma count_calls_app (p : record_call -> bool) (l l' : list record_call) :
  count_calls p (l ++ l') = count_calls p l + count_calls p l'.
Proof.
  induction l as [|c l IH]; [reflexivity|].
  cbn [app count_calls]. rewrite IH. lia.
Qed.

Lemma sum_durations_app (p : record_call -> bool) (l l' : list record_call) :
  sum_durations p (l ++ l') = sum_durations p l + sum_durations p l'.
Proof.
  induction l as [|c l IH]; [reflexivity|].
  cbn [app sum_durations]. rewrite IH. lia.
Qed.

Lemma count_calls_split (calls : list record_call) :
  count_calls (fun _ => true) calls
  = count_calls is_hit calls + count_calls is_miss calls + count_calls is_error calls.
Proof.
  induction calls as [|c calls IH]; [reflexivity|].
  cbn [count_calls]. rewrite IH. destruct c; cbn [is_hit is_miss is_error]; lia.
Qed.

Lemma record_all_snoc (calls : list record_call) (c : record_call) :
  record_all (calls ++ [c]) = record (record_all calls) c.
Proof. unfold record_all. now rewrite fold_left_app. Qed.

(** What a sequence of calls leaves in the counters and timers of a fresh
    recorder. *)
Lemma record_all_fields (calls : list record_call) :
  let m := record_all calls in
  totalRequests m = wrap64 (count_calls (fun _ => true) calls)
  /\ cacheHits m = wrap64 (count_calls is_hit calls)
  /\ cacheMisses m = wrap64 (count_calls is_miss calls)
  /\ cacheErrors m = wrap64 (count_calls is_error calls)
  /\ totalResponseTime m = wrap64 (sum_durations (fun _ => true) calls)
  /\ cacheResponseTime m = wrap64 (sum_durations is_hit calls)
  /\ dbResponseTime m
     = wrap64 (sum_durations (fun c => is_miss c || is_error c) calls).
Proof.
  induction calls as [|c calls IH] using rev_ind.
  - repeat split.
  - cbv zeta in IH |- *. destruct IH as (H1 & H2 & H3 & H4 & H5 & H6 & H7).
    rewrite record_all_snoc, !count_calls_app, !sum_durations_app.
    cbn [count_calls sum_durations]. rewrite !Z.add_0_r.
    destruct c as [op d|op d|op d];
      cbn [record RecordCacheHit RecordCacheMiss RecordCacheError
           incrementOperationCounter totalRequests cacheHits cacheMisses
           cacheErrors totalResponseTime cacheResponseTime dbResponseTime
           is_hit is_miss is_error duration_of orb];
      rewrite H1, H2, H3, H4, H5, H6, H7, ?wrap64_add_l, ?Z.add_0_r;
      repeat split; reflexivity.
Qed.

Lemma sum_durations_split (calls : list record_call) :
  sum_durations (fun _ => true) calls
  = sum_durations is_hit calls
    + sum_durations (fun c => is_miss c || is_error c) calls.
Proof.
  induction calls as [|c calls IH]; [reflexivity|].
  cbn [sum_durations]. rewrite IH.
  destruct c; cbn [is_hit is_miss is_error orb]; lia.
Qed.

End MetricsFacts.

(** C7. After [N] hits, [M] misses and [K] errors recorded on a fresh
    recorder, in any order and with any durations, [totalRequests] is
    [N+M+K], which is also [cacheHits + cacheMisses + cacheErrors]; and the
    snapshot has [hitRatio = N/(N+M+K)*100] in [float64] arithmetic,
    [avgResponseTime = sum(d_i)/(N+M+K)], [avgCacheResponseTime] the sum of
    the hit durations over [N] and [avgDbResponseTime] the sum of the miss
    and error durations over [M+K], each 0 when its denominator is 0. The
    counts and sums are assumed to fit in 64 bits. *)
Theorem metrics_after_calls `{Float64} (calls : list record_call) :
  count_calls is_hit calls + count_calls is_miss calls
    + count_calls is_error calls <= int64_max ->
  is_int64 (sum_durations (fun _ => true) calls) ->
  is_int64 (sum_durations is_hit calls) ->
  is_int64 (sum_durations (fun c => is_miss c || is_error c) calls) ->
  let N := count_calls is_hit calls in
  let M := count_calls is_miss calls in
  let K := count_calls is_error calls in
  let m := record_all calls in
  totalRequests m = N + M + K
  /\ totalRequests m = cacheHits m + cacheMisses m + cacheErrors m
  /\ HitRatio (GetMetrics m)
     = (if N + M + K =? 0 then float64_of_int 0
        else float64_mul
               (float64_div (float64_of_int N) (float64_of_int (N + M + K)))
               (float64_of_int 100))
  /\ AvgResponseTime (GetMetrics m)
     = (if N + M + K =? 0 then 0
        else Z.quot (sum_durations (fun _ => true) calls) (N + M + K))
  /\ AvgCacheResponseTime (GetMetrics m)
     = (if N =? 0 then 0 else Z.quot (sum_durations is_hit calls) N)
  /\ AvgDbResponseTime (GetMetrics m)
     = (if M + K =? 0 then 0
        else Z.quot (sum_durations (fun c => is_miss c || is_error c) calls)
                    (M + K)).
Proof.
  intros Hn Hs Hh Hd N M K m.
  pose proof (count_calls_nonneg is_hit calls) as HN.
  pose proof (count_calls_nonneg is_miss calls) as HM.
  pose proof (count_calls_nonneg is_error calls) as HK.
  fold N in HN, Hn. fold M in HM, Hn. fold K in HK, Hn.
  destruct (record_all_fields calls) as (H1 & H2 & H3 & H4 & H5 & H6 & H7).
  fold m in H1, H2, H3, H4, H5, H6, H7.
  rewrite count_calls_split in H1. fold N M K in H1, H2, H3, H4.
  assert (int64_max = 9223372036854775807) as Emax by reflexivity.
  assert (int64_min = -9223372036854775808) as Emin by reflexivity.
  rewrite wrap64_small in H1 by (unfold is_int64; lia).
  rewrite wrap64_small in H2 by (unfold is_int64; lia).
  rewrite wrap64_small in H3 by (unfold is_int64; lia).
  rewrite wrap64_small in H4 by (unfold is_int64; lia).
  rewrite wrap64_small in H5 by exact Hs.
  rewrite wrap64_small in H6 by exact Hh.
  rewrite wrap64_small in H7 by exact Hd.
  unfold GetMetrics.
  cbn [HitRatio AvgResponseTime AvgCacheResponseTime AvgDbResponseTime].
  rewrite H1, H2, H3, H4, H5, H6, H7.
  rewrite (wrap64_small (M + K)) by (unfold is_int64; lia).
  repeat apply conj.
  - reflexivity.
  - reflexivity.
  - destruct (Z.eqb_spec (N + M + K) 0) as [E|E].
    + rewrite E. reflexivity.
    + destruct (Z.gtb_spec (N + M + K) 0); [reflexivity|lia].
  - destruct (Z.eqb_spec (N + M + K) 0) as [E|E].
    + rewrite E. reflexivity.
    + destruct (Z.gtb_spec (N + M + K) 0); [reflexivity|lia].
  - destruct (Z.eqb_spec N 0) as [E|E].
    + rewrite E. reflexivity.
    + destruct (Z.gtb_spec N 0); [reflexivity|lia].
  - destruct (Z.eqb_spec (M + K) 0) as [E|E].
    + rewrite E. reflexivity.
    + destruct (Z.gtb_spec (M + K) 0); [reflexivity|lia].
Qed.

Lemma metrics_after_calls_witness :
  totalRequests (record_all example_calls) = 5
  /\ HitRatio (H := float_expr_Float64) (GetMetrics (record_all example_calls))
     = FMul (FDiv (FInt 3) (FInt 5)) (FInt 100)
  /\ AvgResponseTime (H := float_expr_Float64) (GetMetrics (record_all example_calls))
     = 20200000
  /\ AvgCacheResponseTime (H := float_expr_Float64) (GetMetrics (record_all example_calls))
     = 2000000
  /\ AvgDbResponseTime (H := float_expr_Float64) (GetMetrics (record_all example_calls))
     = 47500000.
Proof.
  destruct (metrics_after_calls (H := float_expr_Float64) example_calls)
    as (H1 & _ & H3 & H4 & H5 & H6).
  - vm_compute. discriminate.
  - vm_compute. split; discriminate.
  - vm_compute. split; discriminate.
  - vm_compute. split; discriminate.
  - repeat apply conj; [exact H1 | exact H3 | exact H4 | exact H5 | exact H6].
Defined.
(** ** The coordinator *)

Section CoordinatorFacts.

Context `{SockType} {C S : Type} `{!CatalogueCache C} `{!Service S}.

Ltac run :=
  cbv beta iota zeta delta
    [read_through cache_lookup authoritative lookup_call authoritative_call
     write_back_of read_name value_of elapsed
     CachedService.List CachedService.Count CachedService.Get CachedService.Tags
     bind ret modify time_Now time_Since on_cache on_next on_metrics Log go
     w_clock w_ticks w_metrics w_cache w_next w_logger w_go w_calls fst snd].

(** The run of a read whose cache lookup is a hit. *)
Lemma read_through_hit (r : read) (w : World C S)
    (v : value_of r) (c' : C) :
  cache_lookup r (w_cache w) = ((v, true, None), c') ->
  let (res, w') := read_through r w in
  res = (v, None)
  /\ w_metrics w' = RecordCacheHit (read_name r) (elapsed w 1) (w_metrics w)
  /\ w_calls w' = lookup_call r :: w_calls w
  /\ w_go w' = w_go w
  /\ w_cache w' = c' /\ w_next w' = w_next w.
Proof.
  destruct r; run; intros ->; run; repeat apply conj; reflexivity.
Qed.

(** The run of a read whose cache lookup reports a miss. *)
Lemma read_through_miss (r : read) (w : World C S)
    (v v' : value_of r) (c' : C) (e' : error) (s' : S) :
  cache_lookup r (w_cache w) = ((v, false, None), c') ->
  authoritative r (w_next w) = ((v', e'), s') ->
  let (res, w') := read_through r w in
  res = (v', e')
  /\ w_metrics w' = RecordCacheMiss (read_name r) (elapsed w 1) (w_metrics w)
  /\ w_calls w' = authoritative_call r :: lookup_call r :: w_calls w
  /\ w_go w' = w_go w ++ match e' with
                         | None => [write_back_of r v']
                         | Some _ => []
                         end
  /\ w_cache w' = c' /\ w_next w' = s'.
Proof.
  destruct r; run; intros -> E; run; rewrite E; destruct e'; run;
    rewrite ?app_nil_r; repeat apply conj; reflexivity.
Qed.

(** The run of a read whose cache lookup fails. *)
Lemma read_through_cache_error (r : read) (w : World C S)
    (v v' : value_of r) (found : bool) (e : err) (c' : C) (e' : error) (s' : S) :
  cache_lookup r (w_cache w) = ((v, found, Some e), c') ->
  authoritative r (w_next w) = ((v', e'), s') ->
  let (res, w') := read_through r w in
  res = (v', e')
  /\ w_metrics w'
     = RecordCacheMiss (read_name r) (elapsed w 2)
         (RecordCacheError (read_name r) (elapsed w 1) (w_metrics w))
  /\ w_calls w' = authoritative_call r :: lookup_call r :: w_calls w
  /\ w_go w' = w_go w ++ match e' with
                         | None => [write_back_of r v']
                         | Some _ => []
                         end
  /\ w_cache w' = c' /\ w_next w' = s'.
Proof.
  destruct r; run; intros -> E; run; rewrite E; destruct e'; run;
    rewrite ?app_nil_r; repeat apply conj; reflexivity.
Qed.

(** C1. When the cache lookup of a read fails or reports not-found, the
    coordinator returns what the authoritative service returns, value and
    error alike: the caller sees an error exactly when the authoritative call
    returned one. *)
Theorem fallback_returns_authoritative (r : read) (w : World C S)
    (v v' : value_of r) (found : bool) (lookup_err : error) (c' : C)
    (e' : error) (s' : S) :
  cache_lookup r (w_cache w) = ((v, found, lookup_err), c') ->
  lookup_err <> None \/ found = false ->
  authoritative r (w_next w) = ((v', e'), s') ->
  fst (read_through r w) = (v', e')
  /\ (snd (fst (read_through r w)) <> None <-> e' <> None).
Proof.
  intros Hc Hf Ha.
  assert (fst (read_through r w) = (v', e')) as E.
  { destruct lookup_err as [e|].
    - pose proof (read_through_cache_error r w v v' found e c' e' s' Hc Ha) as R.
      destruct (read_through r w) as [res w']. now destruct R as [-> _].
    - destruct Hf as [Hf| ->]; [congruence|].
      pose proof (read_through_miss r w v v' c' e' s' Hc Ha) as R.
      destruct (read_through r w) as [res w']. now destruct R as [-> _]. }
  split; [exact E|]. now rewrite E.
Qed.

(** C10. A read whose cache lookup fails and whose fallback succeeds is
    recorded twice, as a cache error and then as a cache miss: the total
    grows by 2, the errors by 1, the misses by 1 and the counter of the
    operation by 2 (the counters having room for that). *)
Theorem cache_error_recorded_twice (r : read) (w : World C S)
    (v v' : value_of r) (found : bool) (e : err) (c' : C) (s' : S) :
  cache_lookup r (w_cache w) = ((v, found, Some e), c') ->
  authoritative r (w_next w) = ((v', None), s') ->
  room_for 2 (totalRequests (w_metrics w)) ->
  room_for 1 (cacheErrors (w_metrics w)) ->
  room_for 1 (cacheMisses (w_metrics w)) ->
  room_for 2 (operation_counter r (w_metrics w)) ->
  let m := w_metrics w in
  let m' := w_metrics (snd (read_through r w)) in
  m' = RecordCacheMiss (read_name r) (elapsed w 2)
         (RecordCacheError (read_name r) (elapsed w 1) m)
  /\ totalRequests m' = totalRequests m + 2
  /\ cacheErrors m' = cacheErrors m + 1
  /\ cacheMisses m' = cacheMisses m + 1
  /\ cacheHits m' = cacheHits m
  /\ operation_counter r m' = operation_counter r m + 2.
Proof.
  intros Hc Ha Ht He Hm Ho m m'.
  pose proof (read_through_cache_error r w v v' found e c' None s' Hc Ha) as R.
  subst m'. destruct (read_through r w) as [res w']. cbn [snd].
  destruct R as (_ & -> & _). fold m.
  assert (int64_max = 9223372036854775807) as Emax by reflexivity.
  assert (int64_min = -9223372036854775808) as Emin by reflexivity.
  unfold room_for in *. fold m in Ht, He, Hm, Ho.
  split; [reflexivity|].
  destruct r;
    cbn [RecordCacheMiss RecordCacheError incrementOperationCounter
         totalRequests cacheErrors cacheMisses cacheHits operation_counter
         listRequests getRequests countRequests tagsRequests read_name] in *;
    cbn [String.eqb Ascii.eqb Bool.eqb];
    rewrite ?wrap64_add_l;
    rewrite ?wrap64_small by (unfold is_int64; lia);
    repeat apply conj; try reflexivity; lia.
Qed.

(** C6, amended. When the authoritative service returns an error, the
    coordinator returns that error as it is, starts no write-back and calls
    no Set method of the cache, and records the failed fallback as one cache
    miss: the only metric of the request when the cache lookup reported a
    miss, and the second one, after a cache error, when the lookup itself
    failed. *)
Theorem authoritative_error_propagates (r : read) (w : World C S)
    (v v' : value_of r) (found : bool) (lookup_err : error) (c' : C)
    (e : err) (s' : S) :
  cache_lookup r (w_cache w) = ((v, found, lookup_err), c') ->
  lookup_err <> None \/ found = false ->
  authoritative r (w_next w) = ((v', Some e), s') ->
  let (res, w') := read_through r w in
  res = (v', Some e)
  /\ w_go w' = w_go w
  /\ List.filter is_cache_Set (w_calls w') = List.filter is_cache_Set (w_calls w)
  /\ w_metrics w'
     = match lookup_err with
       | None => RecordCacheMiss (read_name r) (elapsed w 1) (w_metrics w)
       | Some _ =>
           RecordCacheMiss (read_name r) (elapsed w 2)
             (RecordCacheError (read_name r) (elapsed w 1) (w_metrics w))
       end.
Proof.
  intros Hc Hf Ha. destruct lookup_err as [e0|].
  - pose proof (read_through_cache_error r w v v' found e0 c' (Some e) s' Hc Ha) as R.
    destruct (read_through r w) as [res w'].
    destruct R as (-> & -> & -> & -> & _). rewrite app_nil_r.
    repeat apply conj; try reflexivity. now destruct r.
  - destruct Hf as [Hf| ->]; [congruence|].
    pose proof (read_through_miss r w v v' c' (Some e) s' Hc Ha) as R.
    destruct (read_through r w) as [res w'].
    destruct R as (-> & -> & -> & -> & _). rewrite app_nil_r.
    repeat apply conj; try reflexivity. now destruct r.
Qed.

End CoordinatorFacts.

Lemma fallback_returns_authoritative_witness :
  fst (read_through ReadTags world_cache_down)
  = (Slice ["blue"; "red"; "skin"; "sport"], None)
  /\ (snd (fst (read_through ReadTags world_cache_down)) <> None
      <-> @None err <> None).
Proof.
  eapply (fallback_returns_authoritative ReadTags world_cache_down).
  - reflexivity.
  - left. discriminate.
  - reflexivity.
Defined.

Lemma cache_error_recorded_twice_witness :
  totalRequests (w_metrics (snd (read_through (ReadCount nil_slice) world_cache_down))) = 2
  /\ cacheErrors (w_metrics (snd (read_through (ReadCount nil_slice) world_cache_down))) = 1
  /\ cacheMisses (w_metrics (snd (read_through (ReadCount nil_slice) world_cache_down))) = 1
  /\ countRequests (w_metrics (snd (read_through (ReadCount nil_slice) world_cache_down))) = 2.
Proof.
  edestruct (cache_error_recorded_twice (ReadCount nil_slice) world_cache_down)
    as (_ & H1 & H2 & H3 & _ & H5).
  - reflexivity.
  - reflexivity.
  - vm_compute. split; discriminate.
  - vm_compute. split; discriminate.
  - vm_compute. split; discriminate.
  - vm_compute. split; discriminate.
  - repeat apply conj; [exact H1 | exact H2 | exact H3 | exact H5].
Defined.

(** C6, as stated, fails: with the cache unreachable and the authoritative
    service failing, the request is recorded as a cache error and as a cache
    miss, not as a miss only. *)
Lemma authoritative_error_after_cache_error :
  let w' := snd (read_through (ReadGet "nonexistent-id") world_all_down) in
  snd (fst (read_through (ReadGet "nonexistent-id") world_all_down)) = Some refused
  /\ cacheErrors (w_metrics w') = 1
  /\ cacheMisses (w_metrics w') = 1
  /\ forall d, w_metrics w' <> RecordCacheMiss "Get" d (w_metrics world_all_down).
Proof.
  intros w'. split; [vm_compute; reflexivity|].
  split; [vm_compute; reflexivity|]. split; [vm_compute; reflexivity|].
  intros d E. apply (f_equal cacheErrors) in E.
  cbn [RecordCacheMiss incrementOperationCounter cacheErrors] in E.
  vm_compute in E. discriminate E.
Qed.

Lemma authoritative_error_propagates_witness :
  let (res, w') := read_through (ReadGet "nonexistent-id") world_cold in
  res = (Sock_zero, Some ErrNotFound)
  /\ w_go w' = []
  /\ List.filter is_cache_Set (w_calls w') = []
  /\ w_metrics w' = RecordCacheMiss "Get" 1000000 NewCacheMetrics.
Proof.
  eapply (authoritative_error_propagates (ReadGet "nonexistent-id") world_cold
            Sock_zero Sock_zero false None _ ErrNotFound).
  - reflexivity.
  - right. reflexivity.
  - reflexivity.
Defined.
(** ** The Redis-backed cache *)

Section CacheFacts.

Context `{SockType}.
Context {json_products : JSON (slice Sock)}.
Context {json_product : JSON Sock}.
Context {json_tags : JSON (slice string)}.

Ltac run_cache :=
  cbv beta iota zeta delta
    [cache_lookup cache_store read_key value_of zero_value encode decode
     GetProducts SetProducts GetProduct SetProduct GetCount SetCount GetTags SetTags
     cache.catalogueCache_CatalogueCache
     cache.GetProducts cache.SetProducts cache.GetProduct cache.SetProduct
     cache.GetCount cache.SetCount cache.GetTags cache.SetTags
     cache.Log cache.on_client cache.get_ttl
     redis.Get redis.Set_ redis.Del send served next_served
     bind ret modify client logger ttl keyspace faults sent fst snd];
  cbn [length].

(** A Get method finds a stored value that decodes. *)
Lemma cache_lookup_hit (r : read) (c : catalogueCache) (val : string)
    (v : value_of r) :
  next_served (client c) ->
  keyspace (client c) !! read_key r = Some val ->
  decode r val = Ok v ->
  let (res, c') := cache_lookup r c in
  res = (v, true, None)
  /\ keyspace (client c') = keyspace (client c)
  /\ sent (client c') = GET (read_key r) :: sent (client c).
Proof.
  destruct r; run_cache; intros -> -> D;
    try (rewrite D; run_cache; repeat apply conj; reflexivity).
  destruct (strconv.Atoi val) as [count [e|]]; [discriminate D|].
  injection D as ->. run_cache. repeat apply conj; reflexivity.
Qed.

(** A Get method treats stored bytes that do not decode as a miss and
    deletes the key; whether the delete succeeds does not show in what it
    returns. *)
Lemma cache_lookup_corrupt (r : read) (c : catalogueCache) (val : string) (e : err) :
  next_served (client c) ->
  keyspace (client c) !! read_key r = Some val ->
  decode r val = Fail e ->
  let (res, c') := cache_lookup r c in
  res = (zero_value r, false, None)
  /\ sent (client c') = DEL (read_key r) :: GET (read_key r) :: sent (client c)
  /\ keyspace (client c')
     = match faults (client c) (Datatypes.S (length (sent (client c)))) with
       | None => delete (read_key r) (keyspace (client c))
       | Some _ => keyspace (client c)
       end.
Proof.
  destruct r; run_cache; intros -> -> D;
    try (rewrite D);
    try (destruct (strconv.Atoi val) as [count [e0|]]; [|discriminate D]);
    run_cache;
    match goal with
    | |- context [match ?f (Datatypes.S ?n) with _ => _ end] =>
        destruct (f (Datatypes.S n))
    end;
    run_cache; repeat apply conj; reflexivity.
Qed.

(** A Get method reports a miss, without an error, for a key that is not
    stored. *)
Lemma cache_lookup_absent (r : read) (c : catalogueCache) :
  next_served (client c) ->
  keyspace (client c) !! read_key r = None ->
  let (res, c') := cache_lookup r c in
  res = (zero_value r, false, None)
  /\ keyspace (client c') = keyspace (client c)
  /\ sent (client c') = GET (read_key r) :: sent (client c).
Proof.
  destruct r; run_cache; intros -> ->; run_cache; repeat apply conj; reflexivity.
Qed.

(** A Get method passes on the error of a command that failed. *)
Lemma cache_lookup_fault (r : read) (c : catalogueCache) (e : err) :
  faults (client c) (length (sent (client c))) = Some e ->
  e <> redis_Nil ->
  let (res, c') := cache_lookup r c in
  res = (zero_value r, false, Some e)
  /\ keyspace (client c') = keyspace (client c)
  /\ sent (client c') = GET (read_key r) :: sent (client c).
Proof.
  destruct r; run_cache; intros -> Hn; run_cache;
    (destruct e; [contradiction| |]); run_cache; repeat apply conj; reflexivity.
Qed.

(** A Set method stores the encoded value under the key of the read. *)
Lemma cache_store_served (r : read) (c : catalogueCache) (v : value_of r)
    (data : string) :
  next_served (client c) ->
  encode r v = Ok data ->
  let (res, c') := cache_store r v c in
  res = None
  /\ keyspace (client c') = <[read_key r := data]> (keyspace (client c))
  /\ faults (client c') = faults (client c)
  /\ sent (client c') = SET (read_key r) data (ttl c) :: sent (client c).
Proof.
  destruct r; run_cache; intros Hs D;
    try (rewrite D); try (injection D as <-);
    run_cache; rewrite Hs; repeat apply conj; reflexivity.
Qed.

Lemma decode_count (tags : slice string) (n : Z) :
  is_int64 n -> decode (ReadCount tags) (appendArg (ArgInt n)) = Ok n.
Proof.
  intros Hn. cbv beta iota delta [decode appendArg].
  now rewrite Atoi_FormatInt.
Qed.

End CacheFacts.

Section StoredValues.

Context `{SockType}.
Context {json_products : JSON (slice Sock)}.
Context {json_product : JSON Sock}.

(** What is read back after a store, in terms of the codec of the read. *)
Lemma store_then_lookup (r : read) (v : value_of r) (data : string)
    (c : catalogueCache) :
  next_served (client c) ->
  faults (client c) (Datatypes.S (length (sent (client c)))) = None ->
  encode r v = Ok data ->
  let (err, c') := cache_store r v c in
  err = None
  /\ fst (cache_lookup r c')
     = match decode r data with
       | Ok v' => (v', true, None)
       | Fail _ => (zero_value r, false, None)
       end.
Proof.
  intros Hs1 Hs2 He.
  pose proof (cache_store_served r c v data Hs1 He) as R.
  destruct (cache_store r v c) as [err c'].
  destruct R as (-> & Hk & Hf & Hsent). split; [reflexivity|].
  assert (next_served (client c')) as Hs'.
  { unfold next_served. rewrite Hf, Hsent. exact Hs2. }
  assert (keyspace (client c') !! read_key r = Some data) as Hk'.
  { rewrite Hk. apply lookup_insert_eq. }
  destruct (decode r data) as [v'|e] eqn:Hd.
  - pose proof (cache_lookup_hit r c' data v' Hs' Hk' Hd) as L.
    destruct (cache_lookup r c') as [res c'']. now destruct L as (-> & _).
  - pose proof (cache_lookup_corrupt r c' data e Hs' Hk' Hd) as L.
    destruct (cache_lookup r c') as [res c'']. now destruct L as (-> & _).
Qed.


End StoredValues.

Section CachedReads.

Context `{SockType}.
Context {json_products : JSON (slice Sock)}.
Context {json_product : JSON Sock}.
Context {json_tags : JSON (slice string)}.
Context {S : Type} `{!Service S}.

(** C2. When the key of a read is stored and its bytes decode, the
    coordinator returns the decoded value without an error; the only call
    it makes is the cache lookup, and the authoritative service is left as it
    was. *)
Theorem hit_returns_cached_value (r : read) (w : World catalogueCache S)
    (val : string) (v : value_of r) :
  next_served (client (w_cache w)) ->
  keyspace (client (w_cache w)) !! read_key r = Some val ->
  decode r val = Ok v ->
  let (res, w') := read_through r w in
  res = (v, None)
  /\ w_calls w' = lookup_call r :: w_calls w
  /\ is_next (lookup_call r) = false
  /\ w_next w' = w_next w
  /\ w_go w' = w_go w.
Proof.
  intros Hs Hk Hd.
  pose proof (cache_lookup_hit r (w_cache w) val v Hs Hk Hd) as L.
  destruct (cache_lookup r (w_cache w)) as [res c'] eqn:E.
  destruct L as (-> & _).
  pose proof (read_through_hit r w v c' E) as R.
  destruct (read_through r w) as [res w'].
  destruct R as (-> & _ & -> & -> & _ & ->).
  repeat apply conj; try reflexivity. now destruct r.
Qed.

(** C3. When the bytes stored under the key of a read do not decode, the
    cache deletes the key and reports not-found without an error, whether
    or not the delete succeeds; the coordinator returns what the
    authoritative service returns and records a miss. The key is gone when
    the delete was served. *)
Theorem corrupted_entry_falls_back (r : read) (w : World catalogueCache S)
    (val : string) (e : err) (v' : value_of r) (e' : error) (s' : S) :
  next_served (client (w_cache w)) ->
  keyspace (client (w_cache w)) !! read_key r = Some val ->
  decode r val = Fail e ->
  authoritative r (w_next w) = ((v', e'), s') ->
  let (res, w') := read_through r w in
  res = (v', e')
  /\ fst (cache_lookup r (w_cache w)) = (zero_value r, false, None)
  /\ sent (client (w_cache w'))
     = DEL (read_key r) :: GET (read_key r) :: sent (client (w_cache w))
  /\ (faults (client (w_cache w))
        (Datatypes.S (length (sent (client (w_cache w))))) = None ->
      keyspace (client (w_cache w')) !! read_key r = None)
  /\ w_metrics w' = RecordCacheMiss (read_name r) (elapsed w 1) (w_metrics w).
Proof.
  intros Hs Hk Hd Ha.
  pose proof (cache_lookup_corrupt r (w_cache w) val e Hs Hk Hd) as L.
  destruct (cache_lookup r (w_cache w)) as [res c'] eqn:E.
  destruct L as (-> & Hsent & Hks).
  pose proof (read_through_miss r w (zero_value r) v' c' e' s' E Ha) as R.
  destruct (read_through r w) as [res w'].
  destruct R as (-> & -> & _ & _ & -> & _).
  repeat apply conj; try reflexivity; try assumption.
  intros F. rewrite Hks, F. apply lookup_delete_eq.
Qed.

End CachedReads.



Lemma hit_returns_cached_value_witness :
  let (res, w') := read_through ReadTags world_warm in
  res = (Slice ["blue"; "red"], None)
  /\ w_calls w' = [cache_GetTags]
  /\ is_next cache_GetTags = false
  /\ w_next w' = example_stub healthy
  /\ w_go w' = [].
Proof.
  eapply (hit_returns_cached_value ReadTags world_warm).
  - reflexivity.
  - vm_compute. reflexivity.
  - vm_compute. reflexivity.
Defined.

Lemma corrupted_entry_falls_back_witness :
  let (res, w') := read_through (ReadCount nil_slice) world_warm in
  res = (3, None)
  /\ fst (cache_lookup (ReadCount nil_slice) (w_cache world_warm)) = (0, false, None)
  /\ sent (client (w_cache w'))
     = [DEL "catalogue:count:all"; GET "catalogue:count:all"]
  /\ (healthy 1%nat = None ->
      keyspace (client (w_cache w')) !! "catalogue:count:all" = None)
  /\ w_metrics w' = RecordCacheMiss "Count" 1000000 NewCacheMetrics.
Proof.
  eapply (corrupted_entry_falls_back (ReadCount nil_slice) world_warm).
  - reflexivity.
  - vm_compute. reflexivity.
  - vm_compute. reflexivity.
  - reflexivity.
Defined.
(** ** The cache warmer *)

Section WarmerFacts.

Context `{SockType} {C S : Type} `{!CatalogueCache C} `{!Service S}.

Variable p : call -> bool.

Lemma emits_ret {A} (a : A) : emits (C := C) (S := S) p (ret a) [].
Proof. intros w. exists []. split; reflexivity. Qed.

Lemma emits_bind {A B} (m : M (World C S) A) (k : A -> M (World C S) B)
    (xs ys zs : list call) :
  emits p m xs -> (forall a, emits p (k a) ys) -> zs = xs ++ ys ->
  emits p (bind m k) zs.
Proof.
  intros Hm Hk -> w. unfold bind.
  destruct (Hm w) as (new1 & E1 & F1). destruct (m w) as [a w1]. cbn [snd] in E1.
  destruct (Hk a w1) as (new2 & E2 & F2).
  exists (new2 ++ new1). split.
  - rewrite E2, E1. now rewrite app_assoc.
  - unfold in_order in *. rewrite rev_app_distr, List.filter_app. now rewrite F1, F2.
Qed.

Lemma emits_time_Now : emits (C := C) (S := S) p time_Now [].
Proof. intros w. exists []. split; reflexivity. Qed.

Lemma emits_time_Since (start : Z) : emits (C := C) (S := S) p (time_Since start) [].
Proof. intros w. exists []. split; reflexivity. Qed.

Lemma emits_Log (e : LogEntry) : emits (C := C) (S := S) p (Log e) [].
Proof. intros w. exists []. split; reflexivity. Qed.

Lemma emits_go (g : goroutine) : emits (C := C) (S := S) p (go g) [].
Proof. intros w. exists []. split; reflexivity. Qed.

Lemma emits_on_next {A} (c : call) (m : M S A) :
  emits (C := C) p (on_next c m) (if p c then [c] else []).
Proof.
  intros w. exists [c]. unfold on_next. destruct (m (w_next w)) as [a s'].
  split; [reflexivity|]. unfold in_order. cbn [rev app List.filter].
  now destruct (p c).
Qed.

Lemma emits_on_cache {A} (c : call) (m : M C A) :
  emits (S := S) p (on_cache c m) (if p c then [c] else []).
Proof.
  intros w. exists [c]. unfold on_cache. destruct (m (w_cache w)) as [a c'].
  split; [reflexivity|]. unfold in_order. cbn [rev app List.filter].
  now destruct (p c).
Qed.

Lemma emits_for_each {A} (l : list A) (body : A -> M (World C S) unit)
    (f : A -> list call) :
  (forall x, emits p (body x) (f x)) ->
  emits p (for_each l body) (concat (map f l)).
Proof.
  intros Hb. induction l as [|x l IH]; cbn [for_each map concat].
  - apply emits_ret.
  - eapply emits_bind; [apply Hb | intros _; apply IH | reflexivity].
Qed.

End WarmerFacts.

Section WarmerPhases.

Context `{SockType} {C S : Type} `{!CatalogueCache C} `{!Service S}.

Ltac emits_prim :=
  first [ apply emits_ret | apply emits_time_Now | apply emits_time_Since
        | apply emits_Log | apply emits_go
        | apply emits_on_next | apply emits_on_cache ].

Ltac emits_case :=
  match goal with
  | |- emits _ (match ?x with _ => _ end) _ => destruct x
  | |- emits _ (let (_, _) := ?x in _) _ => destruct x
  end.

Ltac emits_run :=
  repeat first
    [ emits_prim
    | emits_case
    | eapply emits_bind; [ | intros ? | ] ];
  try reflexivity.

(** Warming a listing fetches that listing and makes no other [List]
    call, whatever fails. *)
Lemma warmListing_emits (l : CacheWarmer.listing) :
  emits (C := C) (S := S) is_next_List (CacheWarmer.warmListing l) [listing_fetch l].
Proof. unfold CacheWarmer.warmListing. emits_run. Qed.

Lemma warmProductListings_emits :
  emits (C := C) (S := S) is_next_List CacheWarmer.warmProductListings
    (map listing_fetch CacheWarmer.listings).
Proof.
  unfold CacheWarmer.warmProductListings.
  eapply emits_bind; [apply emits_time_Now|intros start|].
  - eapply emits_bind; [|intros []|].
    + apply (emits_for_each is_next_List CacheWarmer.listings
               CacheWarmer.warmListing (fun l => [listing_fetch l])).
      apply warmListing_emits.
    + emits_run.
    + reflexivity.
  - reflexivity.
Qed.

Lemma warmProduct_emits (product : Sock) (warmed : Z) :
  emits (C := C) (S := S) is_next_Get (CacheWarmer.warmProduct product warmed)
    [next_Get (ID product)].
Proof. unfold CacheWarmer.warmProduct. emits_run. Qed.

Lemma warmProducts_emits (products : list Sock) :
  forall warmed : Z,
    emits (C := C) (S := S) is_next_Get (CacheWarmer.warmProducts products warmed)
      (map (fun product => next_Get (ID product)) products).
Proof.
  induction products as [|product rest IH]; intros warmed;
    cbn [CacheWarmer.warmProducts map].
  - apply emits_ret.
  - eapply emits_bind; [apply warmProduct_emits | intros warmed'; apply IH
                       | reflexivity].
Qed.

End WarmerPhases.

Section WarmingRuns.

Context `{SockType} {C S : Type} `{!CatalogueCache C} `{!Service S}.

Ltac run_warm :=
  cbv beta iota zeta delta
    [CacheWarmer.warmTags CacheWarmer.warmListing CacheWarmer.warmProduct
     CacheWarmer.warmIndividualProducts CacheWarmer.WarmCache
     bind ret modify time_Now time_Since on_cache on_next on_metrics Log go];
  cbn [w_clock w_ticks w_metrics w_cache w_next w_logger w_go w_calls fst snd].


End WarmingRuns.


(** * Further properties *)

(** ** Keys *)

(** X1. The key of a product determines its identifier: unlike list keys,
    product keys never collide. *)
Theorem productKey_injective (id id' : string) :
  productKey id = productKey id' -> id = id'.
Proof.
  rewrite !productKey_eq. intros E. now apply String.app_inj in E.
Qed.

Lemma productKey_injective_witness : "a0a4f044" = "a0a4f044".
Proof. exact (productKey_injective "a0a4f044" "a0a4f044" eq_refl). Defined.

Lemma read_key_List (tags : slice string) (order : string) (n z : Z) :
  read_key (ReadList tags order n z) = productListKey tags order n z.
Proof. reflexivity. Qed.

Lemma read_key_Count (tags : slice string) : read_key (ReadCount tags) = countKey tags.
Proof. reflexivity. Qed.

Lemma read_key_Get (id : string) : read_key (ReadGet id) = productKey id.
Proof. reflexivity. Qed.

Lemma read_key_prefix (r : read) :
  exists rest, read_key r = "catalogue:" +:+ rest.
Proof.
  destruct r.
  - rewrite read_key_List, productListKey_eq. eexists. reflexivity.
  - rewrite read_key_Count, countKey_eq. eexists. reflexivity.
  - rewrite read_key_Get, productKey_eq. eexists. reflexivity.
  - eexists. reflexivity.
Qed.

Lemma read_key_char10 (r : read) :
  String.get 10 (read_key r) = Some (read_key_letter r).
Proof.
  destruct r.
  - rewrite read_key_List, productListKey_eq. reflexivity.
  - rewrite read_key_Count, countKey_eq. reflexivity.
  - rewrite read_key_Get, productKey_eq. reflexivity.
  - reflexivity.
Qed.

Lemma productKey_char17 (id : string) : String.get 17 (productKey id) = Some ":"%char.
Proof. rewrite productKey_eq. reflexivity. Qed.

Lemma productListKey_char17 (tags : slice string) (order : string) (n z : Z) :
  String.get 17 (productListKey tags order n z) = Some "s"%char.
Proof. rewrite productListKey_eq. reflexivity. Qed.

Lemma list_key_not_product_key (tags : slice string) (order : string) (n z : Z)
    (id : string) :
  read_key (ReadList tags order n z) <> read_key (ReadGet id).
Proof.
  rewrite read_key_List, read_key_Get.
  intros E. apply (f_equal (String.get 17)) in E.
  rewrite productKey_char17, productListKey_char17 in E. discriminate E.
Qed.

Lemma read_key_same_letter (r1 r2 : read) :
  read_key r1 = read_key r2 -> read_key_letter r1 = read_key_letter r2.
Proof.
  intros E. pose proof (f_equal (String.get 10) E) as L.
  rewrite !read_key_char10 in L. now injection L.
Qed.

(** X2. Every key lies in the [catalogue:] namespace, and the four kinds of keys
    are disjoint: reads of different operations never share a key, whatever
    their parameters. *)
Theorem keys_of_different_operations_differ (r1 r2 : read) :
  read_name r1 <> read_name r2 ->
  read_key r1 <> read_key r2
  /\ (exists rest, read_key r1 = "catalogue:" +:+ rest).
Proof.
  intros Hn. split; [|apply read_key_prefix].
  intros E. pose proof (read_key_same_letter r1 r2 E) as L.
  destruct r1 as [t1 o1 n1 z1|t1|i1|], r2 as [t2 o2 n2 z2|t2|i2|];
    try discriminate L; try (apply Hn; reflexivity).
  - exact (list_key_not_product_key _ _ _ _ _ E).
  - symmetry in E. exact (list_key_not_product_key _ _ _ _ _ E).
Qed.

Lemma keys_of_different_operations_differ_witness :
  read_key (ReadGet "a0a4f044") <> read_key (ReadList nil_slice "" 1 6)
  /\ (exists rest, read_key (ReadGet "a0a4f044") = "catalogue:" +:+ rest).
Proof.
  apply (keys_of_different_operations_differ (ReadGet "a0a4f044")
           (ReadList nil_slice "" 1 6)).
  discriminate.
Defined.

(** ** The metrics recorder *)

Lemma wrap64_add (a b : Z) : wrap64 (wrap64 a + wrap64 b) = wrap64 (a + b).
Proof.
  rewrite wrap64_add_l. rewrite (Z.add_comm a (wrap64 b)), wrap64_add_l.
  f_equal. lia.
Qed.

Lemma wrap64_add3 (a b c : Z) :
  wrap64 (wrap64 a + wrap64 b + wrap64 c) = wrap64 (a + b + c).
Proof.
  replace (wrap64 a + wrap64 b + wrap64 c)
    with (wrap64 a + (wrap64 b + wrap64 c)) by lia.
  rewrite wrap64_add_l.
  replace (a + (wrap64 b + wrap64 c)) with (wrap64 b + (a + wrap64 c)) by lia.
  rewrite wrap64_add_l.
  replace (b + (a + wrap64 c)) with (wrap64 c + (a + b)) by lia.
  rewrite wrap64_add_l. f_equal. lia.
Qed.

Lemma wrap64_idem (a : Z) : wrap64 (wrap64 a) = wrap64 a.
Proof. apply wrap64_small, wrap64_is_int64. Qed.

Lemma count_operation_snoc (name : string) (calls : list record_call) (c : record_call) :
  count_operation name (calls ++ [c])
  = count_operation name calls + (if String.eqb (operation_of c) name then 1 else 0).
Proof.
  unfold count_operation. rewrite count_calls_app. cbn [count_calls]. lia.
Qed.

Lemma incr_counter (b : bool) (n : Z) :
  (if b then wrap64 (wrap64 n + 1) else wrap64 n)
  = wrap64 (n + (if b then 1 else 0)).
Proof. destruct b; [apply wrap64_add_l | now rewrite Z.add_0_r]. Qed.

(** The counters of the operations after a sequence of calls on a fresh
    recorder. *)
Lemma record_all_operations (calls : list record_call) :
  let m := record_all calls in
  listRequests m = wrap64 (count_operation "List" calls)
  /\ getRequests m = wrap64 (count_operation "Get" calls)
  /\ countRequests m = wrap64 (count_operation "Count" calls)
  /\ tagsRequests m = wrap64 (count_operation "Tags" calls).
Proof.
  induction calls as [|c calls IH] using rev_ind.
  - repeat split.
  - cbv zeta in IH |- *. destruct IH as (H1 & H2 & H3 & H4).
    rewrite record_all_snoc, !count_operation_snoc.
    destruct c as [op d|op d|op d];
      cbn [record RecordCacheHit RecordCacheMiss RecordCacheError
           incrementOperationCounter listRequests getRequests countRequests
           tagsRequests operation_of];
      rewrite H1, H2, H3, H4, !incr_counter; repeat split; reflexivity.
Qed.

Lemma count_calls_le (p q : record_call -> bool) (calls : list record_call) :
  (forall c, p c = true -> q c = true) ->
  count_calls p calls <= count_calls q calls.
Proof.
  intros Hpq. induction calls as [|c calls IH]; cbn [count_calls]; [lia|].
  destruct (p c) eqn:E; [rewrite (Hpq c E); lia|]. destruct (q c); lia.
Qed.

Lemma count_known_split (calls : list record_call) :
  count_calls known_operation calls
  = count_operation "List" calls + count_operation "Get" calls
    + count_operation "Count" calls + count_operation "Tags" calls.
Proof.
  unfold count_operation.
  induction calls as [|c calls IH]; [reflexivity|].
  cbn [count_calls]. rewrite IH. unfold known_operation.
  destruct (String.eqb_spec (operation_of c) "List") as [E|_];
    [rewrite E; cbn; lia|].
  destruct (String.eqb_spec (operation_of c) "Get") as [E|_];
    [rewrite E; cbn; lia|].
  destruct (String.eqb_spec (operation_of c) "Count") as [E|_];
    [rewrite E; cbn; lia|].
  destruct (String.eqb_spec (operation_of c) "Tags") as [E|_];
    cbn; lia.
Qed.

(** X3. After any sequence of calls on a fresh recorder, the counter of each of
    the four operations holds the number of calls recorded under its name; a
    call recorded under another name is counted in the total and in no
    operation counter. (The number of calls is assumed to fit in 64 bits.) *)
Theorem operation_counters_count_named_calls (calls : list record_call) :
  count_calls (fun _ => true) calls <= int64_max ->
  let m := record_all calls in
  listRequests m = count_operation "List" calls
  /\ getRequests m = count_operation "Get" calls
  /\ countRequests m = count_operation "Count" calls
  /\ tagsRequests m = count_operation "Tags" calls
  /\ listRequests m + getRequests m + countRequests m + tagsRequests m
     = count_calls known_operation calls
  /\ count_calls known_operation calls <= totalRequests m.
Proof.
  intros Hn m.
  destruct (record_all_operations calls) as (H1 & H2 & H3 & H4).
  destruct (record_all_fields calls) as (T & _).
  fold m in H1, H2, H3, H4, T.
  assert (int64_max = 9223372036854775807) as Emax by reflexivity.
  assert (int64_min = -9223372036854775808) as Emin by reflexivity.
  pose proof (count_known_split calls) as K.
  pose proof (count_calls_le known_operation (fun _ => true) calls
                ltac:(reflexivity)) as Hk.
  pose proof (count_calls_nonneg (fun c => String.eqb (operation_of c) "List") calls).
  pose proof (count_calls_nonneg (fun c => String.eqb (operation_of c) "Get") calls).
  pose proof (count_calls_nonneg (fun c => String.eqb (operation_of c) "Count") calls).
  pose proof (count_calls_nonneg (fun c => String.eqb (operation_of c) "Tags") calls).
  pose proof (count_calls_nonneg (fun _ => true) calls).
  unfold count_operation in *.
  rewrite wrap64_small in H1 by (unfold is_int64; lia).
  rewrite wrap64_small in H2 by (unfold is_int64; lia).
  rewrite wrap64_small in H3 by (unfold is_int64; lia).
  rewrite wrap64_small in H4 by (unfold is_int64; lia).
  rewrite wrap64_small in T by (unfold is_int64; lia).
  rewrite H1, H2, H3, H4, T. repeat apply conj; try reflexivity; lia.
Qed.

Lemma operation_counters_count_named_calls_witness :
  listRequests (record_all example_calls) = 2
  /\ getRequests (record_all example_calls) = 1
  /\ countRequests (record_all example_calls) = 1
  /\ tagsRequests (record_all example_calls) = 1.
Proof.
  destruct (operation_counters_count_named_calls example_calls)
    as (H1 & H2 & H3 & H4 & _).
  - vm_compute. discriminate.
  - repeat apply conj; [exact H1 | exact H2 | exact H3 | exact H4].
Defined.

(** X4. Whatever was recorded, and even when counters wrapped around, the
    recorder keeps its two sums: the total of requests is the hits plus the
    misses plus the errors, and the total response time is the cache time
    plus the database time, in 64-bit arithmetic. *)
Theorem recorder_sums_always_hold (calls : list record_call) :
  let m := record_all calls in
  totalRequests m = wrap64 (cacheHits m + cacheMisses m + cacheErrors m)
  /\ totalResponseTime m = wrap64 (cacheResponseTime m + dbResponseTime m).
Proof.
  intros m.
  destruct (record_all_fields calls) as (H1 & H2 & H3 & H4 & H5 & H6 & H7).
  fold m in H1, H2, H3, H4, H5, H6, H7.
  rewrite H1, H2, H3, H4, H5, H6, H7. split.
  - rewrite wrap64_add3. now rewrite count_calls_split.
  - rewrite wrap64_add. now rewrite sum_durations_split.
Qed.

(** ** The coordinator, continued *)

Section CoordinatorExtras.

Context `{SockType} {C S : Type} `{!CatalogueCache C} `{!Service S}.

(** X5. A cache hit is recorded as one hit, with the time elapsed at the second
    clock reading of the request; it starts no goroutine and leaves the
    authoritative service alone. *)
Theorem hit_is_recorded_once (r : read) (w : World C S)
    (v : value_of r) (c' : C) :
  cache_lookup r (w_cache w) = ((v, true, None), c') ->
  let (res, w') := read_through r w in
  res = (v, None)
  /\ w_metrics w' = RecordCacheHit (read_name r) (elapsed w 1) (w_metrics w)
  /\ w_go w' = w_go w
  /\ w_next w' = w_next w
  /\ w_cache w' = c'.
Proof.
  intros Hc. pose proof (read_through_hit r w v c' Hc) as R.
  destruct (read_through r w) as [res w'].
  destruct R as (-> & -> & _ & -> & -> & ->). repeat apply conj; reflexivity.
Qed.

(** X6. After a miss, a successful authoritative read is returned at once and
    handed to exactly one write-back goroutine, with the parameters of the
    read and the value that the caller got; it is recorded as one miss. *)
Theorem miss_starts_one_write_back (r : read) (w : World C S)
    (v v' : value_of r) (c' : C) (s' : S) :
  cache_lookup r (w_cache w) = ((v, false, None), c') ->
  authoritative r (w_next w) = ((v', None), s') ->
  let (res, w') := read_through r w in
  res = (v', None)
  /\ w_go w' = w_go w ++ [write_back_of r v']
  /\ w_metrics w' = RecordCacheMiss (read_name r) (elapsed w 1) (w_metrics w)
  /\ w_cache w' = c'.
Proof.
  intros Hc Ha. pose proof (read_through_miss r w v v' c' None s' Hc Ha) as R.
  destruct (read_through r w) as [res w'].
  destruct R as (-> & -> & _ & -> & -> & _). repeat apply conj; reflexivity.
Qed.

Lemma emits_on_metrics (p : call -> bool) (f : CacheMetrics -> CacheMetrics) :
  emits (C := C) (S := S) p (on_metrics f) [].
Proof. intros w. exists []. split; reflexivity. Qed.

Ltac emits_prim :=
  first [ apply emits_ret | apply emits_time_Now | apply emits_time_Since
        | apply emits_Log | apply emits_go | apply emits_on_metrics
        | apply emits_on_next | apply emits_on_cache ].

Ltac emits_case :=
  match goal with
  | |- emits _ (match ?x with _ => _ end) _ => destruct x
  | |- emits _ (let (_, _) := ?x in _) _ => destruct x
  | |- emits _ (if ?x then _ else _) _ => destruct x
  end.

Ltac emits_run :=
  repeat first
    [ emits_prim
    | emits_case
    | eapply emits_bind; [ | intros ? | ] ];
  try reflexivity.

(** X7. Whatever happens, a read calls the Get method of the cache for its
    key once, and calls no Set method: the coordinator never writes to the
    cache on the path of the request. *)
Theorem read_looks_up_once_and_never_stores (r : read) :
  emits (C := C) (S := S) is_cache_Get (read_through r) [lookup_call r]
  /\ emits (C := C) (S := S) is_cache_Set (read_through r) [].
Proof.
  split; destruct r;
    cbv beta iota zeta delta
      [read_through lookup_call CachedService.List CachedService.Count
       CachedService.Get CachedService.Tags];
    emits_run.
Qed.

End CoordinatorExtras.

Lemma hit_is_recorded_once_witness :
  let (res, w') := read_through ReadTags world_warm in
  res = (Slice ["blue"; "red"], None)
  /\ w_metrics w' = RecordCacheHit "Tags" 1000000 NewCacheMetrics
  /\ w_go w' = []
  /\ w_next w' = example_stub healthy
  /\ w_cache w' = snd (cache_lookup ReadTags (w_cache world_warm)).
Proof.
  eapply (hit_is_recorded_once ReadTags world_warm).
  vm_compute. reflexivity.
Defined.

Lemma miss_starts_one_write_back_witness :
  let (res, w') := read_through ReadTags world_cold in
  res = (Slice ["blue"; "red"; "skin"; "sport"], None)
  /\ w_go w' = [go_SetTags (Slice ["blue"; "red"; "skin"; "sport"])]
  /\ w_metrics w' = RecordCacheMiss "Tags" 1000000 NewCacheMetrics
  /\ w_cache w' = snd (cache_lookup ReadTags (w_cache world_cold)).
Proof.
  eapply (miss_starts_one_write_back ReadTags world_cold).
  - vm_compute. reflexivity.
  - vm_compute. reflexivity.
Defined.

(** ** The Redis-backed cache, continued *)

Section CacheExtras.

Context `{SockType}.
Context {json_products : JSON (slice Sock)}.
Context {json_product : JSON Sock}.
Context {json_tags : JSON (slice string)}.

Ltac run_cache :=
  cbv beta iota zeta delta
    [cache_lookup cache_store read_key value_of zero_value encode decode
     GetProducts SetProducts GetProduct SetProduct GetCount SetCount GetTags SetTags
     cache.catalogueCache_CatalogueCache
     cache.GetProducts cache.SetProducts cache.GetProduct cache.SetProduct
     cache.GetCount cache.SetCount cache.GetTags cache.SetTags
     invalidation.InvalidateProduct
     cache.Log cache.on_client cache.get_ttl
     redis.Get redis.Set_ redis.Del send served next_served
     bind ret modify client logger ttl keyspace faults sent fst snd];
  cbn [length].

Ltac split_match :=
  match goal with
  | |- context [match ?f (length ?l) with _ => _ end] =>
      destruct (f (length l)) eqn:?
  | |- context [match ?f (Datatypes.S (length ?l)) with _ => _ end] =>
      destruct (f (Datatypes.S (length l))) eqn:?
  | |- context [match ?e with redis_Nil => _ | _ => _ end] =>
      is_var e; match type of e with err => destruct e end
  | |- context [match ?m !! ?k with _ => _ end] => destruct (m !! k) eqn:?
  | |- context [match Unmarshal ?x with _ => _ end] => destruct (Unmarshal x) eqn:?
  | |- context [match Marshal ?x with _ => _ end] => destruct (Marshal x) eqn:?
  | |- context [strconv.Atoi ?x] => destruct (strconv.Atoi x) as [? [?|]] eqn:?
  end.

(** The Get and Set methods leave the fault oracle and the expiration of the
    cache as they were. *)
Lemma cache_lookup_frame (r : read) (c : catalogueCache) :
  faults (client (snd (cache_lookup r c))) = faults (client c)
  /\ ttl (snd (cache_lookup r c)) = ttl c.
Proof.
  destruct r; run_cache; repeat (split_match; run_cache); split; reflexivity.
Qed.

Lemma cache_store_frame (r : read) (v : value_of r) (c : catalogueCache) :
  faults (client (snd (cache_store r v c))) = faults (client c)
  /\ ttl (snd (cache_store r v c)) = ttl c.
Proof.
  destruct r; cbv beta iota delta [value_of] in v; run_cache;
    repeat (split_match; run_cache); split; reflexivity.
Qed.

Lemma err_Nil_or_not (e : err) : e = redis_Nil \/ e <> redis_Nil.
Proof. destruct e; [now left | right; discriminate | right; discriminate]. Qed.

Lemma cache_lookup_nil_fault (r : read) (c : catalogueCache) :
  faults (client c) (length (sent (client c))) = Some redis_Nil ->
  fst (cache_lookup r c) = (zero_value r, false, None).
Proof. destruct r; run_cache; intros ->; reflexivity. Qed.

Lemma cache_lookup_no_fault_no_error (r : read) (c : catalogueCache) :
  next_served (client c) -> snd (fst (cache_lookup r c)) = None.
Proof.
  destruct r; run_cache; intros ->; run_cache;
    repeat (split_match; run_cache); reflexivity.
Qed.

Lemma cache_lookup_found (r : read) (c : catalogueCache) :
  snd (fst (fst (cache_lookup r c))) = true ->
  exists val,
    keyspace (client c) !! read_key r = Some val
    /\ decode r val = Ok (fst (fst (fst (cache_lookup r c)))).
Proof.
  destruct r; run_cache; repeat (split_match; run_cache);
    try discriminate; intros _; eexists; (split; [reflexivity|]);
    try assumption.
  match goal with E : strconv.Atoi _ = _ |- _ => rewrite E end. reflexivity.
Qed.

(** X8. Not-found and error are kept apart: a Get method returns an error
    exactly when its [GET] command failed with an error other than
    [redis.Nil]; a missing or corrupted entry is never an error. And when
    it reports found, the key is stored and the value returned is the
    decoding of the stored bytes. *)
Theorem lookup_error_iff_command_failed (r : read) (c : catalogueCache) :
  (snd (fst (cache_lookup r c)) <> None
   <-> exists e, faults (client c) (length (sent (client c))) = Some e
                 /\ e <> redis_Nil)
  /\ (snd (fst (fst (cache_lookup r c))) = true ->
      snd (fst (cache_lookup r c)) = None
      /\ exists val,
           keyspace (client c) !! read_key r = Some val
           /\ decode r val = Ok (fst (fst (fst (cache_lookup r c))))).
Proof.
  split.
  - destruct (faults (client c) (length (sent (client c)))) as [e|] eqn:F.
    + destruct (err_Nil_or_not e) as [->|Hne].
      * rewrite (cache_lookup_nil_fault r c F). cbn [fst snd]. split.
        -- intros N. now contradiction N.
        -- intros (e & E & N). congruence.
      * pose proof (cache_lookup_fault r c e F Hne) as L.
        destruct (cache_lookup r c) as [res c']. destruct L as (-> & _).
        cbn [fst snd]. split; [intros _; now exists e|discriminate].
    + rewrite (cache_lookup_no_fault_no_error r c F). split.
      * intros N. now contradiction N.
      * intros (e & E & _). discriminate E.
  - intros Hf. split; [|now apply cache_lookup_found].
    destruct (faults (client c) (length (sent (client c)))) as [e|] eqn:F.
    + destruct (err_Nil_or_not e) as [->|Hne].
      * now rewrite (cache_lookup_nil_fault r c F).
      * pose proof (cache_lookup_fault r c e F Hne) as L.
        destruct (cache_lookup r c) as [res c']. destruct L as (-> & _).
        discriminate Hf.
    + now apply cache_lookup_no_fault_no_error.
Qed.


Lemma InvalidateProduct_served (id : string) (c : catalogueCache) :
  next_served (client c) ->
  let (res, c') := invalidation.InvalidateProduct id c in
  res = None
  /\ keyspace (client c') = delete (productKey id) (keyspace (client c))
  /\ faults (client c') = faults (client c)
  /\ sent (client c') = DEL (productKey id) :: sent (client c).
Proof. run_cache. intros ->. run_cache. repeat apply conj; reflexivity. Qed.

Lemma InvalidateProduct_failed (id : string) (c : catalogueCache) (e : err) :
  faults (client c) (length (sent (client c))) = Some e ->
  let (res, c') := invalidation.InvalidateProduct id c in
  res = Some e /\ keyspace (client c') = keyspace (client c).
Proof. run_cache. intros ->. run_cache. split; reflexivity. Qed.

Lemma other_read_other_key (r : read) (id : string) :
  r <> ReadGet id -> read_key r <> read_key (ReadGet id).
Proof.
  intros Hr E. pose proof (read_key_same_letter _ _ E) as L.
  destruct r as [t o n z|t|id'|]; try discriminate L.
  - exact (list_key_not_product_key _ _ _ _ _ E).
  - apply Hr. f_equal. rewrite !read_key_Get, !productKey_eq in E.
    now apply String.app_inj in E.
Qed.


End CacheExtras.


(** ** Write-back goroutines *)

Section WriteBackFacts.

Context `{SockType} {C S : Type} `{!CatalogueCache C} `{!Service S}.

(** Running the goroutine at the head of the pending ones. *)
Lemma run_nth_head (g : goroutine) (w : World C S) :
  w_go w = [g] ->
  run_nth 0 w
  = run_goroutine g
      {| w_clock := w_clock w; w_ticks := w_ticks w; w_metrics := w_metrics w;
         w_cache := w_cache w; w_next := w_next w; w_logger := w_logger w;
         w_go := []; w_calls := w_calls w |}.
Proof.
  intros E. unfold run_nth, take_goroutine, bind. rewrite E. reflexivity.
Qed.

(** The run of a write-back goroutine. *)
Lemma write_back_run (r : read) (v : value_of r) (w : World C S)
    (res : error) (c' : C) :
  cache_store r v (w_cache w) = (res, c') ->
  snd (run_goroutine (write_back_of r v) w)
  = {| w_clock := w_clock w; w_ticks := w_ticks w; w_metrics := w_metrics w;
       w_cache := c'; w_next := w_next w;
       w_logger := match res with
                   | Some e => write_back_failure r e :: w_logger w
                   | None => w_logger w
                   end;
       w_go := w_go w; w_calls := store_call r v :: w_calls w |}.
Proof.
  destruct r; cbv beta iota delta [value_of] in v;
    cbv beta iota zeta delta
      [cache_store write_back_of run_goroutine CachedService.write_back
       store_call write_back_failure read_name bind on_cache];
    intros ->; destruct res; reflexivity.
Qed.

(** X11. A write-back whose Set method fails is given up: the goroutine calls
    the Set method once, logs the error and ends. The metrics, the
    authoritative service, the clock and the pending goroutines are as they
    were, so a failed write-back is never counted and never retried. *)
Theorem failed_write_back_is_only_logged (r : read) (v : value_of r)
    (w : World C S) (e : err) (c' : C) :
  cache_store r v (w_cache w) = (Some e, c') ->
  let w' := snd (run_goroutine (write_back_of r v) w) in
  w_logger w' = write_back_failure r e :: w_logger w
  /\ w_calls w' = store_call r v :: w_calls w
  /\ w_metrics w' = w_metrics w
  /\ w_go w' = w_go w
  /\ w_next w' = w_next w
  /\ w_ticks w' = w_ticks w.
Proof.
  intros E w'. subst w'. rewrite (write_back_run r v w (Some e) c' E).
  repeat apply conj; reflexivity.
Qed.

End WriteBackFacts.

Section PopulateFacts.

Context `{SockType}.
Context {json_products : JSON (slice Sock)}.
Context {json_product : JSON Sock}.
Context {json_tags : JSON (slice string)}.
Context {S : Type} `{!Service S}.

(** X12. A miss populates the cache: once the write-back goroutine of a missed
    read has run, the same read is a hit that returns the value the
    authoritative service gave, without another call of that service. The
    Redis commands are all served, and the stored bytes decode back to the
    value. *)
Theorem miss_then_write_back_then_hit (r : read) (v : value_of r)
    (data : string) (w : World catalogueCache S) (s' : S) :
  w_go w = [] ->
  always_served (w_cache w) ->
  keyspace (client (w_cache w)) !! read_key r = None ->
  authoritative r (w_next w) = ((v, None), s') ->
  encode r v = Ok data ->
  decode r data = Ok v ->
  let w1 := snd (read_through r w) in
  let w2 := snd (run_nth 0 w1) in
  let (res, w3) := read_through r w2 in
  w_go w1 = [write_back_of r v]
  /\ keyspace (client (w_cache w2)) !! read_key r = Some data
  /\ res = (v, None)
  /\ w_next w3 = s'
  /\ w_go w3 = []
  /\ w_metrics w3
     = RecordCacheHit (read_name r) (elapsed w2 1)
         (RecordCacheMiss (read_name r) (elapsed w 1) (w_metrics w)).
Proof.
  intros Hgo Hserved Hk Ha He Hd w1 w2.
  (* the first read misses *)
  pose proof (cache_lookup_absent r (w_cache w) (Hserved _) Hk) as L.
  pose proof (cache_lookup_frame r (w_cache w)) as [Lf _].
  destruct (cache_lookup r (w_cache w)) as [res1 c1] eqn:E1. cbn [snd] in Lf.
  destruct L as (-> & Lk & _).
  pose proof (read_through_miss r w (zero_value r) v c1 None s' E1 Ha) as R.
  subst w2 w1. destruct (read_through r w) as [res w1]. cbn [snd].
  destruct R as (_ & Rm & _ & Rg & Rc & Rn).
  rewrite Hgo in Rg. cbn [app] in Rg.
  (* the write-back stores the value *)
  rewrite (run_nth_head (write_back_of r v) w1 Rg).
  assert (next_served (client c1)) as Hs1.
  { unfold next_served. rewrite Lf. apply Hserved. }
  pose proof (cache_store_served r c1 v data Hs1 He) as St.
  destruct (cache_store r v c1) as [res2 c2] eqn:E2.
  destruct St as (-> & Sk & Sf & _).
  erewrite write_back_run by (cbn [w_cache]; rewrite Rc; exact E2).
  (* the second read hits *)
  assert (next_served (client c2)) as Hs2.
  { unfold next_served. rewrite Sf, Lf. apply Hserved. }
  assert (keyspace (client c2) !! read_key r = Some data) as Hk2.
  { rewrite Sk. apply lookup_insert_eq. }
  pose proof (cache_lookup_hit r c2 data v Hs2 Hk2 Hd) as L2.
  destruct (cache_lookup r c2) as [res3 c3] eqn:E3.
  destruct L2 as (-> & _).
  match goal with
  | |- let (_, _) := read_through r ?w2 in _ =>
      pose proof (read_through_hit r w2 v c3 E3) as R2;
      destruct (read_through r w2) as [res4 w3]
  end.
  cbn [w_metrics w_go w_next w_cache] in *.
  destruct R2 as (-> & -> & _ & -> & _ & ->).
  rewrite Rm, Rn. repeat apply conj; try reflexivity; assumption.
Qed.

End PopulateFacts.

Lemma failed_write_back_is_only_logged_witness :
  let w' := snd (run_goroutine (write_back_of ReadTags (Slice ["blue"]))
                   world_cache_down) in
  w_logger w' = write_back_failure ReadTags refused :: []
  /\ w_calls w' = store_call ReadTags (Slice ["blue"]) :: []
  /\ w_metrics w' = NewCacheMetrics
  /\ w_go w' = []
  /\ w_next w' = example_stub healthy
  /\ w_ticks w' = 0%nat.
Proof.
  eapply (failed_write_back_is_only_logged ReadTags (Slice ["blue"])
            world_cache_down refused).
  vm_compute. reflexivity.
Defined.

Lemma miss_then_write_back_then_hit_witness :
  let w1 := snd (read_through ReadTags world_cold) in
  let w2 := snd (run_nth 0 w1) in
  let (res, w3) := read_through ReadTags w2 in
  w_go w1 = [go_SetTags (Slice ["blue"; "red"; "skin"; "sport"])]
  /\ keyspace (client (w_cache w2)) !! tagsKey
     = Some ("[" +:+ json.encodeString "blue" +:+ "," +:+ json.encodeString "red"
             +:+ "," +:+ json.encodeString "skin" +:+ ","
             +:+ json.encodeString "sport" +:+ "]")
  /\ res = (Slice ["blue"; "red"; "skin"; "sport"], None)
  /\ w_next w3 = snd (authoritative ReadTags (example_stub healthy))
  /\ w_go w3 = []
  /\ w_metrics w3
     = RecordCacheHit "Tags" (elapsed w2 1)
         (RecordCacheMiss "Tags" 1000000 NewCacheMetrics).
Proof.
  eapply (miss_then_write_back_then_hit ReadTags
            (Slice ["blue"; "red"; "skin"; "sport"]) _ world_cold).
  - reflexivity.
  - intros n. reflexivity.
  - reflexivity.
  - vm_compute. reflexivity.
  - vm_compute. reflexivity.
  - vm_compute. reflexivity.
Defined.
(** ** Background work: the warmer and the write-backs *)

Section BackgroundFacts.

Context `{SockType} {C S : Type} `{!CatalogueCache C} `{!Service S}.

Lemma keeps_ret {A} (a : A) : keeps (C := C) (S := S) w_metrics (ret a).
Proof. intros w. reflexivity. Qed.

Lemma keeps_bind {A B} (m : M (World C S) A) (k : A -> M (World C S) B) :
  keeps w_metrics m -> (forall a, keeps w_metrics (k a)) ->
  keeps w_metrics (bind m k).
Proof.
  intros Hm Hk w. unfold bind. specialize (Hm w).
  destruct (m w) as [a w1]. cbn [snd] in Hm. now rewrite Hk.
Qed.

Lemma keeps_time_Now : keeps (C := C) (S := S) w_metrics time_Now.
Proof. intros w. reflexivity. Qed.

Lemma keeps_time_Since (start : Z) :
  keeps (C := C) (S := S) w_metrics (time_Since start).
Proof. intros w. reflexivity. Qed.

Lemma keeps_Log (e : LogEntry) : keeps (C := C) (S := S) w_metrics (Log e).
Proof. intros w. reflexivity. Qed.

Lemma keeps_go (g : goroutine) : keeps (C := C) (S := S) w_metrics (go g).
Proof. intros w. reflexivity. Qed.

Lemma keeps_on_next {A} (c : call) (m : M S A) :
  keeps (C := C) w_metrics (on_next c m).
Proof. intros w. unfold on_next. now destruct (m (w_next w)). Qed.

Lemma keeps_on_cache {A} (c : call) (m : M C A) :
  keeps (S := S) w_metrics (on_cache c m).
Proof. intros w. unfold on_cache. now destruct (m (w_cache w)). Qed.

Lemma keeps_take_goroutine (n : nat) :
  keeps (C := C) (S := S) w_metrics (take_goroutine n).
Proof. intros w. reflexivity. Qed.

Lemma keeps_for_each {A} (l : list A) (body : A -> M (World C S) unit) :
  (forall x, keeps w_metrics (body x)) -> keeps w_metrics (for_each l body).
Proof.
  intros Hb. induction l as [|x l IH]; cbn [for_each].
  - apply keeps_ret.
  - apply keeps_bind; [apply Hb | intros _; apply IH].
Qed.

Ltac keeps_prim :=
  first [ apply keeps_ret | apply keeps_time_Now | apply keeps_time_Since
        | apply keeps_Log | apply keeps_go | apply keeps_take_goroutine
        | apply keeps_on_next | apply keeps_on_cache ].

Ltac keeps_case :=
  match goal with
  | |- keeps _ (match ?x with _ => _ end) => destruct x
  | |- keeps _ (let (_, _) := ?x in _) => destruct x
  end.

Ltac keeps_run :=
  repeat first [ keeps_prim | keeps_case | apply keeps_bind; [ | intros ? ] ].

Lemma keeps_warmProducts (products : list Sock) :
  forall warmed : Z,
    keeps (C := C) (S := S) w_metrics (CacheWarmer.warmProducts products warmed).
Proof.
  induction products as [|product rest IH]; intros warmed;
    cbn [CacheWarmer.warmProducts].
  - apply keeps_ret.
  - apply keeps_bind; [|intros warmed'; apply IH].
    unfold CacheWarmer.warmProduct. keeps_run.
Qed.

Lemma keeps_run_goroutine (g : goroutine) :
  keeps (C := C) (S := S) w_metrics (run_goroutine g).
Proof.
  destruct g;
    cbv beta iota delta
      [run_goroutine CachedService.write_back CacheWarmer.warmTags
       CacheWarmer.warmProductListings CacheWarmer.warmIndividualProducts
       CacheWarmer.WarmCache];
    repeat first
      [ keeps_prim
      | apply keeps_warmProducts
      | apply keeps_for_each; intros ?; unfold CacheWarmer.warmListing
      | keeps_case
      | apply keeps_bind; [ | intros ? ] ].
Qed.

Lemma concat_map_nil {A B} (l : list A) :
  concat (map (fun _ : A => @nil B) l) = [].
Proof. induction l as [|x l IH]; [reflexivity|exact IH]. Qed.

Lemma emits_take_goroutine (p : call -> bool) (n : nat) :
  emits (C := C) (S := S) p (take_goroutine n) [].
Proof. intros w. exists []. split; reflexivity. Qed.

Lemma emits_for_each_none {A} (p : call -> bool) (l : list A)
    (body : A -> M (World C S) unit) :
  (forall x, emits p (body x) []) -> emits p (for_each l body) [].
Proof.
  intros Hb. rewrite <- (concat_map_nil (B := call) l).
  now apply emits_for_each.
Qed.

Ltac emits_prim :=
  first [ apply emits_ret | apply emits_time_Now | apply emits_time_Since
        | apply emits_Log | apply emits_go | apply emits_take_goroutine
        | apply emits_on_next | apply emits_on_cache ].

Ltac emits_case :=
  match goal with
  | |- emits _ (match ?x with _ => _ end) _ => destruct x
  | |- emits _ (let (_, _) := ?x in _) _ => destruct x
  end.

Lemma warmProducts_no_lookup (products : list Sock) :
  forall warmed : Z,
    emits (C := C) (S := S) is_cache_Get
      (CacheWarmer.warmProducts products warmed) [].
Proof.
  induction products as [|product rest IH]; intros warmed;
    cbn [CacheWarmer.warmProducts].
  - apply emits_ret.
  - eapply (emits_bind _ _ _ [] []); [|intros warmed'; apply IH|reflexivity].
    unfold CacheWarmer.warmProduct.
    repeat first
      [ emits_prim | emits_case | eapply emits_bind; [ | intros ? | ] ];
      reflexivity.
Qed.

Lemma run_goroutine_no_lookup (g : goroutine) :
  emits (C := C) (S := S) is_cache_Get (run_goroutine g) [].
Proof.
  destruct g;
    cbv beta iota delta
      [run_goroutine CachedService.write_back CacheWarmer.warmTags
       CacheWarmer.warmProductListings CacheWarmer.warmIndividualProducts
       CacheWarmer.WarmCache];
    repeat first
      [ emits_prim
      | apply warmProducts_no_lookup
      | apply emits_for_each_none; intros ?; unfold CacheWarmer.warmListing
      | emits_case
      | eapply emits_bind; [ | intros ? | ] ];
    reflexivity.
Qed.

(** X13. Background work neither reads the cache nor records a metric: whatever
    goroutines run, in whatever order, and whatever fails in them, no Get
    method of the cache is called and the metrics are as they were. This
    covers the three phases of the warmer, [WarmCache] itself and the
    write-backs of the coordinator. *)
Theorem background_work_never_reads_cache_nor_records (schedule : list nat) :
  emits (C := C) (S := S) is_cache_Get (run_schedule schedule) []
  /\ keeps (C := C) (S := S) w_metrics (run_schedule schedule).
Proof.
  unfold run_schedule. split.
  - apply emits_for_each_none. intros n. unfold run_nth.
    eapply (emits_bind _ _ _ [] []);
      [apply emits_take_goroutine|intros [g|]|reflexivity].
    + apply run_goroutine_no_lookup.
    + apply emits_ret.
  - apply keeps_for_each. intros n. unfold run_nth.
    apply keeps_bind; [apply keeps_take_goroutine|intros [g|]].
    + apply keeps_run_goroutine.
    + apply keeps_ret.
Qed.

Lemma warmProducts_bounds (products : list Sock) :
  forall (warmed : Z) (w : World C S),
    0 <= warmed ->
    warmed + Z.of_nat (length products) <= int64_max ->
    warmed <= fst (CacheWarmer.warmProducts products warmed w)
    <= warmed + Z.of_nat (length products).
Proof.
  assert (int64_max = 9223372036854775807) as Emax by reflexivity.
  induction products as [|product rest IH]; intros warmed w H0 Hmax;
    cbn [CacheWarmer.warmProducts length].
  - cbn [ret fst]. unfold ret. cbn [fst]. lia.
  - cbn [length] in Hmax. rewrite Nat2Z.inj_succ in Hmax. unfold bind.
    destruct (CacheWarmer.warmProduct product warmed w) as [warmed' w1] eqn:E.
    assert (warmed' = warmed \/ warmed' = warmed + 1) as Hw.
    { revert E. unfold CacheWarmer.warmProduct, bind, on_next, on_cache, Log, modify, ret.
      destruct (Get (ID product) (w_next w)) as [[full [e|]] s1].
      - intros [= <- _]. now left.
      - cbn [w_cache].
        destruct (SetProduct (ID product) full (w_cache w)) as [[e|] c1].
        + intros [= <- _]. now left.
        + intros [= <- _]. right. apply wrap64_small. unfold is_int64.
          assert (int64_min = -9223372036854775808) as Emin by reflexivity.
          lia. }
    cbv beta iota. specialize (IH warmed' w1).
    destruct Hw as [-> | ->]; (destruct IH as [L U]; [lia|lia|lia]).
Qed.

(** X14. The products phase counts at most one warmed product per product of
    the page: the logged [warmed] lies between 0 and the logged [total]. *)
Theorem warmed_products_are_at_most_total (products : slice Sock)
    (w : World C S) :
  len products <= int64_max ->
  0 <= fst (CacheWarmer.warmProducts (elems products) 0 w) <= len products.
Proof.
  intros Hmax.
  assert (len products = Z.of_nat (length (elems products))) as E.
  { destruct products; reflexivity. }
  rewrite E in *.
  pose proof (warmProducts_bounds (elems products) 0 w) as B.
  apply B; lia.
Qed.

End BackgroundFacts.

Section WarmedReads.

Context `{SockType}.
Context {json_products : JSON (slice Sock)}.
Context {json_product : JSON Sock}.
Context {json_tags : JSON (slice string)}.
Context {S : Type} `{!Service S}.

(** X15. Warming makes the next read a hit: after a tags phase in which the
    service answered and the [SET] was served, the tags are stored under the
    tags key, and a read of the tags returns them from the cache without
    calling the service, recorded as one hit. *)
Theorem warmed_tags_are_served_from_cache (tags : slice string)
    (data : string) (w : World catalogueCache S) (s' : S) :
  always_served (w_cache w) ->
  Tags (w_next w) = ((tags, None), s') ->
  encode ReadTags tags = Ok data ->
  decode ReadTags data = Ok tags ->
  let w1 := snd (CacheWarmer.warmTags w) in
  let (res, w2) := read_through ReadTags w1 in
  keyspace (client (w_cache w1)) !! tagsKey = Some data
  /\ res = (tags, None)
  /\ w_next w2 = s'
  /\ w_metrics w2 = RecordCacheHit "Tags" (elapsed w1 1) (w_metrics w).
Proof.
  intros Hserved Ht He Hd w1.
  pose proof (cache_store_served ReadTags (w_cache w) tags data (Hserved _) He) as St.
  destruct (cache_store ReadTags tags (w_cache w)) as [res1 c1] eqn:E1.
  destruct St as (-> & Sk & Sf & _).
  assert (w_cache w1 = c1 /\ w_next w1 = s' /\ w_metrics w1 = w_metrics w)
    as (Wc & Wn & Wm).
  { subst w1. revert E1.
    cbv beta iota zeta delta
      [CacheWarmer.warmTags cache_store bind ret modify time_Now time_Since
       on_cache on_next Log].
    cbn [w_clock w_ticks w_metrics w_cache w_next w_logger w_go w_calls fst snd].
    rewrite Ht.
    cbn [w_clock w_ticks w_metrics w_cache w_next w_logger w_go w_calls fst snd].
    intros ->.
    cbn [w_clock w_ticks w_metrics w_cache w_next w_logger w_go w_calls fst snd].
    repeat apply conj; reflexivity. }
  assert (next_served (client c1)) as Hs1.
  { unfold next_served. rewrite Sf. apply Hserved. }
  assert (keyspace (client c1) !! read_key ReadTags = Some data) as Hk.
  { rewrite Sk. apply lookup_insert_eq. }
  pose proof (cache_lookup_hit ReadTags c1 data tags Hs1 Hk Hd) as L.
  destruct (cache_lookup ReadTags c1) as [res2 c2] eqn:E2.
  destruct L as (-> & _).
  rewrite <- Wc in E2.
  pose proof (read_through_hit ReadTags w1 tags c2 E2) as R.
  destruct (read_through ReadTags w1) as [res w2].
  destruct R as (-> & -> & _ & _ & _ & ->).
  rewrite Wc, Wn, Wm. repeat apply conj; try reflexivity. exact Hk.
Qed.

End WarmedReads.

Lemma warmed_products_are_at_most_total_witness :
  0 <= fst (CacheWarmer.warmProducts (H := item_SockType) example_items 0
              world_second_fails)
  <= Z.of_nat (length example_items).
Proof.
  apply (warmed_products_are_at_most_total (H := item_SockType)
           (Slice example_items) world_second_fails).
  vm_compute. discriminate.
Defined.

Lemma warmed_tags_are_served_from_cache_witness :
  let w1 := snd (CacheWarmer.warmTags world_cold) in
  let (res, w2) := read_through ReadTags w1 in
  keyspace (client (w_cache w1)) !! tagsKey
  = Some ("[" +:+ json.encodeString "blue" +:+ "," +:+ json.encodeString "red"
          +:+ "," +:+ json.encodeString "skin" +:+ ","
          +:+ json.encodeString "sport" +:+ "]")
  /\ res = (Slice ["blue"; "red"; "skin"; "sport"], None)
  /\ w_next w2 = snd (authoritative ReadTags (example_stub healthy))
  /\ w_metrics w2 = RecordCacheHit "Tags" (elapsed w1 1) NewCacheMetrics.
Proof.
  eapply (warmed_tags_are_served_from_cache
            (Slice ["blue"; "red"; "skin"; "sport"]) _ world_cold).
  - intros n. reflexivity.
  - vm_compute. reflexivity.
  - vm_compute. reflexivity.
  - vm_compute. reflexivity.
Defined.
(** ** The metrics middleware *)

Section MiddlewareFacts.

Context `{SockType} {C S : Type}.

(** X16. The middleware is transparent: around any service, each of its four
    read methods returns what the wrapped method returns, from the world in
    which the clock was read once. After the wrapped call it reads the clock
    once more and logs one entry with the name of the operation and the time
    between the two readings; the metrics, the cache, the authoritative
    service, the call history and the pending goroutines are as the wrapped
    call left them. *)
Theorem middleware_is_transparent (next : WorldService C S) (r : read)
    (w : World C S) :
  let (res, w1) := wrapped_read next r (snd (time_Now w)) in
  let (res', w2) := logged_read next r w in
  res' = res
  /\ w_logger w2
     = [("operation", LString (read_name r));
        ("total_duration_ms",
         LInt (Milliseconds (w_clock w1 (w_ticks w1) - w_clock w (w_ticks w))))]
       :: w_logger w1
  /\ w_ticks w2 = Datatypes.S (w_ticks w1)
  /\ w_metrics w2 = w_metrics w1
  /\ w_cache w2 = w_cache w1
  /\ w_next w2 = w_next w1
  /\ w_calls w2 = w_calls w1
  /\ w_go w2 = w_go w1.
Proof.
  destruct r;
    cbv beta iota zeta delta
      [wrapped_read logged_read value_of read_name metricsMiddleware.List
       metricsMiddleware.Count metricsMiddleware.Get metricsMiddleware.Tags
       bind ret modify time_Now time_Since Log];
    cbn [fst snd];
    match goal with
    | |- let (_, _) := ?m ?w0 in _ => destruct (m w0) as [res w1]
    end;
    cbn [w_clock w_ticks w_metrics w_cache w_next w_logger w_go w_calls fst snd];
    repeat apply conj; reflexivity.
Qed.

End MiddlewareFacts.

Section MiddlewareAroundCache.

Context `{SockType} {C S : Type} `{!CatalogueCache C} `{!Service S}.

(** X17. Around the [CachedService], the middleware adds nothing to the
    metrics: a cache hit that goes through it is returned as it is and is
    recorded as one hit, timed by the coordinator's own clock readings; the
    middleware's entry is the latest of the log. *)
Theorem hit_through_middleware (r : read) (w : World C S) (v : value_of r)
    (c' : C) :
  cache_lookup r (w_cache w) = ((v, true, None), c') ->
  let (res, w') := logged_read cached_service r w in
  res = (v, None)
  /\ w_metrics w'
     = RecordCacheHit (read_name r) (elapsed (snd (time_Now w)) 1) (w_metrics w)
  /\ w_next w' = w_next w
  /\ hd [] (w_logger w')
     = [("operation", LString (read_name r));
        ("total_duration_ms", LInt (Milliseconds (elapsed w 3)))].
Proof.
  intros Hc.
  pose proof (middleware_is_transparent cached_service r w) as T.
  assert (wrapped_read cached_service r = read_through r) as E
    by (destruct r; reflexivity).
  rewrite E in T.
  pose proof (read_through_hit r (snd (time_Now w)) v c' Hc) as R.
  assert (w_ticks (snd (read_through r (snd (time_Now w))))
          = (3 + w_ticks w)%nat
          /\ w_clock (snd (read_through r (snd (time_Now w)))) = w_clock w)
    as [Et Ec].
  { revert Hc. destruct r;
      cbv beta iota zeta delta
        [read_through cache_lookup value_of CachedService.List
         CachedService.Count CachedService.Get CachedService.Tags
         bind ret modify time_Now time_Since on_cache on_metrics Log];
      cbn [w_clock w_ticks w_metrics w_cache w_next w_logger w_go w_calls fst snd];
      intros ->; split; reflexivity. }
  destruct (read_through r (snd (time_Now w))) as [res w1].
  destruct (logged_read cached_service r w) as [res' w2].
  cbn [snd] in Et, Ec.
  destruct T as (-> & -> & _ & -> & _ & -> & _).
  destruct R as (-> & -> & _ & _ & _ & ->).
  rewrite Et, Ec. repeat apply conj; reflexivity.
Qed.

End MiddlewareAroundCache.

Lemma hit_through_middleware_witness :
  let (res, w') := logged_read cached_service ReadTags world_warm in
  res = (Slice ["blue"; "red"], None)
  /\ w_metrics w'
     = RecordCacheHit "Tags" (elapsed (snd (time_Now world_warm)) 1) NewCacheMetrics
  /\ w_next w' = example_stub healthy
  /\ hd [] (w_logger w')
     = [("operation", LString "Tags");
        ("total_duration_ms", LInt (Milliseconds (elapsed world_warm 3)))].
Proof.
  eapply (hit_through_middleware ReadTags world_warm).
  vm_compute. reflexivity.
Defined.
(** ** An invariant of the Redis-backed cache *)

Section CacheInvariant.

Context `{SockType}.
Context {json_products : JSON (slice Sock)}.
Context {json_product : JSON Sock}.
Context {json_tags : JSON (slice string)}.

Ltac run_cache :=
  cbv beta iota zeta delta
    [cache_lookup cache_store read_key value_of zero_value encode decode
     GetProducts SetProducts GetProduct SetProduct GetCount SetCount GetTags SetTags
     cache.catalogueCache_CatalogueCache
     cache.GetProducts cache.SetProducts cache.GetProduct cache.SetProduct
     cache.GetCount cache.SetCount cache.GetTags cache.SetTags
     invalidation.InvalidateProduct
     cache.Log cache.on_client cache.get_ttl
     redis.Get redis.Set_ redis.Del send served next_served
     bind ret modify client logger ttl keyspace faults sent fst snd];
  cbn [length].

Ltac split_match :=
  match goal with
  | |- context [match ?f (length ?l) with _ => _ end] =>
      destruct (f (length l)) eqn:?
  | |- context [match ?f (Datatypes.S (length ?l)) with _ => _ end] =>
      destruct (f (Datatypes.S (length l))) eqn:?
  | |- context [match ?e with redis_Nil => _ | _ => _ end] =>
      is_var e; match type of e with err => destruct e end
  | |- context [match ?m !! ?k with _ => _ end] => destruct (m !! k) eqn:?
  | |- context [match Unmarshal ?x with _ => _ end] => destruct (Unmarshal x) eqn:?
  | |- context [match Marshal ?x with _ => _ end] => destruct (Marshal x) eqn:?
  | |- context [strconv.Atoi ?x] => destruct (strconv.Atoi x) as [? [?|]] eqn:?
  end.

Lemma namespaced_read_key (r : read) : namespaced (read_key r).
Proof. apply read_key_prefix. Qed.

Lemma keyspace_delete_namespaced (ks : gmap string string) (k : string) :
  (forall key val, ks !! key = Some val -> namespaced key) ->
  forall key val, delete k ks !! key = Some val -> namespaced key.
Proof.
  intros Hks key val Hl. apply lookup_delete_Some in Hl as [_ Hl]. eauto.
Qed.

Lemma keyspace_insert_namespaced (ks : gmap string string) (r : read)
    (data : string) :
  (forall key val, ks !! key = Some val -> namespaced key) ->
  forall key val, <[read_key r := data]> ks !! key = Some val -> namespaced key.
Proof.
  intros Hks key val Hl. apply lookup_insert_Some in Hl as [[<- _]|[_ Hl]].
  - apply namespaced_read_key.
  - eauto.
Qed.

Ltac pick :=
  match goal with
  | |- ?x = ?x => reflexivity
  | |- ?x = ?x \/ _ => left; reflexivity
  | |- _ \/ ?x = ?x => right; reflexivity
  | |- _ \/ (exists d, <[?k := ?v]> ?m = <[?k := d]> ?m) =>
      right; exists v; reflexivity
  | |- _ \/ (exists d, SET ?k ?v ?t :: ?l = SET ?k d ?t :: ?l) =>
      right; exists v; reflexivity
  end.

(** What a Get method does to the keyspace and to the command sequence. *)
Lemma cache_lookup_effect (r : read) (c : catalogueCache) :
  (keyspace (client (snd (cache_lookup r c))) = keyspace (client c)
   \/ keyspace (client (snd (cache_lookup r c)))
      = delete (read_key r) (keyspace (client c)))
  /\ (sent (client (snd (cache_lookup r c))) = GET (read_key r) :: sent (client c)
      \/ sent (client (snd (cache_lookup r c)))
         = DEL (read_key r) :: GET (read_key r) :: sent (client c)).
Proof.
  destruct r; run_cache; repeat (split_match; run_cache); split; pick.
Qed.

(** What a Set method does to the keyspace and to the command sequence. *)
Lemma cache_store_effect (r : read) (v : value_of r) (c : catalogueCache) :
  (keyspace (client (snd (cache_store r v c))) = keyspace (client c)
   \/ exists data,
        keyspace (client (snd (cache_store r v c)))
        = <[read_key r := data]> (keyspace (client c)))
  /\ (sent (client (snd (cache_store r v c))) = sent (client c)
      \/ exists data,
           sent (client (snd (cache_store r v c)))
           = SET (read_key r) data (ttl c) :: sent (client c)).
Proof.
  destruct r; cbv beta iota delta [value_of] in v; run_cache;
    repeat (split_match; run_cache); split; pick.
Qed.

Lemma InvalidateProduct_effect (id : string) (c : catalogueCache) :
  (keyspace (client (snd (invalidation.InvalidateProduct id c)))
   = keyspace (client c)
   \/ keyspace (client (snd (invalidation.InvalidateProduct id c)))
      = delete (productKey id) (keyspace (client c)))
  /\ sent (client (snd (invalidation.InvalidateProduct id c)))
     = DEL (productKey id) :: sent (client c)
  /\ ttl (snd (invalidation.InvalidateProduct id c)) = ttl c.
Proof.
  run_cache; repeat (split_match; run_cache); repeat split; pick.
Qed.

Lemma cache_lookup_invariant (r : read) (c : catalogueCache) :
  cache_invariant c -> cache_invariant (snd (cache_lookup r c)).
Proof.
  intros [Hks Hsent].
  destruct (cache_lookup_effect r c) as [Ek Es].
  destruct (cache_lookup_frame r c) as [_ Et].
  unfold cache_invariant. rewrite Et. split.
  - destruct Ek as [-> | ->]; [exact Hks|].
    now apply keyspace_delete_namespaced.
  - destruct Es as [-> | ->]; repeat (apply Forall_cons; split; [exact I|]);
      exact Hsent.
Qed.

Lemma cache_store_invariant (r : read) (v : value_of r) (c : catalogueCache) :
  cache_invariant c -> cache_invariant (snd (cache_store r v c)).
Proof.
  intros [Hks Hsent].
  destruct (cache_store_effect r v c) as [Ek Es].
  destruct (cache_store_frame r v c) as [_ Et].
  unfold cache_invariant. rewrite Et. split.
  - destruct Ek as [-> | [data ->]]; [exact Hks|].
    now apply keyspace_insert_namespaced.
  - destruct Es as [-> | [data ->]]; [exact Hsent|].
    apply Forall_cons. split; [|exact Hsent].
    split; [reflexivity|apply namespaced_read_key].
Qed.

Lemma InvalidateProduct_invariant (id : string) (c : catalogueCache) :
  cache_invariant c -> cache_invariant (snd (invalidation.InvalidateProduct id c)).
Proof.
  intros [Hks Hsent].
  destruct (InvalidateProduct_effect id c) as (Ek & Es & Et).
  unfold cache_invariant. rewrite Et, Es. split.
  - destruct Ek as [-> | ->]; [exact Hks|].
    now apply keyspace_delete_namespaced.
  - apply Forall_cons. split; [exact I|exact Hsent].
Qed.

Lemma run_op_invariant (o : cache_op) (c : catalogueCache) :
  cache_invariant c -> cache_invariant (snd (run_op o c)).
Proof.
  intros Hc. destruct o as [r|r v|id]; unfold run_op, bind, ret.
  - pose proof (cache_lookup_invariant r c Hc) as I1.
    now destruct (cache_lookup r c).
  - pose proof (cache_store_invariant r v c Hc) as I1.
    now destruct (cache_store r v c).
  - pose proof (InvalidateProduct_invariant id c Hc) as I1.
    now destruct (invalidation.InvalidateProduct id c).
Qed.

Lemma run_ops_invariant (ops : list cache_op) :
  forall c : catalogueCache, cache_invariant c -> cache_invariant (snd (run_ops ops c)).
Proof.
  unfold run_ops. induction ops as [|o ops IH]; intros c Hc; cbn [for_each].
  - exact Hc.
  - unfold bind. pose proof (run_op_invariant o c Hc) as I1.
    destruct (run_op o c) as [[] c1]. now apply IH.
Qed.

Lemma run_ops_ttl (ops : list cache_op) :
  forall c : catalogueCache, ttl (snd (run_ops ops c)) = ttl c.
Proof.
  unfold run_ops. induction ops as [|o ops IH]; intros c; cbn [for_each].
  - reflexivity.
  - unfold bind. destruct (run_op o c) as [[] c1] eqn:E. rewrite IH.
    change c1 with (snd (tt, c1)). rewrite <- E.
    destruct o as [r|r v|id]; unfold run_op, bind, ret.
    + pose proof (cache_lookup_frame r c) as [_ T].
      now destruct (cache_lookup r c).
    + pose proof (cache_store_frame r v c) as [_ T].
      now destruct (cache_store r v c).
    + destruct (InvalidateProduct_effect id c) as (_ & _ & T).
      now destruct (invalidation.InvalidateProduct id c).
Qed.

(** X18. Whatever is done through the cache built by [NewCatalogueCache] on an
    empty Redis, in any order and whatever fails: every key that is stored
    lies in the [catalogue:] namespace, and every [SET] that was sent is on
    a key of that namespace and carries the expiration of 30 minutes, so the
    cache never stores an entry that does not expire. *)
Theorem every_entry_is_namespaced_and_expires (rdb : redisClient)
    (ops : list cache_op) :
  keyspace rdb = ∅ ->
  sent rdb = [] ->
  let c := snd (run_ops ops (NewCatalogueCache rdb)) in
  (forall key val, keyspace (client c) !! key = Some val -> namespaced key)
  /\ (forall key val expiration,
        In (SET key val expiration) (sent (client c)) ->
        expiration = 30 * Minute /\ namespaced key).
Proof.
  intros Hk Hs c.
  assert (cache_invariant (NewCatalogueCache rdb)) as I0.
  { split; cbn [NewCatalogueCache client keyspace sent].
    - rewrite Hk. intros key val Hl. rewrite lookup_empty in Hl. discriminate Hl.
    - rewrite Hs. constructor. }
  pose proof (run_ops_invariant ops _ I0) as [Iks Isent]. fold c in Iks, Isent.
  split; [exact Iks|].
  intros key val expiration Hin.
  rewrite List.Forall_forall in Isent. specialize (Isent _ Hin).
  cbn [good_command] in Isent. destruct Isent as [-> Hn].
  split; [|exact Hn]. subst c. now rewrite run_ops_ttl.
Qed.

End CacheInvariant.

Lemma every_entry_is_namespaced_and_expires_witness :
  let c :=
    snd (run_ops [op_store ReadTags (Slice ["blue"]); op_lookup (ReadCount nil_slice);
                  op_invalidate "a0a4f044"]
           (NewCatalogueCache (example_redis ∅ healthy))) in
  (forall key val, keyspace (client c) !! key = Some val -> namespaced key)
  /\ (forall key val expiration,
        In (SET key val expiration) (sent (client c)) ->
        expiration = 30 * Minute /\ namespaced key).
Proof.
  apply (every_entry_is_namespaced_and_expires (example_redis ∅ healthy)
           [op_store ReadTags (Slice ["blue"]); op_lookup (ReadCount nil_slice);
            op_invalidate "a0a4f044"]);
    reflexivity.
Defined.
